(** * Meeting scheduler: the availability parser, the interval intersector
    and the meeting-time finder of [main.py] / [main(webapp).py].

    The two front ends carry the same [MeetingScheduler] class; the core
    methods are embedded once.  Python integers are [Z], Python strings
    are lists of Unicode code points, dictionaries are insertion-ordered
    association lists. *)

From Stdlib Require Import Strings.String Strings.Ascii.
From Stdlib Require Import List Bool ZArith NArith QArith Lia.
From Stdlib Require Import Permutation Sorted.
Import ListNotations.

Local Open Scope Z_scope.

(* ================================================================== *)
(** ** Strings *)

(** A Python [str] is a sequence of code points. *)
Definition char := N.
Definition pystr := list char.

(** A literal of the source, written as a Rocq string (ASCII only). *)
Definition py (s : string) : pystr := map N_of_ascii (list_ascii_of_string s).

(** The en dash U+2013, the second member of the character class of the
    pattern. *)
Definition en_dash : char := 8211%N.
Definition hyphen : char := 45%N.

Definition is_ascii (c : char) : Prop := (c < 128)%N.

(** What the Unicode database of CPython says on the ASCII range:
    [str.isspace] holds of TAB..CR, FS..US and SPACE; the decimal digits
    are 0..9; [str.upper] and [str.lower] shift the letters. *)
Definition ascii_isspace (c : char) : bool :=
  ((9 <=? c) && (c <=? 13) || (28 <=? c) && (c <=? 32))%N.

Definition ascii_decimal (c : char) : option Z :=
  if ((48 <=? c) && (c <=? 57))%N then Some (Z.of_N c - 48) else None.

Definition ascii_upper (c : char) : char :=
  if ((97 <=? c) && (c <=? 122))%N then (c - 32)%N else c.

Definition ascii_lower (c : char) : char :=
  if ((65 <=? c) && (c <=? 90))%N then (c + 32)%N else c.

(** The character tables the code consults through [str.strip], [str.upper],
    [str.lower], [int] and the classes [\d] and [\s] of [re].  They are
    not part of the repository, so they are a parameter; the laws are the
    facts about them that the development relies on.  [upper] maps one code
    point to its (possibly longer) upper-case expansion; [str_lower] is kept
    on whole strings because lower-casing is context sensitive. *)
Class UnicodeDB := {
  isspace : char -> bool;
  decimal : char -> option Z;
  upper : char -> pystr;
  str_lower : pystr -> pystr;
  isspace_ascii : forall c, is_ascii c -> isspace c = ascii_isspace c;
  decimal_ascii : forall c, is_ascii c -> decimal c = ascii_decimal c;
  upper_ascii : forall c, is_ascii c -> upper c = [ascii_upper c];
  lower_ascii : forall s, Forall is_ascii s -> str_lower s = map ascii_lower s;
  decimal_range : forall c d, decimal c = Some d -> 0 <= d <= 9;
  decimal_not_space : forall c d, decimal c = Some d -> isspace c = false;
  en_dash_not_space : isspace en_dash = false;
  en_dash_not_decimal : decimal en_dash = None;
  en_dash_upper : upper en_dash = [en_dash]
}.

Fixpoint pystr_eqb (a b : pystr) : bool :=
  match a, b with
  | [], [] => true
  | x :: a', y :: b' => (x =? y)%N && pystr_eqb a' b'
  | _, _ => false
  end.

(** Python compares strings code point by code point. *)
Fixpoint str_ltb (a b : pystr) : bool :=
  match a, b with
  | [], [] => false
  | [], _ :: _ => true
  | _ :: _, [] => false
  | x :: a', y :: b' =>
      if (x <? y)%N then true else if (y <? x)%N then false else str_ltb a' b'
  end.

(** [l] is a prefix of [s]: what is left of [s] after it. *)
Fixpoint drop_prefix (l s : pystr) : option pystr :=
  match l, s with
  | [], _ => Some s
  | a :: l', b :: s' => if (a =? b)%N then drop_prefix l' s' else None
  | _ :: _, [] => None
  end.

(** [keyword in time_str]. *)
Fixpoint contains (k t : pystr) : bool :=
  match drop_prefix k t with
  | Some _ => true
  | None => match t with [] => false | _ :: t' => contains k t' end
  end.

(** [re.split('[,;]', s)]: the pieces between the separators, empty
    pieces included. *)
Fixpoint re_split (sep : char -> bool) (s : pystr) : list pystr :=
  match s with
  | [] => [[]]
  | c :: s' =>
      if sep c then [] :: re_split sep s'
      else match re_split sep s' with
           | piece :: pieces => (c :: piece) :: pieces
           | [] => [[c]]
           end
  end.

Definition comma_or_semicolon (c : char) : bool := ((c =? 44) || (c =? 59))%N.

(* ================================================================== *)
(** ** Regular expressions

    A backtracking matcher for the constructs the time-range pattern uses.
    [run r s g] lists every way [r] matches a prefix of [s], in the order
    in which the backtracking engine of [re] tries them (greedy repetition
    first, alternatives left to right); each way is the unread rest of the
    input and the groups captured so far. *)

Inductive regex :=
| RClass (p : char -> bool)
| RLit (l : pystr)
| RSeq (r1 r2 : regex)
| RAlt (r1 r2 : regex)
| ROpt (r : regex)
| RStar (p : char -> bool)
| RPlus (p : char -> bool)
| RGroup (i : nat) (r : regex).

Definition groups := list (nat * pystr).

(** Greedy [p*]: the longest run first, then shorter ones. *)
Fixpoint star (p : char -> bool) (s : pystr) (g : groups) : list (pystr * groups) :=
  match s with
  | c :: s' => if p c then star p s' g ++ [(s, g)] else [(s, g)]
  | [] => [([], g)]
  end.

Fixpoint run (r : regex) (s : pystr) (g : groups) : list (pystr * groups) :=
  match r with
  | RClass p => match s with
                | c :: s' => if p c then [(s', g)] else []
                | [] => []
                end
  | RLit l => match drop_prefix l s with
              | Some s' => [(s', g)]
              | None => []
              end
  | RSeq r1 r2 => flat_map (fun '(s', g') => run r2 s' g') (run r1 s g)
  | RAlt r1 r2 => run r1 s g ++ run r2 s g
  | ROpt r1 => run r1 s g ++ [(s, g)]
  | RStar p => star p s g
  | RPlus p => match s with
               | c :: s' => if p c then star p s' g else []
               | [] => []
               end
  | RGroup i r1 =>
      map (fun '(s', g') =>
             (s', (i, firstn (length s - length s')%nat s) :: g'))
          (run r1 s g)
  end.

(** [re.search]: the first match at the leftmost position that has one. *)
Fixpoint re_search (r : regex) (s : pystr) : option groups :=
  match run r s [] with
  | (_, g) :: _ => Some g
  | [] => match s with
          | [] => None
          | _ :: s' => re_search r s'
          end
  end.

(** [p] cannot read on at [s]. *)
Definition stops (p : char -> bool) (s : pystr) : Prop :=
  match s with [] => True | c :: _ => p c = false end.

(** [match.group(i)]: [None] for a group that took no part in the match. *)
Fixpoint group (m : groups) (i : nat) : option pystr :=
  match m with
  | [] => None
  | (j, t) :: m' => if Nat.eqb i j then Some t else group m' i
  end.

Section Parser.
Context {U : UnicodeDB}.

(** ** [str.strip] and [str.upper] *)

Fixpoint lstrip (s : pystr) : pystr :=
  match s with
  | c :: s' => if isspace c then lstrip s' else s
  | [] => []
  end.

Definition rstrip (s : pystr) : pystr := rev (lstrip (rev s)).

Definition strip (s : pystr) : pystr := rstrip (lstrip s).

Definition str_upper (s : pystr) : pystr := flat_map upper s.

(** ** [int] on the text of a [\d+] group

    [int] reads the decimal digits of any script.  The interpreter's cap
    on the length of a decimal literal (4300 digits by default from
    Python 3.11 on) is not modelled. *)

Definition is_digit (c : char) : bool :=
  match decimal c with Some _ => true | None => false end.

Definition digit_value (c : char) : Z :=
  match decimal c with Some d => d | None => 0 end.

Definition py_int (s : pystr) : Z :=
  fold_left (fun acc c => 10 * acc + digit_value c) s 0.

(** ** [parse_time_slot] *)

Definition unavailable_keywords : list pystr :=
  [py "NA"; py "N/A"; py "ON LEAVE"; py "LEAVE"; py "UNAVAILABLE"; py "OFF"].

Definition is_dash (c : char) : bool := ((c =? hyphen) || (c =? en_dash))%N.

Definition am_or_pm : regex := RAlt (RLit (py "AM")) (RLit (py "PM")).

(** [(\d+)\s*(AM|PM)?\s*[-\u2013]\s*(\d+)\s*(AM|PM)], the class of the
    dash holding the hyphen and the en dash. *)
Definition time_range : regex :=
  RSeq (RGroup 1 (RPlus is_digit))
  (RSeq (RStar isspace)
  (RSeq (ROpt (RGroup 2 am_or_pm))
  (RSeq (RStar isspace)
  (RSeq (RClass is_dash)
  (RSeq (RStar isspace)
  (RSeq (RGroup 3 (RPlus is_digit))
  (RSeq (RStar isspace)
        (RGroup 4 am_or_pm)))))))).

Definition interval := (Z * Z)%type.

Definition text (g : option pystr) : pystr :=
  match g with Some t => t | None => [] end.

(** [period == 'PM'] where [period] is a group text or [None]. *)
Definition is_str (period : option pystr) (lit : string) : bool :=
  match period with Some t => pystr_eqb t (py lit) | None => false end.

(** The body of [if match:], up to the pair that is appended. *)
Definition convert (m : groups) : interval :=
  let start_time := py_int (text (group m 1)) in
  let start_period :=
    match group m 2 with Some (c :: t) => Some (c :: t) | _ => None end in
  let end_time := py_int (text (group m 3)) in
  let end_period := group m 4 in
  let end_time :=
    if is_str end_period "PM" && negb (end_time =? 12) then end_time + 12
    else if is_str end_period "AM" && (end_time =? 12) then 0
    else end_time in
  let start_time :=
    match start_period with
    | Some _ =>
        if is_str start_period "PM" && negb (start_time =? 12) then start_time + 12
        else if is_str start_period "AM" && (start_time =? 12) then 0
        else start_time
    | None =>
        if is_str end_period "PM" && (start_time <? 12) then start_time + 12
        else start_time
    end in
  (start_time, end_time).

(** One turn of [for part in time_parts], [slots] being the list built
    so far. *)
Definition parse_part (slots : list interval) (part : pystr) : list interval :=
  let part := strip part in
  match part with
  | [] => slots
  | _ :: _ =>
      match re_search time_range part with
      | Some m => slots ++ [convert m]
      | None => slots
      end
  end.

Definition has_keyword (time_str : pystr) : bool :=
  existsb (fun keyword => contains keyword time_str) unavailable_keywords.

(** The argument is a [str]: [parse_availability] passes [str(cell)], and
    the guard [isinstance(time_str, str)] returns [[]] for anything else. *)
Definition parse_time_slot (time_str : pystr) : list interval :=
  let time_str := str_upper (strip time_str) in
  if has_keyword time_str then []
  else fold_left parse_part (re_split comma_or_semicolon time_str) [].

End Parser.

(* ================================================================== *)
(** ** Dictionaries

    A [dict] keeps its keys in insertion order; assigning to a key that is
    present replaces the value in place. *)

Definition dict (V : Type) := list (pystr * V).

Fixpoint dget {V} (d : dict V) (k : pystr) : option V :=
  match d with
  | [] => None
  | (k', v) :: d' => if pystr_eqb k' k then Some v else dget d' k
  end.

Fixpoint dset {V} (d : dict V) (k : pystr) (v : V) : dict V :=
  match d with
  | [] => [(k, v)]
  | (k', v') :: d' =>
      if pystr_eqb k' k then (k', v) :: d' else (k', v') :: dset d' k v
  end.

Definition dmem {V} (d : dict V) (k : pystr) : bool :=
  match dget d k with Some _ => true | None => false end.

Definition dkeys {V} (d : dict V) : list pystr := map fst d.
Definition dvalues {V} (d : dict V) : list V := map snd d.

(** What a well-formed dictionary is: no key twice. *)
Definition dict_ok {V} (d : dict V) : Prop := NoDup (dkeys d).

(** [set.add] on one enumeration of a set of strings. *)
Definition set_add (s : list pystr) (x : pystr) : list pystr :=
  if existsb (pystr_eqb x) s then s else s ++ [x].

(* ================================================================== *)
(** ** Sorting

    [sorted] and [list.sort] are stable.  [sort_by before] is the stable
    insertion sort for the strict order [before y x] ("[y] goes strictly
    before [x]"); elements neither of which goes before the other keep
    their order. *)

Section Sort.
Context {A : Type} (before : A -> A -> bool).

Fixpoint insert_by (x : A) (l : list A) : list A :=
  match l with
  | [] => [x]
  | y :: l' => if before y x then y :: insert_by x l' else x :: l
  end.

Definition sort_by (l : list A) : list A := fold_right insert_by [] l.

End Sort.

(** Neither of [x] and [y] goes before the other. *)
Definition tied {A} (before : A -> A -> bool) (x y : A) : bool :=
  negb (before x y) && negb (before y x).

(** [sorted(all_dates)] on strings. *)
Definition sorted_str (l : list pystr) : list pystr := sort_by str_ltb l.

(* ================================================================== *)
(** ** The interval intersector *)

(** The [duration_hours] argument is a Python float: a rational, an
    infinity or a NaN.  (An [int] argument is a [DFinite] too.) *)
Inductive duration :=
| DFinite (q : Q)
| DPosInf
| DNegInf
| DNaN.

(** [n >= d] for an integer [n] and a float [d]; Python compares the two
    exactly, and every comparison with a NaN is false. *)
Definition int_ge (n : Z) (d : duration) : bool :=
  match d with
  | DFinite q => Qle_bool q (inject_Z n)
  | DPosInf => false
  | DNegInf => true
  | DNaN => false
  end.

(** [d <= 0]. *)
Definition duration_le_0 (d : duration) : bool :=
  match d with
  | DFinite q => Qle_bool q 0
  | DPosInf => false
  | DNegInf => true
  | DNaN => false
  end.

(** The two nested [for] loops that build [new_intersection]. *)
Definition overlap_loop (current_intersection member_slots : list interval)
  : list interval :=
  fold_left
    (fun new_intersection slot1 =>
       fold_left
         (fun new_intersection slot2 =>
            let overlap_start := Z.max (fst slot1) (fst slot2) in
            let overlap_end := Z.min (snd slot1) (snd slot2) in
            if overlap_end >? overlap_start
            then new_intersection ++ [(overlap_start, overlap_end)]
            else new_intersection)
         member_slots new_intersection)
    current_intersection [].

(** [for member_slots in all_member_slots[1:]], with its [break]. *)
Fixpoint intersect_loop (current_intersection : list interval)
  (rest : list (list interval)) : list interval :=
  match rest with
  | [] => current_intersection
  | member_slots :: rest' =>
      let current_intersection := overlap_loop current_intersection member_slots in
      match current_intersection with
      | [] => []
      | _ :: _ => intersect_loop current_intersection rest'
      end
  end.

(** The final loop that keeps the slots that are long enough. *)
Definition duration_loop (current_intersection : list interval)
  (duration_hours : duration) : list interval :=
  fold_left
    (fun valid_slots slot =>
       let slot_duration := snd slot - fst slot in
       if int_ge slot_duration duration_hours then valid_slots ++ [slot]
       else valid_slots)
    current_intersection [].

Definition _intersect_all_slots (all_member_slots : list (list interval))
  (duration_hours : duration) : list interval :=
  match all_member_slots with
  | [] => []
  | first :: rest => duration_loop (intersect_loop first rest) duration_hours
  end.

(** [_find_common_slots] of [main.py], which delegates to
    [_intersect_all_slots]. *)
Definition _find_common_slots (members_available : dict (list interval))
  (duration_hours : duration) : list interval :=
  match members_available with
  | [] => []
  | _ :: _ => _intersect_all_slots (dvalues members_available) duration_hours
  end.

(** [_find_common_slots] of [main(webapp).py], which has the loops
    inlined.  Its loop variable reuses the name [member_slots]; the slice
    [member_slots[1:]] it runs over is taken before the first turn. *)
Definition _find_common_slots_webapp (members_available : dict (list interval))
  (duration_hours : duration) : list interval :=
  match members_available with
  | [] => []
  | _ :: _ =>
      let member_slots := dvalues members_available in
      match member_slots with
      | [] => []
      | first :: rest => duration_loop (intersect_loop first rest) duration_hours
      end
  end.

(* ================================================================== *)
(** ** The meeting-time finder *)

Definition schedule := dict (list interval).
Definition index := dict schedule.

(** A slot of the result.  The entries of [perfect_slots] have no
    ['coverage'] key.  The coverage [available_count / total_members] is
    kept as the exact fraction in lowest terms: both operands are small
    integers and IEEE division by one divisor is monotone, sends different
    numerators below 2^52 to different floats and [n / n] to [1.0], so the
    fractions compare as the floats do. *)
Record slot := mk_slot {
  date : pystr;
  start_time : Z;
  end_time : Z;
  members_available : list pystr;
  members_unavailable : list pystr;
  coverage : option Q
}.

Record results := mk_results {
  perfect_slots : list slot;
  best_alternative_slots : list slot
}.

Definition true_div (a b : nat) : Q := Qred (Z.of_nat a # Pos.of_nat b).

(** The sort key [x['coverage']]. *)
Definition coverage_key (x : slot) : Q :=
  match coverage x with Some q => q | None => 0%Q end.

Definition Qlt_bool (a b : Q) : bool := negb (Qle_bool b a).

(** [alternative_slots.sort(key=..., reverse=True)]: [y] goes strictly
    before [x] when its key is strictly larger. *)
Definition sort_by_coverage (l : list slot) : list slot :=
  sort_by (fun y x => Qlt_bool (coverage_key x) (coverage_key y)) l.

(** The set [all_dates], as the list of its elements in the order of
    first insertion.  The date labels are the strings of the header row.
    A Python set is iterated in an order of its own; [find_from] below
    takes the order as an argument and [sorted_str_perm] shows that it
    does not matter. *)
Definition all_dates (parsed_schedules : index) : list pystr :=
  fold_left (fun all_dates member_schedule =>
               fold_left set_add (dkeys member_schedule) all_dates)
            (dvalues parsed_schedules) [].

(** The dictionary [members_available] built for one date. *)
Definition available_on (parsed_schedules : index) (date : pystr)
  : dict (list interval) :=
  fold_left
    (fun members_available '(member, schedule) =>
       match dget schedule date with
       | Some (s :: l) => dset members_available member (s :: l)
       | _ => members_available
       end)
    parsed_schedules [].

(** One turn of [for date in sorted(all_dates)] on the two lists built so
    far. *)
Definition date_step (parsed_schedules : index) (duration_hours : duration)
  (acc : list slot * list slot) (date : pystr) : list slot * list slot :=
  let '(perfect_slots, alternative_slots) := acc in
  let members_available := available_on parsed_schedules date in
  let total_members := length parsed_schedules in
  let available_count := length members_available in
  if (available_count =? 0)%nat then acc
  else
    let perfect_slots :=
      if (available_count =? total_members)%nat then
        perfect_slots ++
        map (fun slot => mk_slot date (fst slot) (snd slot)
                           (dkeys members_available) [] None)
            (_find_common_slots members_available duration_hours)
      else perfect_slots in
    let alternative_slots :=
      if (2 <=? available_count)%nat then
        let unavailable_members :=
          filter (fun m => negb (dmem members_available m))
                 (dkeys parsed_schedules) in
        alternative_slots ++
        map (fun slot => mk_slot date (fst slot) (snd slot)
                           (dkeys members_available) unavailable_members
                           (Some (true_div available_count total_members)))
            (_find_common_slots members_available duration_hours)
      else alternative_slots in
    (perfect_slots, alternative_slots).

(** The lists [perfect_slots] and [alternative_slots] once the loop over
    the dates is over. *)
Definition date_loop (parsed_schedules : index) (duration_hours : duration)
  (dates : list pystr) : list slot * list slot :=
  fold_left (date_step parsed_schedules duration_hours) dates ([], []).

(** [find_best_meeting_time] when iterating over the set [all_dates]
    yields its elements in the order [enum]. *)
Definition find_from (enum : list pystr) (parsed_schedules : index)
  (duration_hours : duration) : results :=
  match parsed_schedules with
  | [] => mk_results [] []
  | _ :: _ =>
      let '(perfect_slots, alternative_slots) :=
        date_loop parsed_schedules duration_hours (sorted_str enum) in
      mk_results perfect_slots (firstn 10 (sort_by_coverage alternative_slots))
  end.

Definition find_best_meeting_time (parsed_schedules : index)
  (duration_hours : duration) : results :=
  find_from (all_dates parsed_schedules) parsed_schedules duration_hours.

(** [format_time] *)

(** [str(n)] for a natural number: its decimal digits. *)
Definition digit_char (n : nat) : char := (48 + N.of_nat n)%N.

Fixpoint str_of_nat_fuel (fuel n : nat) : pystr :=
  match fuel with
  | O => []
  | S fuel' =>
      if (n <? 10)%nat then [digit_char n]
      else str_of_nat_fuel fuel' (n / 10) ++ [digit_char (n mod 10)]
  end.

Definition str_of_Z (n : Z) : pystr :=
  if n <? 0 then hyphen :: str_of_nat_fuel (S (Z.to_nat (- n))) (Z.to_nat (- n))
  else str_of_nat_fuel (S (Z.to_nat n)) (Z.to_nat n).

Definition format_time (hour : Z) : pystr :=
  if hour =? 0 then py "12AM"
  else if hour <? 12 then str_of_Z hour ++ py "AM"
  else if hour =? 12 then py "12PM"
  else str_of_Z (hour - 12) ++ py "PM".

(* ================================================================== *)
(** ** The scheduler object and [parse_availability] *)

(** The [DataFrame] as the code reads it: the labels of the date columns
    ([df.columns[1:]]) and, for each row, [str] of the cell of the first
    column and [str] of the cells of the date columns, in column order. *)
Record dataframe := mk_dataframe {
  date_columns : list pystr;
  rows : list (pystr * list pystr)
}.

(** The two fields of a [MeetingScheduler]. *)
Record scheduler := mk_scheduler {
  availability_data : option dataframe;
  parsed_schedules : index
}.

Section Availability.
Context {U : UnicodeDB}.

Definition null_markers : list pystr := [py "nan"; py "none"; py ""].

(** One turn of [for _, row in df.iterrows()]. *)
Definition parse_row (date_columns : list pystr) (schedules : index)
  (row : pystr * list pystr) : index :=
  let member_name := strip (fst row) in
  match member_name with
  | [] => schedules
  | _ :: _ =>
      if existsb (pystr_eqb (str_lower member_name)) null_markers then schedules
      else
        let member_schedule :=
          fold_left
            (fun member_schedule '(date_col, availability_str) =>
               dset member_schedule date_col (parse_time_slot availability_str))
            (combine date_columns (snd row)) [] in
        dset schedules member_name member_schedule
  end.

(** [parse_availability]: the dictionary returned and the object after the
    call. *)
Definition parse_availability (self : scheduler) : index * scheduler :=
  match availability_data self with
  | None => ([], self)
  | Some df =>
      let schedules := fold_left (parse_row (date_columns df)) (rows df) [] in
      (schedules, mk_scheduler (availability_data self) schedules)
  end.

End Availability.

(* ================================================================== *)
(** ** The intersector as the specification words it *)

(** [(max(start1,start2), min(end1,end2))]. *)
Definition overlap (a b : interval) : interval :=
  (Z.max (fst a) (fst b), Z.min (snd a) (snd b)).

Definition positive_length (i : interval) : bool := snd i >? fst i.

(** Every accumulator/participant pair, the overlaps with [end > start]
    kept. *)
Definition pairwise_overlaps (acc member : list interval) : list interval :=
  filter positive_length
         (map (fun ab => overlap (fst ab) (snd ab)) (list_prod acc member)).

(** One step of the fold, empty as soon as the accumulator is. *)
Definition fold_step (acc member : list interval) : list interval :=
  match acc with
  | [] => []
  | _ :: _ => pairwise_overlaps acc member
  end.

Definition final_accumulator (lists : list (list interval)) : list interval :=
  match lists with
  | [] => []
  | first :: rest => fold_left fold_step rest first
  end.

Definition long_enough (d : duration) (i : interval) : bool :=
  int_ge (snd i - fst i) d.

Definition intersect_spec (lists : list (list interval)) (d : duration)
  : list interval :=
  filter (long_enough d) (final_accumulator lists).

(** [i] lies inside [j]. *)
Definition inside (i j : interval) : Prop := fst j <= fst i /\ snd i <= snd j.

(* ================================================================== *)
(** ** The hour normalisation as the specification words it *)

Inductive period := AM | PM.

Definition period_text (p : period) : pystr :=
  match p with AM => py "AM" | PM => py "PM" end.

Definition opt_period_text (p : option period) : pystr :=
  match p with Some p => period_text p | None => [] end.

(** An hour with its own period: [PM] adds 12 unless the value is 12,
    [AM] maps 12 to 0. *)
Definition to_24h (value : Z) (p : period) : Z :=
  match p with
  | PM => if value =? 12 then value else value + 12
  | AM => if value =? 12 then 0 else value
  end.

(** A start hour without a period, inferred from the period of the end. *)
Definition inferred_start (value : Z) (end_period : period) : Z :=
  match end_period with
  | PM => if value <? 12 then value + 12 else value
  | AM => value
  end.

Definition normalised (start_value : Z) (start_period : option period)
  (end_value : Z) (end_period : period) : interval :=
  (match start_period with
   | Some p => to_24h start_value p
   | None => inferred_start start_value end_period
   end,
   to_24h end_value end_period).

(** A text of the shape of the pattern: digits, blanks, an optional
    period, blanks, a dash, blanks, digits, blanks, a period. *)
Definition time_text (ds w1 : pystr) (sp : option period) (w2 : pystr)
  (dash : char) (w3 de w4 : pystr) (ep : period) : pystr :=
  ds ++ w1 ++ opt_period_text sp ++ w2 ++ [dash] ++ w3 ++ de ++ w4
     ++ period_text ep.

(** The groups of a match of such a text, the last captured first. *)
Definition time_groups (ds : pystr) (sp : option period) (de : pystr)
  (ep : period) : groups :=
  (4%nat, period_text ep) :: (3%nat, de)
    :: match sp with
       | Some p => [(2%nat, period_text p); (1%nat, ds)]
       | None => [(1%nat, ds)]
       end.

(* ================================================================== *)
(** ** A reference table

    The tables restricted to ASCII: every other code point is neither a
    blank nor a digit and has no case.  CPython's tables extend these. *)

Definition ref_isspace (c : char) : bool :=
  if (c <? 128)%N then ascii_isspace c else false.

Definition ref_decimal (c : char) : option Z :=
  if (c <? 128)%N then ascii_decimal c else None.

Definition ref_upper (c : char) : pystr :=
  if (c <? 128)%N then [ascii_upper c] else [c].

Definition ref_lower (s : pystr) : pystr :=
  map (fun c => if (c <? 128)%N then ascii_lower c else c) s.

(** The code points on which every table agrees with the reference one. *)
Definition plain (c : char) : Prop := is_ascii c \/ c = en_dash.

(** Two patterns of one shape whose classes agree on the code points
    that satisfy [P]. *)
Inductive regex_agree (P : char -> Prop) : regex -> regex -> Prop :=
| agree_class p q : (forall c, P c -> p c = q c) ->
                    regex_agree P (RClass p) (RClass q)
| agree_lit l : regex_agree P (RLit l) (RLit l)
| agree_seq r1 r2 q1 q2 : regex_agree P r1 q1 -> regex_agree P r2 q2 ->
                          regex_agree P (RSeq r1 r2) (RSeq q1 q2)
| agree_alt r1 r2 q1 q2 : regex_agree P r1 q1 -> regex_agree P r2 q2 ->
                          regex_agree P (RAlt r1 r2) (RAlt q1 q2)
| agree_opt r q : regex_agree P r q -> regex_agree P (ROpt r) (ROpt q)
| agree_star p q : (forall c, P c -> p c = q c) ->
                   regex_agree P (RStar p) (RStar q)
| agree_plus p q : (forall c, P c -> p c = q c) ->
                   regex_agree P (RPlus p) (RPlus q)
| agree_group i r q : regex_agree P r q ->
                      regex_agree P (RGroup i r) (RGroup i q).

Definition plainb (c : char) : bool := ((c <? 128) || (c =? en_dash))%N.

(** [k] occurs in [t]. *)
Definition substring (k t : pystr) : Prop := exists a b, t = a ++ k ++ b.

(** The text of a cell once trimmed and upper-cased. *)
Definition normalise {U : UnicodeDB} (time_str : pystr) : pystr :=
  str_upper (strip time_str).

(** The conditions under which [time_text] is a text of the pattern. *)
Definition time_text_ok {U : UnicodeDB} (ds w1 w2 : pystr) (dash : char)
  (w3 de w4 : pystr) : Prop :=
  forallb is_digit ds = true /\ ds <> [] /\
  forallb is_digit de = true /\ de <> [] /\
  forallb isspace w1 = true /\ forallb isspace w2 = true /\
  forallb isspace w3 = true /\ forallb isspace w4 = true /\
  is_dash dash = true.

(* ================================================================== *)
(** ** Words of the specification about the finder *)

(** One turn of the loop that builds [members_available]. *)
Definition available_step (date : pystr) (members_available : dict (list interval))
  (entry : pystr * schedule) : dict (list interval) :=
  match dget (snd entry) date with
  | Some (s :: l) => dset members_available (fst entry) (s :: l)
  | _ => members_available
  end.

(** The participants with a non-empty list on a date, with that list, in
    the order of the index. *)
Definition available_entries (parsed_schedules : index) (date : pystr)
  : dict (list interval) :=
  flat_map (fun entry => match dget (snd entry) date with
                         | Some (s :: l) => [(fst entry, s :: l)]
                         | _ => []
                         end)
           parsed_schedules.

(** The number of participants available on a date. *)
Definition available_count (parsed_schedules : index) (date : pystr) : nat :=
  length (available_on parsed_schedules date).

(** The candidates that one date adds to the two lists. *)
Definition candidates_of_date (parsed_schedules : index)
  (duration_hours : duration) (date : pystr) : list slot * list slot :=
  date_step parsed_schedules duration_hours ([], []) date.

(** A perfect slot as it stands among the alternatives: the same date,
    interval and members, with coverage 1. *)
Definition with_full_coverage (s : slot) : slot :=
  mk_slot (date s) (start_time s) (end_time s) (members_available s)
          (members_unavailable s) (Some 1%Q).

(** Coverage does not increase from [x] to [y]. *)
Definition descending (x y : slot) : Prop :=
  (coverage_key y <= coverage_key x)%Q.

Definition has_coverage (c : Q) (s : slot) : bool :=
  Qeq_bool (coverage_key s) c.

(* ================================================================== *)
(** ** Sample indices *)

(** One participant, free on Monday morning. *)
Definition example_single : index :=
  [(py "Alice", [(py "Mon", [(9, 12)])])].

(** Two participants, one of them away on Monday. *)
Definition example_pair : index :=
  [(py "Alice", [(py "Mon", [(9, 12)])]);
   (py "Bob", [(py "Mon", [])])].

(** The scenarios of the specification: Monday suits all three, Tuesday
    only Bob and Carol. *)
Definition example_team : index :=
  [(py "Alice", [(py "Mon", [(9, 12)]); (py "Tue", [])]);
   (py "Bob", [(py "Mon", [(10, 14)]); (py "Tue", [(14, 17)])]);
   (py "Carol", [(py "Mon", [(9, 17)]); (py "Tue", [(15, 18)])])].

(** Two participants, both free every morning of eleven dates DA .. DK. *)
Definition example_eleven : index :=
  let mornings : schedule :=
    map (fun c => ([68%N; c], [(9, 12)]))
        [65; 66; 67; 68; 69; 70; 71; 72; 73; 74; 75]%N in
  [(py "Ann", mornings); (py "Ben", mornings)].

(** The same date and interval, with coverage 1. *)
Definition counterpart (s s' : slot) : Prop :=
  date s' = date s /\ start_time s' = start_time s
  /\ end_time s' = end_time s /\ coverage s' = Some 1%Q.

(** The table of the specification for [format_time], hour 0 first. *)
Definition format_time_table : list pystr :=
  map py ["12AM"; "1AM"; "2AM"; "3AM"; "4AM"; "5AM"; "6AM"; "7AM"; "8AM";
          "9AM"; "10AM"; "11AM"; "12PM"; "1PM"; "2PM"; "3PM"; "4PM"; "5PM";
          "6PM"; "7PM"; "8PM"; "9PM"; "10PM"; "11PM"]%string.

(** The table of the scenarios of the specification, with a row that the
    ingestion left without a name. *)
Definition example_table : dataframe :=
  mk_dataframe [py "Mon"; py "Tue"]
    [(py "Alice", [py "9AM-12PM"; py "NA"]);
     (py "Bob", [py "10AM-2PM"; py "2-5PM"]);
     (py "nan", [py "nan"; py "nan"]);
     (py "Carol", [py "9AM-5PM"; py "3-6PM"])].

(* ================================================================== *)
(** ** Words for the further properties *)

(** One interval taken from each list, in the order of the lists. *)
Definition chosen (choice : list interval) (lists : list (list interval)) : Prop :=
  Forall2 (fun iv member => In iv member) choice lists.

(** [i] is what the intervals of [choice] have in common: it starts at
    the latest of their starts and ends at the earliest of their ends. *)
Definition common_part (i : interval) (choice : list interval) : Prop :=
  (exists iv, In iv choice /\ fst iv = fst i)
  /\ (forall iv, In iv choice -> fst iv <= fst i)
  /\ (exists iv, In iv choice /\ snd iv = snd i)
  /\ (forall iv, In iv choice -> snd i <= snd iv).

(** The participant of [entry] has at least one interval on [date]. *)
Definition has_slots (date : pystr) (entry : pystr * schedule) : bool :=
  match dget (snd entry) date with Some (_ :: _) => true | _ => false end.

(** The interval of a slot. *)
Definition slot_interval (s : slot) : interval := (start_time s, end_time s).

(** The name under which a row is stored. *)
Definition row_name {U : UnicodeDB} (row : pystr * list pystr) : pystr :=
  strip (fst row).

(** The row passes the test on its name. *)
Definition keeps_row {U : UnicodeDB} (row : pystr * list pystr) : bool :=
  match strip (fst row) with
  | [] => false
  | _ :: _ => negb (existsb (pystr_eqb (str_lower (strip (fst row)))) null_markers)
  end.

(** The dictionary [member_schedule] built for a row. *)
Definition row_schedule {U : UnicodeDB} (date_columns : list pystr)
  (row : pystr * list pystr) : schedule :=
  fold_left
    (fun member_schedule '(date_col, availability_str) =>
       dset member_schedule date_col (parse_time_slot availability_str))
    (combine date_columns (snd row)) [].

(** The last code point of a string. *)
Definition last_char (s : pystr) : option char := hd_error (rev s).

(** The text with which the front ends show the slots of a participant on
    a date: [', '.join(slot_strs)], each slot as
    [f"{format_time(s[0])}-{format_time(s[1])}"]. *)
Definition slot_str (s : interval) : pystr :=
  format_time (fst s) ++ py "-" ++ format_time (snd s).

Fixpoint join (sep : pystr) (l : list pystr) : pystr :=
  match l with
  | [] => []
  | x :: l' => match l' with
               | [] => x
               | _ :: _ => x ++ sep ++ join sep l'
               end
  end.

Definition shown_slots (slots : list interval) : pystr :=
  join (py ", ") (map slot_str slots).

(** Both hours of the interval are hours of the day. *)
Definition in_day (s : interval) : Prop :=
  0 <= fst s < 24 /\ 0 <= snd s < 24.

Definition hours_of_day : list Z := map Z.of_nat (seq 0 24).

(** The code points of a shown slot: upper-case ASCII that is no blank, no
    separator and none of N, L, O. *)
Definition shown_char (c : char) : bool :=
  ((c <? 128) && negb (ascii_isspace c) && (ascii_upper c =? c)
   && negb (comma_or_semicolon c)
   && negb ((c =? 78) || (c =? 76) || (c =? 79)))%N.

(** What is checked of the shown form of one slot: it parses back to the
    slot, also after a blank, and is made of [shown_char]s. *)
Definition shown_slot_ok {U : UnicodeDB} (a b : Z) : bool :=
  match parse_part [] (slot_str (a, b)),
        parse_part [] (32%N :: slot_str (a, b)) with
  | [(x, y)], [(x', y')] =>
      (x =? a) && (y =? b) && (x' =? a) && (y' =? b)
      && forallb shown_char (slot_str (a, b))
      && negb (Nat.eqb (length (slot_str (a, b))) 0)
  | _, _ => false
  end.

(** Two intervals that share no time: one ends before the other starts. *)
Definition disjoint (i j : interval) : Prop :=
  snd i <= fst j \/ snd j <= fst i.

(** No two entries of the list share time. *)
Definition non_overlapping (l : list interval) : Prop :=
  ForallOrdPairs disjoint l.

(** Both slots carry a coverage, and that of [y] is at most that of
    [x]. *)
Definition coverage_descends (x y : slot) : Prop :=
  exists qx qy,
    coverage x = Some qx /\ coverage y = Some qy /\ (qy <= qx)%Q.

(** The slot carries the coverage [c]. *)
Definition coverage_is (c : Q) (s : slot) : bool :=
  match coverage s with
  | Some q => Qeq_bool q c
  | None => false
  end.

(** Two participants over two days; on Monday only Alice is free. *)
Definition example_two_days : index :=
  [(py "Alice", [(py "Mon", [(9, 12)]); (py "Tue", [(9, 12)])]);
   (py "Bob", [(py "Mon", []); (py "Tue", [(10, 13)])])].

(* ================================================================== *)
(** * Properties *)

(** ** Loops that append *)

Lemma fold_left_append_if {A B} (f : B -> bool) (g : B -> A) (l : list B) (acc : list A) :
  fold_left (fun acc x => if f x then acc ++ [g x] else acc) l acc
  = acc ++ map g (filter f l).
Proof.
  revert acc; induction l as [|x l IH]; intros acc; simpl.
  - now rewrite app_nil_r.
  - rewrite IH. destruct (f x); simpl; [now rewrite <- app_assoc|reflexivity].
Qed.

Lemma fold_left_append_each {A B} (h : B -> list A) (l : list B) (acc : list A) :
  fold_left (fun acc x => acc ++ h x) l acc = acc ++ flat_map h l.
Proof.
  revert acc; induction l as [|x l IH]; intros acc; simpl.
  - now rewrite app_nil_r.
  - rewrite IH. now rewrite <- app_assoc.
Qed.

Lemma fold_left_pointwise {A B} (f g : A -> B -> A) (l : list B) (acc : A) :
  (forall a b, f a b = g a b) -> fold_left f l acc = fold_left g l acc.
Proof.
  intros Hfg. revert acc; induction l as [|x l IH]; intros acc; simpl;
    [reflexivity|]. now rewrite Hfg, IH.
Qed.

(** ** The intersector *)

Lemma overlap_loop_pairwise current member :
  overlap_loop current member = pairwise_overlaps current member.
Proof.
  unfold overlap_loop, pairwise_overlaps.
  assert (Hin : forall slot1 new,
    fold_left
      (fun new_intersection slot2 =>
         let overlap_start := Z.max (fst slot1) (fst slot2) in
         let overlap_end := Z.min (snd slot1) (snd slot2) in
         if overlap_end >? overlap_start
         then new_intersection ++ [(overlap_start, overlap_end)]
         else new_intersection) member new
    = new ++ filter positive_length (map (overlap slot1) member)).
  { intros slot1 new. revert new.
    induction member as [|b l IH]; intros new; simpl.
    - now rewrite app_nil_r.
    - rewrite IH. unfold positive_length, overlap at 2. simpl.
      destruct (Z.min (snd slot1) (snd b) >? Z.max (fst slot1) (fst b));
        simpl; [now rewrite <- app_assoc|reflexivity]. }
  rewrite (fold_left_pointwise _ (fun new slot1 =>
             new ++ filter positive_length (map (overlap slot1) member)))
    by (intros new slot1; apply Hin).
  rewrite fold_left_append_each. simpl.
  clear Hin. induction current as [|a l IH]; simpl; [reflexivity|].
  rewrite map_app, filter_app, map_map. simpl. now rewrite IH.
Qed.

Lemma fold_step_nil rest : fold_left fold_step rest [] = [].
Proof. induction rest; simpl; auto. Qed.

Lemma intersect_loop_fold rest : forall first,
  intersect_loop first rest = fold_left fold_step rest first.
Proof.
  induction rest as [|member rest IH]; intros first; simpl; [reflexivity|].
  rewrite overlap_loop_pairwise.
  destruct first as [|a first].
  - simpl. now rewrite fold_step_nil.
  - simpl fold_step.
    destruct (pairwise_overlaps (a :: first) member) eqn:E.
    + now rewrite fold_step_nil.
    + apply IH.
Qed.

Lemma duration_loop_filter current d :
  duration_loop current d = filter (long_enough d) current.
Proof.
  unfold duration_loop.
  transitivity (fold_left (fun acc x => if long_enough d x then acc ++ [x] else acc)
                          current []).
  - apply fold_left_pointwise. reflexivity.
  - rewrite (fold_left_append_if (long_enough d) (fun i => i) current []).
    now rewrite map_id.
Qed.

Lemma intersect_all_slots_eq lists d :
  _intersect_all_slots lists d = intersect_spec lists d.
Proof.
  destruct lists as [|first rest]; [reflexivity|].
  unfold _intersect_all_slots, intersect_spec, final_accumulator.
  now rewrite duration_loop_filter, intersect_loop_fold.
Qed.

Lemma inside_refl i : inside i i.
Proof. unfold inside; lia. Qed.

Lemma inside_trans i j k : inside i j -> inside j k -> inside i k.
Proof. unfold inside; lia. Qed.

Lemma in_pairwise_overlaps o acc member :
  In o (pairwise_overlaps acc member) ->
  fst o < snd o /\
  exists a b, In a acc /\ In b member /\ o = overlap a b.
Proof.
  unfold pairwise_overlaps. rewrite filter_In, in_map_iff.
  intros [[[a b] [Ho Hin]] Hpos]. apply in_prod_iff in Hin.
  split.
  - unfold positive_length in Hpos. apply Z.gtb_lt in Hpos. lia.
  - exists a, b. simpl in Ho. intuition.
Qed.

Lemma overlap_inside a b : inside (overlap a b) a /\ inside (overlap a b) b.
Proof. unfold inside, overlap; simpl; lia. Qed.

Lemma in_fold_step o acc member :
  In o (fold_step acc member) ->
  fst o < snd o /\
  (exists a, In a acc /\ inside o a) /\ (exists b, In b member /\ inside o b).
Proof.
  intros H.
  assert (H' : In o (pairwise_overlaps acc member)).
  { destruct acc; [contradiction|exact H]. }
  apply in_pairwise_overlaps in H'. destruct H' as [Hpos (a & b & Ha & Hb & ->)].
  destruct (overlap_inside a b). split; [exact Hpos|]. split; eauto.
Qed.

Lemma fold_inside rest : forall acc i,
  In i (fold_left fold_step rest acc) ->
  (exists a, In a acc /\ inside i a) /\
  Forall (fun member => exists j, In j member /\ inside i j) rest.
Proof.
  induction rest as [|member rest IH]; intros acc i Hi; simpl in Hi.
  - split; [exists i; split; [exact Hi|apply inside_refl]|constructor].
  - apply IH in Hi. destruct Hi as [(o & Ho & Hio) Hrest].
    apply in_fold_step in Ho. destruct Ho as (_ & (a & Ha & Hoa) & (b & Hb & Hob)).
    split.
    + exists a. split; [exact Ha|eapply inside_trans; eauto].
    + constructor; [|exact Hrest].
      exists b. split; [exact Hb|eapply inside_trans; eauto].
Qed.

Lemma int_ge_of_le_0 n d : duration_le_0 d = true -> 0 < n -> int_ge n d = true.
Proof.
  destruct d as [q| | |]; simpl; try discriminate; auto.
  intros Hq Hn. apply Qle_bool_iff in Hq. apply Qle_bool_iff.
  eapply Qle_trans; [exact Hq|].
  unfold Qle; simpl. lia.
Qed.

(** C1.  [_intersect_all_slots] (and [_find_common_slots], which wraps it
    in [main.py] and inlines it in [main(webapp).py]) returns exactly the fold of the pairwise positive-length
    overlaps over the participants, short-circuited on an empty
    accumulator, filtered to the intervals of length [>= min_duration], in
    the order produced.  Hence every returned interval lies inside some
    interval of every participant's list, and for [min_duration <= 0]
    every positive-length interval of the final accumulator is returned. *)
Theorem intersect_all_slots_is_filtered_fold :
  forall (lists : list (list interval)) (min_duration : duration),
    _intersect_all_slots lists min_duration = intersect_spec lists min_duration
    /\ (forall members_available : dict (list interval),
          _find_common_slots members_available min_duration
          = intersect_spec (dvalues members_available) min_duration
          /\ _find_common_slots_webapp members_available min_duration
             = intersect_spec (dvalues members_available) min_duration)
    /\ (forall i, In i (_intersect_all_slots lists min_duration) ->
          Forall (fun member => exists j, In j member /\ inside i j) lists)
    /\ (duration_le_0 min_duration = true ->
        forall i, In i (final_accumulator lists) -> fst i < snd i ->
                  In i (_intersect_all_slots lists min_duration)).
Proof.
  intros lists d. split; [apply intersect_all_slots_eq|]. split; [|split].
  - intros [|kv ma]; [split; reflexivity|].
    split; [unfold _find_common_slots; apply intersect_all_slots_eq|].
    apply (intersect_all_slots_eq (dvalues (kv :: ma)) d).
  - intros i Hi. rewrite intersect_all_slots_eq in Hi.
    unfold intersect_spec in Hi. apply filter_In in Hi. destruct Hi as [Hi _].
    destruct lists as [|first rest]; [contradiction|].
    simpl in Hi. apply fold_inside in Hi. destruct Hi as [(a & Ha & Hia) Hrest].
    constructor; [exists a; auto|exact Hrest].
  - intros Hd i Hi Hpos. rewrite intersect_all_slots_eq.
    unfold intersect_spec. apply filter_In. split; [exact Hi|].
    unfold long_enough. apply int_ge_of_le_0; [exact Hd|lia].
Qed.

(** ** Strings *)

Lemma pystr_eqb_eq a : forall b, pystr_eqb a b = true <-> a = b.
Proof.
  induction a as [|x a IH]; intros [|y b]; simpl; split; intros H;
    try reflexivity; try discriminate.
  - apply andb_prop in H. destruct H as [Hx Ha].
    apply N.eqb_eq in Hx. apply IH in Ha. now subst.
  - injection H as -> ->. rewrite N.eqb_refl. now apply IH.
Qed.

Lemma pystr_eqb_refl a : pystr_eqb a a = true.
Proof. now apply pystr_eqb_eq. Qed.

Lemma drop_prefix_Some l : forall s s',
  drop_prefix l s = Some s' <-> s = l ++ s'.
Proof.
  induction l as [|a l IH]; intros s s'; simpl.
  - split; [now intros [= ->]|now intros ->].
  - destruct s as [|b s]; [split; discriminate|].
    destruct (N.eqb_spec a b) as [->|Hab].
    + rewrite IH. split; [now intros ->|now intros [= ->]].
    + split; [discriminate|intros [= -> _]; now elim Hab].
Qed.

Lemma drop_prefix_app l s : drop_prefix l (l ++ s) = Some s.
Proof. now apply drop_prefix_Some. Qed.

Lemma firstn_consumed (w s' : pystr) :
  firstn (length (w ++ s') - length s') (w ++ s') = w.
Proof.
  rewrite length_app.
  replace (length w + length s' - length s')%nat with (length w) by lia.
  induction w as [|c w IH]; simpl; [now destruct s'|now rewrite IH].
Qed.

(** ** The matcher: every way a match can go *)

Lemma in_star p s : forall s' g g',
  In (s', g') (star p s g) ->
  g' = g /\ exists w, s = w ++ s' /\ forallb p w = true.
Proof.
  induction s as [|c s IH]; intros s' g g' H; simpl in H.
  - destruct H as [[= <- <-]|[]]. split; [reflexivity|now exists []].
  - destruct (p c) eqn:Hc.
    + apply in_app_or in H. destruct H as [H|[[= <- <-]|[]]].
      * apply IH in H. destruct H as [-> (w & -> & Hw)].
        split; [reflexivity|]. exists (c :: w). simpl. now rewrite Hc.
      * split; [reflexivity|now exists []].
    + destruct H as [[= <- <-]|[]]. split; [reflexivity|now exists []].
Qed.

Lemma in_plus p s s' g g' :
  In (s', g') (run (RPlus p) s g) ->
  g' = g /\ exists w, s = w ++ s' /\ forallb p w = true /\ w <> [].
Proof.
  simpl. destruct s as [|c s]; [contradiction|].
  destruct (p c) eqn:Hc; [|contradiction].
  intros H. apply in_star in H. destruct H as [-> (w & -> & Hw)].
  split; [reflexivity|]. exists (c :: w). simpl. rewrite Hc.
  repeat split; [exact Hw|discriminate].
Qed.

Lemma run_alt r1 r2 s g : run (RAlt r1 r2) s g = run r1 s g ++ run r2 s g.
Proof. reflexivity. Qed.

Lemma run_opt r s g : run (ROpt r) s g = run r s g ++ [(s, g)].
Proof. reflexivity. Qed.

Lemma run_seq r1 r2 s g :
  run (RSeq r1 r2) s g = flat_map (fun '(s', g') => run r2 s' g') (run r1 s g).
Proof. reflexivity. Qed.

Lemma run_group i r s g :
  run (RGroup i r) s g
  = map (fun '(s', g') => (s', (i, firstn (length s - length s')%nat s) :: g'))
        (run r s g).
Proof. reflexivity. Qed.

Lemma run_lit_app l s g : run (RLit l) (l ++ s) g = [(s, g)].
Proof. simpl. now rewrite drop_prefix_app. Qed.

Lemma in_seq r1 r2 s g x :
  In x (run (RSeq r1 r2) s g) ->
  exists s1 g1, In (s1, g1) (run r1 s g) /\ In x (run r2 s1 g1).
Proof.
  simpl. rewrite in_flat_map. intros [[s1 g1] [H1 H2]]. eauto.
Qed.

Lemma in_group i r s g s' g' :
  In (s', g') (run (RGroup i r) s g) ->
  exists g1, In (s', g1) (run r s g)
             /\ g' = (i, firstn (length s - length s') s) :: g1.
Proof.
  simpl. rewrite in_map_iff. intros [[s1 g1] [[= -> <-] H]]. eauto.
Qed.

Lemma in_lit l s g s' g' :
  In (s', g') (run (RLit l) s g) -> g' = g /\ s = l ++ s'.
Proof.
  simpl. destruct (drop_prefix l s) as [s1|] eqn:E; [|contradiction].
  intros [[= <- <-]|[]]. apply drop_prefix_Some in E. auto.
Qed.

Lemma in_class p s g s' g' :
  In (s', g') (run (RClass p) s g) ->
  g' = g /\ exists c, s = c :: s' /\ p c = true.
Proof.
  simpl. destruct s as [|c s]; [contradiction|].
  destruct (p c) eqn:Hc; [|contradiction].
  intros [[= <- <-]|[]]. eauto.
Qed.

Section ParserFacts.
Context {U : UnicodeDB}.

Lemma in_am_or_pm s g s' g' :
  In (s', g') (run am_or_pm s g) ->
  g' = g /\ exists p, s = period_text p ++ s'.
Proof.
  unfold am_or_pm. rewrite run_alt. intros H. apply in_app_or in H.
  destruct H as [H|H]; apply in_lit in H; destruct H as [-> ->];
    split; try reflexivity; [now exists AM|now exists PM].
Qed.

Lemma in_period_group i s g s' g' :
  In (s', g') (run (RGroup i am_or_pm) s g) ->
  exists p, s = period_text p ++ s' /\ g' = (i, period_text p) :: g.
Proof.
  intros H. apply in_group in H. destruct H as (g1 & H & ->).
  apply in_am_or_pm in H. destruct H as [-> [p ->]].
  exists p. split; [reflexivity|]. now rewrite firstn_consumed.
Qed.

Lemma in_digits_group i s g s' g' :
  In (s', g') (run (RGroup i (RPlus is_digit)) s g) ->
  exists ds, s = ds ++ s' /\ forallb is_digit ds = true /\ ds <> []
             /\ g' = (i, ds) :: g.
Proof.
  intros H. apply in_group in H. destruct H as (g1 & H & ->).
  apply in_plus in H. destruct H as [-> (w & -> & Hw & Hne)].
  exists w. rewrite firstn_consumed. auto.
Qed.

(** Every way the time-range pattern matches a prefix of [s] reads a text
    of the shape of the pattern and captures its two numbers and its
    periods. *)
Lemma time_range_ways s s' m :
  In (s', m) (run time_range s []) ->
  exists ds w1 sp w2 dash w3 de w4 ep,
    s = time_text ds w1 sp w2 dash w3 de w4 ep ++ s'
    /\ m = time_groups ds sp de ep
    /\ forallb is_digit ds = true /\ ds <> []
    /\ forallb is_digit de = true /\ de <> []
    /\ forallb isspace w1 = true /\ forallb isspace w2 = true
    /\ forallb isspace w3 = true /\ forallb isspace w4 = true
    /\ is_dash dash = true.
Proof.
  unfold time_range. intros H.
  apply in_seq in H. destruct H as (s1 & g1 & H1 & H).
  apply in_digits_group in H1. destruct H1 as (ds & -> & Hds & Hdne & ->).
  apply in_seq in H. destruct H as (s2 & g2 & H2 & H).
  apply (in_star isspace) in H2. destruct H2 as [-> (w1 & -> & Hw1)].
  apply in_seq in H. destruct H as (s3 & g3 & H3 & H).
  apply in_seq in H. destruct H as (s4 & g4 & H4 & H).
  apply (in_star isspace) in H4. destruct H4 as [-> (w2 & -> & Hw2)].
  apply in_seq in H. destruct H as (s5 & g5 & H5 & H).
  apply in_class in H5. destruct H5 as [-> (dash & -> & Hdash)].
  apply in_seq in H. destruct H as (s6 & g6 & H6 & H).
  apply (in_star isspace) in H6. destruct H6 as [-> (w3 & -> & Hw3)].
  apply in_seq in H. destruct H as (s7 & g7 & H7 & H).
  apply in_digits_group in H7. destruct H7 as (de & -> & Hde & Hdene & ->).
  apply in_seq in H. destruct H as (s8 & g8 & H8 & H).
  apply (in_star isspace) in H8. destruct H8 as [-> (w4 & -> & Hw4)].
  apply in_period_group in H. destruct H as (ep & -> & ->).
  rewrite run_opt in H3. apply in_app_or in H3.
  destruct H3 as [H3|[[= -> <-]|[]]].
  - apply in_period_group in H3. destruct H3 as (p & -> & ->).
    exists ds, w1, (Some p), w2, dash, w3, de, w4, ep.
    unfold time_text, time_groups. simpl opt_period_text.
    repeat rewrite <- app_assoc. simpl. repeat split; auto.
  - exists ds, w1, None, w2, dash, w3, de, w4, ep.
    unfold time_text, time_groups. simpl opt_period_text.
    repeat rewrite <- app_assoc. simpl. repeat split; auto.
Qed.

End ParserFacts.

(** ** The matcher: the way the engine takes first *)

Lemma hd_error_app_l {A} (l1 l2 : list A) x :
  hd_error l1 = Some x -> hd_error (l1 ++ l2) = Some x.
Proof. destruct l1; simpl; [discriminate|auto]. Qed.

Lemma hd_error_flat_map {A B} (f : A -> list B) l a x :
  hd_error l = Some a -> hd_error (f a) = Some x ->
  hd_error (flat_map f l) = Some x.
Proof.
  destruct l as [|a' l]; simpl; [discriminate|]. intros [= ->] H.
  now apply hd_error_app_l.
Qed.

Lemma first_seq r1 r2 s g s1 g1 x :
  hd_error (run r1 s g) = Some (s1, g1) ->
  hd_error (run r2 s1 g1) = Some x ->
  hd_error (run (RSeq r1 r2) s g) = Some x.
Proof.
  intros H1 H2. rewrite run_seq.
  eapply hd_error_flat_map; [exact H1|exact H2].
Qed.

Lemma first_star p w s g :
  forallb p w = true -> stops p s ->
  hd_error (run (RStar p) (w ++ s) g) = Some (s, g).
Proof.
  intros Hw Hs. simpl run. induction w as [|c w IH]; simpl.
  - destruct s as [|c s]; [reflexivity|]. simpl in Hs. simpl. now rewrite Hs.
  - simpl in Hw. apply andb_prop in Hw. destruct Hw as [Hc Hw].
    rewrite Hc. apply hd_error_app_l. now apply IH.
Qed.

Lemma first_plus p w s g :
  forallb p w = true -> w <> [] -> stops p s ->
  hd_error (run (RPlus p) (w ++ s) g) = Some (s, g).
Proof.
  intros Hw Hne Hs. destruct w as [|c w]; [now elim Hne|].
  simpl in Hw. apply andb_prop in Hw. destruct Hw as [Hc Hw].
  simpl. rewrite Hc. now apply (first_star p w s g).
Qed.

Lemma first_group i r w s g g1 :
  hd_error (run r (w ++ s) g) = Some (s, g1) ->
  hd_error (run (RGroup i r) (w ++ s) g) = Some (s, (i, w) :: g1).
Proof.
  intros H. rewrite run_group.
  destruct (run r (w ++ s) g) as [|[s1 g2] t]; [discriminate|].
  simpl in H. injection H as -> ->. simpl hd_error.
  now rewrite firstn_consumed.
Qed.

Lemma stops_app p w s :
  (forall c, In c w -> p c = false) -> stops p s -> stops p (w ++ s).
Proof. destruct w as [|c w]; simpl; auto. Qed.

Section Greedy.
Context {U : UnicodeDB}.

Lemma ascii_not_space c :
  is_ascii c -> ascii_isspace c = false -> isspace c = false.
Proof. intros Ha H. now rewrite isspace_ascii. Qed.

Lemma ascii_not_digit c :
  is_ascii c -> ascii_decimal c = None -> is_digit c = false.
Proof. intros Ha H. unfold is_digit. now rewrite decimal_ascii, H. Qed.

Lemma digit_not_space c : is_digit c = true -> isspace c = false.
Proof.
  unfold is_digit. destruct (decimal c) as [d|] eqn:E; [|discriminate].
  intros _. exact (decimal_not_space c d E).
Qed.

Lemma space_not_digit c : isspace c = true -> is_digit c = false.
Proof.
  intros Hs. destruct (is_digit c) eqn:E; [|reflexivity].
  apply digit_not_space in E. congruence.
Qed.

Lemma dash_cases c : is_dash c = true -> c = hyphen \/ c = en_dash.
Proof.
  unfold is_dash. intros H. apply orb_prop in H.
  destruct H as [H|H]; apply N.eqb_eq in H; auto.
Qed.

Lemma dash_not_space c : is_dash c = true -> isspace c = false.
Proof.
  intros H. apply dash_cases in H. destruct H as [->| ->].
  - apply ascii_not_space; [reflexivity|reflexivity].
  - apply en_dash_not_space.
Qed.

Lemma dash_not_digit c : is_dash c = true -> is_digit c = false.
Proof.
  intros H. apply dash_cases in H. destruct H as [->| ->].
  - apply ascii_not_digit; reflexivity.
  - unfold is_digit. now rewrite en_dash_not_decimal.
Qed.

Lemma stops_space_period p s : stops isspace (period_text p ++ s).
Proof. destruct p; simpl; apply ascii_not_space; reflexivity. Qed.

Lemma stops_digit_period p s : stops is_digit (period_text p ++ s).
Proof. destruct p; simpl; apply ascii_not_digit; reflexivity. Qed.

Lemma stops_digit_blanks w s :
  forallb isspace w = true -> stops is_digit s -> stops is_digit (w ++ s).
Proof.
  intros Hw. apply stops_app. intros c Hc.
  apply space_not_digit. rewrite forallb_forall in Hw. auto.
Qed.

Lemma stops_space_digits ds s :
  forallb is_digit ds = true -> ds <> [] -> stops isspace (ds ++ s).
Proof.
  destruct ds as [|c ds]; [now intros _ H; elim H|].
  simpl. intros H _. apply andb_prop in H. now apply digit_not_space.
Qed.

Lemma first_period p s g :
  hd_error (run am_or_pm (period_text p ++ s) g) = Some (s, g).
Proof.
  unfold am_or_pm. rewrite run_alt. destruct p.
  - apply hd_error_app_l. change (period_text AM) with (py "AM").
    now rewrite run_lit_app.
  - replace (run (RLit (py "AM")) (period_text PM ++ s) g) with
      (@nil (pystr * groups)) by reflexivity.
    rewrite app_nil_l. change (period_text PM) with (py "PM").
    now rewrite run_lit_app.
Qed.

Lemma no_period_at_dash i c s g :
  is_dash c = true -> run (RGroup i am_or_pm) (c :: s) g = [].
Proof.
  intros H. apply dash_cases in H. destruct H as [->| ->]; reflexivity.
Qed.

Lemma first_digits i ds s g :
  forallb is_digit ds = true -> ds <> [] -> stops is_digit s ->
  hd_error (run (RGroup i (RPlus is_digit)) (ds ++ s) g)
  = Some (s, (i, ds) :: g).
Proof. intros. apply first_group. now apply first_plus. Qed.

(** The tail of the pattern from the dash on. *)
Lemma first_from_dash dash w3 de w4 ep s' g :
  is_dash dash = true ->
  forallb isspace w3 = true -> forallb isspace w4 = true ->
  forallb is_digit de = true -> de <> [] ->
  hd_error
    (run (RSeq (RClass is_dash)
         (RSeq (RStar isspace)
         (RSeq (RGroup 3 (RPlus is_digit))
         (RSeq (RStar isspace) (RGroup 4 am_or_pm)))))
         (dash :: w3 ++ de ++ w4 ++ period_text ep ++ s') g)
  = Some (s', (4%nat, period_text ep) :: (3%nat, de) :: g).
Proof.
  intros Hdash Hw3 Hw4 Hde Hne.
  eapply first_seq; [simpl; rewrite Hdash; reflexivity|].
  eapply first_seq;
    [apply first_star; [exact Hw3|now apply stops_space_digits]|].
  eapply first_seq.
  { apply first_digits; [exact Hde|exact Hne|].
    apply stops_digit_blanks; [exact Hw4|apply stops_digit_period]. }
  eapply first_seq; [apply first_star; [exact Hw4|apply stops_space_period]|].
  apply first_group. apply first_period.
Qed.

(** On a text of the shape of the pattern the engine's first way reads
    the whole text and captures its numbers and periods. *)
Lemma time_range_first ds w1 sp w2 dash w3 de w4 ep s' :
  forallb is_digit ds = true -> ds <> [] ->
  forallb is_digit de = true -> de <> [] ->
  forallb isspace w1 = true -> forallb isspace w2 = true ->
  forallb isspace w3 = true -> forallb isspace w4 = true ->
  is_dash dash = true ->
  hd_error (run time_range (time_text ds w1 sp w2 dash w3 de w4 ep ++ s') [])
  = Some (s', time_groups ds sp de ep).
Proof.
  intros Hds Hdne Hde Hdene Hw1 Hw2 Hw3 Hw4 Hdash.
  unfold time_range, time_text, time_groups.
  repeat rewrite <- app_assoc. simpl ([dash] ++ _).
  destruct sp as [p|]; simpl opt_period_text.
  - eapply first_seq.
    { apply first_digits; [exact Hds|exact Hdne|].
      apply stops_digit_blanks; [exact Hw1|].
      apply stops_digit_period. }
    eapply first_seq.
    { apply first_star; [exact Hw1|]. apply stops_space_period. }
    eapply first_seq.
    { rewrite run_opt. apply hd_error_app_l.
      apply first_group. apply first_period. }
    eapply first_seq.
    { apply first_star; [exact Hw2|]. simpl. now apply dash_not_space. }
    now apply first_from_dash.
  - simpl app at 1.
    assert (Hw : forallb isspace (w1 ++ w2) = true).
    { rewrite forallb_app, Hw1, Hw2. reflexivity. }
    eapply first_seq.
    { apply first_digits; [exact Hds|exact Hdne|].
      rewrite app_assoc. apply stops_digit_blanks; [exact Hw|].
      simpl. now apply dash_not_digit. }
    eapply first_seq.
    { rewrite app_assoc. apply first_star; [exact Hw|].
      simpl. now apply dash_not_space. }
    eapply first_seq.
    { rewrite run_opt. rewrite no_period_at_dash by exact Hdash.
      reflexivity. }
    eapply first_seq.
    { apply (first_star isspace []); [reflexivity|].
      simpl. now apply dash_not_space. }
    now apply first_from_dash.
Qed.

End Greedy.

(** ** The reference table is a table *)

Lemma ascii_decimal_range c d : ascii_decimal c = Some d -> 0 <= d <= 9.
Proof.
  unfold ascii_decimal.
  destruct ((48 <=? c)%N && (c <=? 57)%N) eqn:E; [|discriminate].
  intros [= <-]. apply andb_prop in E. destruct E as [E1 E2].
  apply N.leb_le in E1, E2. lia.
Qed.

Lemma ascii_decimal_not_space c d :
  ascii_decimal c = Some d -> ascii_isspace c = false.
Proof.
  unfold ascii_decimal, ascii_isspace.
  destruct ((48 <=? c)%N && (c <=? 57)%N) eqn:E; [|discriminate].
  intros _. apply andb_prop in E. destruct E as [E1 E2].
  apply N.leb_le in E1, E2.
  apply orb_false_iff; split; apply andb_false_iff; right; apply N.leb_gt; lia.
Qed.

Lemma ref_isspace_ascii c : is_ascii c -> ref_isspace c = ascii_isspace c.
Proof. unfold is_ascii, ref_isspace. intros H. apply N.ltb_lt in H. now rewrite H. Qed.

Lemma ref_decimal_ascii c : is_ascii c -> ref_decimal c = ascii_decimal c.
Proof. unfold is_ascii, ref_decimal. intros H. apply N.ltb_lt in H. now rewrite H. Qed.

Lemma ref_upper_ascii c : is_ascii c -> ref_upper c = [ascii_upper c].
Proof. unfold is_ascii, ref_upper. intros H. apply N.ltb_lt in H. now rewrite H. Qed.

Lemma ref_lower_ascii s : Forall is_ascii s -> ref_lower s = map ascii_lower s.
Proof.
  intros H. unfold ref_lower. apply map_ext_Forall.
  eapply Forall_impl; [|exact H]. intros c Hc. apply N.ltb_lt in Hc.
  now rewrite Hc.
Qed.

Lemma ref_decimal_range c d : ref_decimal c = Some d -> 0 <= d <= 9.
Proof.
  unfold ref_decimal. destruct (c <? 128)%N; [|discriminate].
  apply ascii_decimal_range.
Qed.

Lemma ref_decimal_not_space c d : ref_decimal c = Some d -> ref_isspace c = false.
Proof.
  unfold ref_decimal, ref_isspace. destruct (c <? 128)%N; [|reflexivity].
  apply ascii_decimal_not_space.
Qed.

#[export] Instance ascii_db : UnicodeDB :=
  Build_UnicodeDB ref_isspace ref_decimal ref_upper ref_lower
    ref_isspace_ascii ref_decimal_ascii ref_upper_ascii ref_lower_ascii
    ref_decimal_range ref_decimal_not_space eq_refl eq_refl eq_refl.

(** ** [re.search] finds the leftmost match *)

Lemma re_search_Some r s : forall m,
  re_search r s = Some m ->
  exists i s', (i <= length s)%nat
    /\ hd_error (run r (skipn i s) []) = Some (s', m)
    /\ forall j, (j < i)%nat -> run r (skipn j s) [] = [].
Proof.
  induction s as [|c s IH]; intros m H; simpl in H.
  - destruct (run r [] []) as [|[s1 g1] t] eqn:E; [discriminate|].
    injection H as ->. exists 0%nat, s1. simpl. rewrite E.
    repeat split; [lia|]. intros j Hj; lia.
  - destruct (run r (c :: s) []) as [|[s1 g1] t] eqn:E.
    + apply IH in H. destruct H as (i & s' & Hi & Hhd & Hno).
      exists (S i), s'. simpl. repeat split; [lia|exact Hhd|].
      intros [|j] Hj; [exact E|]. simpl. apply Hno. lia.
    + injection H as ->. exists 0%nat, s1. simpl. rewrite E.
      repeat split; [lia|]. intros j Hj; lia.
Qed.

Lemma re_search_None r s :
  re_search r s = None ->
  forall i, (i <= length s)%nat -> run r (skipn i s) [] = [].
Proof.
  induction s as [|c s IH]; intros H i Hi; simpl in H.
  - destruct (run r [] []) as [|[s1 g1] t] eqn:E; [|discriminate].
    now destruct i.
  - destruct (run r (c :: s) []) as [|[s1 g1] t] eqn:E; [|discriminate].
    destruct i as [|i]; [exact E|]. simpl. apply IH; [exact H|]. simpl in Hi. lia.
Qed.

Lemma re_search_at r pre : forall s s' m,
  (forall j, (j < length pre)%nat -> run r (skipn j (pre ++ s)) [] = []) ->
  hd_error (run r s []) = Some (s', m) ->
  re_search r (pre ++ s) = Some m.
Proof.
  induction pre as [|c pre IH]; intros s s' m Hno Hhd.
  - simpl. destruct s as [|c s]; simpl;
      destruct (run r _ []) as [|[s1 g1] t]; try discriminate;
      simpl in Hhd; now injection Hhd as _ ->.
  - assert (H0 : run r (c :: pre ++ s) [] = []).
    { apply (Hno 0%nat). simpl; lia. }
    simpl. rewrite H0.
    apply (IH s s' m); [|exact Hhd].
    intros j Hj. apply (Hno (S j)). simpl; lia.
Qed.

Lemma re_search_cons r c s :
  run r (c :: s) [] = [] -> re_search r (c :: s) = re_search r s.
Proof. intros H. simpl. now rewrite H. Qed.

Section ParserLemmas.
Context {U : UnicodeDB}.

Lemma no_match_without_digit c s : is_digit c = false -> run time_range (c :: s) [] = [].
Proof.
  intros H. unfold time_range. rewrite run_seq, run_group.
  simpl (run (RPlus _) _ _). now rewrite H.
Qed.

Lemma re_search_skip pre : forall s,
  forallb (fun c => negb (is_digit c)) pre = true ->
  re_search time_range (pre ++ s) = re_search time_range s.
Proof.
  induction pre as [|c pre IH]; intros s H; [reflexivity|].
  simpl in H. apply andb_prop in H. destruct H as [Hc Hpre].
  apply negb_true_iff in Hc.
  change ((c :: pre) ++ s) with (c :: pre ++ s).
  rewrite re_search_cons by (now apply no_match_without_digit). now apply IH.
Qed.

(** Whatever [re.search] returns for the time-range pattern is the groups
    of a text of the shape of the pattern. *)
Lemma re_search_groups s m :
  re_search time_range s = Some m ->
  exists ds sp de ep,
    m = time_groups ds sp de ep
    /\ forallb is_digit ds = true /\ ds <> []
    /\ forallb is_digit de = true /\ de <> [].
Proof.
  intros H. apply re_search_Some in H. destruct H as (i & s' & _ & Hhd & _).
  destruct (run time_range (skipn i s) []) as [|x t] eqn:E; [discriminate|].
  simpl in Hhd. injection Hhd as ->.
  assert (Hin : In (s', m) (run time_range (skipn i s) [])) by (rewrite E; now left).
  apply time_range_ways in Hin.
  destruct Hin as (ds & w1 & sp & w2 & dash & w3 & de & w4 & ep & _ & -> & H).
  exists ds, sp, de, ep. intuition.
Qed.

(** The conversion of the code on such groups is the normalisation of
    the specification. *)
Lemma convert_time_groups ds sp de ep :
  convert (time_groups ds sp de ep) = normalised (py_int ds) sp (py_int de) ep.
Proof.
  unfold convert, normalised, to_24h, inferred_start.
  replace (group (time_groups ds sp de ep) 1) with (Some ds)
    by (now destruct sp).
  replace (group (time_groups ds sp de ep) 3) with (Some de) by reflexivity.
  replace (group (time_groups ds sp de ep) 4) with (Some (period_text ep))
    by reflexivity.
  replace (group (time_groups ds sp de ep) 2) with (option_map period_text sp)
    by (now destruct sp).
  simpl text. generalize (py_int ds) (py_int de). intros a b.
  destruct sp as [[|]|], ep; cbn;
    destruct (b =? 12); destruct (a =? 12);
    try destruct (a <? 12); reflexivity.
Qed.

End ParserLemmas.

(** ** Substrings and pieces *)

Lemma contains_spec k t :
  contains k t = true <-> exists a b, t = a ++ k ++ b.
Proof.
  induction t as [|c t IH]; simpl.
  - destruct (drop_prefix k []) as [s'|] eqn:E.
    + apply drop_prefix_Some in E. split; [|reflexivity].
      intros _. exists [], s'. exact E.
    + split; [discriminate|]. intros (a & b & H).
      destruct a as [|x a]; [|discriminate].
      simpl in H. apply drop_prefix_Some in H. congruence.
  - destruct (drop_prefix k (c :: t)) as [s'|] eqn:E.
    + apply drop_prefix_Some in E. split; [|reflexivity].
      intros _. exists [], s'. exact E.
    + rewrite IH. split.
      * intros (a & b & ->). now exists (c :: a), b.
      * intros (a & b & H). destruct a as [|x a].
        -- simpl in H. apply drop_prefix_Some in H. congruence.
        -- injection H as _ ->. now exists a, b.
Qed.

Lemma contains_false_without k t c :
  In c k -> ~ In c t -> contains k t = false.
Proof.
  intros Hk Ht. destruct (contains k t) eqn:E; [|reflexivity].
  apply contains_spec in E. destruct E as (a & b & ->).
  elim Ht. apply in_or_app. right. apply in_or_app. now left.
Qed.

Lemma re_split_one sep s :
  forallb (fun c => negb (sep c)) s = true -> re_split sep s = [s].
Proof.
  induction s as [|c s IH]; simpl; [reflexivity|].
  intros H. apply andb_prop in H. destruct H as [Hc Hs].
  apply negb_true_iff in Hc. rewrite Hc, IH by exact Hs. reflexivity.
Qed.

Lemma re_split_Forall (P : char -> Prop) sep s :
  Forall P s -> Forall (Forall P) (re_split sep s).
Proof.
  induction 1 as [|c s Hc Hs IH]; simpl.
  - repeat constructor.
  - destruct (sep c); [constructor; [constructor|exact IH]|].
    destruct (re_split sep s) as [|piece pieces].
    + repeat constructor. exact Hc.
    + inversion IH; subst. constructor; [constructor; assumption|assumption].
Qed.

Section StripFacts.
Context {U : UnicodeDB}.

Lemma lstrip_app pre x :
  x <> [] -> stops isspace x -> lstrip (pre ++ x) = lstrip pre ++ x.
Proof.
  intros Hne Hx. induction pre as [|c pre IH]; simpl.
  - destruct x as [|c x]; [now elim Hne|]. simpl in Hx. simpl. now rewrite Hx.
  - destruct (isspace c); [exact IH|reflexivity].
Qed.

Lemma rstrip_app y c suf :
  isspace c = false -> rstrip ((y ++ [c]) ++ suf) = (y ++ [c]) ++ rstrip suf.
Proof.
  intros Hc. unfold rstrip. rewrite rev_app_distr.
  rewrite lstrip_app.
  - rewrite rev_app_distr, rev_involutive. reflexivity.
  - rewrite rev_app_distr. discriminate.
  - rewrite rev_app_distr. simpl. exact Hc.
Qed.

Lemma lstrip_suffix s : exists w, s = w ++ lstrip s.
Proof.
  induction s as [|c s [w IH]]; simpl; [now exists []|].
  destruct (isspace c); [|now exists []].
  exists (c :: w). simpl. now rewrite <- IH.
Qed.

Lemma lstrip_Forall (P : char -> Prop) s : Forall P s -> Forall P (lstrip s).
Proof.
  intros H. destruct (lstrip_suffix s) as [w Hw]. rewrite Hw in H.
  apply Forall_app in H. tauto.
Qed.

Lemma rstrip_Forall (P : char -> Prop) s : Forall P s -> Forall P (rstrip s).
Proof.
  intros H. unfold rstrip. apply Forall_rev. apply lstrip_Forall.
  now apply Forall_rev.
Qed.

Lemma strip_Forall (P : char -> Prop) s : Forall P s -> Forall P (strip s).
Proof. intros H. unfold strip. now apply rstrip_Forall, lstrip_Forall. Qed.

Lemma lstrip_forallb (p : char -> bool) s :
  forallb p s = true -> forallb p (lstrip s) = true.
Proof.
  rewrite !forallb_forall. intros H c Hc.
  apply H. destruct (lstrip_suffix s) as [w Hw]. rewrite Hw.
  apply in_or_app. now right.
Qed.

(** Stripping a text that holds a time range between a prefix and a
    suffix strips the prefix and the suffix only. *)
Lemma strip_around pre c1 body c2 suf :
  isspace c1 = false -> isspace c2 = false ->
  strip (pre ++ (c1 :: body ++ [c2]) ++ suf)
  = lstrip pre ++ (c1 :: body ++ [c2]) ++ rstrip suf.
Proof.
  intros H1 H2. unfold strip.
  rewrite lstrip_app; [|discriminate|exact H1].
  rewrite (app_assoc (lstrip pre)).
  change (c1 :: body ++ [c2]) with ((c1 :: body) ++ [c2]).
  rewrite (app_assoc (lstrip pre) (c1 :: body) [c2]).
  rewrite rstrip_app by exact H2.
  now rewrite <- !app_assoc.
Qed.

(** ** One part of a cell *)

Lemma parse_part_app slots part :
  parse_part slots part = slots ++ parse_part [] part.
Proof.
  unfold parse_part. destruct (strip part); [now rewrite app_nil_r|].
  destruct (re_search time_range _); [reflexivity|now rewrite app_nil_r].
Qed.

Lemma parse_parts parts : forall slots,
  fold_left parse_part parts slots = slots ++ flat_map (parse_part []) parts.
Proof.
  induction parts as [|part parts IH]; intros slots; simpl.
  - now rewrite app_nil_r.
  - rewrite IH, (parse_part_app slots part). now rewrite app_assoc.
Qed.

Lemma parse_part_length part : (length (parse_part [] part) <= 1)%nat.
Proof.
  unfold parse_part. destruct (strip part); [simpl; lia|].
  destruct (re_search time_range _); simpl; lia.
Qed.

Lemma re_search_nil_None : re_search time_range [] = None.
Proof. reflexivity. Qed.

(** What one part contributes, in the words of the specification. *)
Lemma parse_part_cases part :
  (re_search time_range (strip part) = None /\ parse_part [] part = [])
  \/ exists m ds sp de ep,
       re_search time_range (strip part) = Some m
       /\ m = time_groups ds sp de ep
       /\ forallb is_digit ds = true /\ ds <> []
       /\ forallb is_digit de = true /\ de <> []
       /\ parse_part [] part = [normalised (py_int ds) sp (py_int de) ep].
Proof.
  unfold parse_part. destruct (strip part) as [|c t] eqn:Es.
  - left. split; reflexivity.
  - destruct (re_search time_range (c :: t)) as [m|] eqn:E.
    + right. destruct (re_search_groups _ _ E) as (ds & sp & de & ep & -> & H).
      exists (time_groups ds sp de ep), ds, sp, de, ep.
      rewrite convert_time_groups. simpl app. intuition.
    + left. split; reflexivity.
Qed.

Lemma time_text_ends ds w1 sp w2 dash w3 de w4 ep :
  forallb is_digit ds = true -> ds <> [] ->
  exists c1 body c2,
    time_text ds w1 sp w2 dash w3 de w4 ep = c1 :: body ++ [c2]
    /\ isspace c1 = false /\ isspace c2 = false /\ is_digit c1 = true.
Proof.
  intros Hds Hne. destruct ds as [|c1 ds]; [now elim Hne|].
  simpl in Hds. apply andb_prop in Hds. destruct Hds as [Hc1 _].
  exists c1. unfold time_text.
  assert (Hp : exists x, period_text ep = [x; 77%N]) by (destruct ep; eexists; reflexivity).
  destruct Hp as [x ->].
  exists (ds ++ w1 ++ opt_period_text sp ++ w2 ++ [dash] ++ w3 ++ de ++ w4 ++ [x]), 77%N.
  split; [|split; [now apply digit_not_space|split; [|exact Hc1]]].
  - change [x; 77%N] with ([x] ++ [77%N]).
    change ((c1 :: ds) ++ ?r) with (c1 :: ds ++ r). f_equal.
    repeat rewrite <- app_assoc. reflexivity.
  - apply ascii_not_space; reflexivity.
Qed.

(** A part that holds a text of the shape of the pattern after a prefix
    without digits yields the interval of that text, whatever follows. *)
Lemma parse_part_time_text pre suf ds w1 sp w2 dash w3 de w4 ep :
  forallb (fun c => negb (is_digit c)) pre = true ->
  forallb is_digit ds = true -> ds <> [] ->
  forallb is_digit de = true -> de <> [] ->
  forallb isspace w1 = true -> forallb isspace w2 = true ->
  forallb isspace w3 = true -> forallb isspace w4 = true ->
  is_dash dash = true ->
  parse_part [] (pre ++ time_text ds w1 sp w2 dash w3 de w4 ep ++ suf)
  = [normalised (py_int ds) sp (py_int de) ep].
Proof.
  intros Hpre Hds Hdne Hde Hdene Hw1 Hw2 Hw3 Hw4 Hdash.
  destruct (time_text_ends ds w1 sp w2 dash w3 de w4 ep Hds Hdne)
    as (c1 & body & c2 & Htext & Hc1 & Hc2 & _).
  unfold parse_part.
  assert (Hstrip : strip (pre ++ time_text ds w1 sp w2 dash w3 de w4 ep ++ suf)
                   = lstrip pre ++ time_text ds w1 sp w2 dash w3 de w4 ep ++ rstrip suf).
  { rewrite Htext. now apply strip_around. }
  rewrite Hstrip.
  assert (Hsearch : re_search time_range
             (lstrip pre ++ time_text ds w1 sp w2 dash w3 de w4 ep ++ rstrip suf)
             = Some (time_groups ds sp de ep)).
  { rewrite re_search_skip by (now apply lstrip_forallb).
    pose proof (time_range_first ds w1 sp w2 dash w3 de w4 ep (rstrip suf)
                  Hds Hdne Hde Hdene Hw1 Hw2 Hw3 Hw4 Hdash) as Hfirst.
    exact (re_search_at time_range [] _ _ _ (fun j Hj => match Nat.nlt_0_r j Hj with end) Hfirst). }
  rewrite Hsearch, convert_time_groups.
  destruct (lstrip pre ++ time_text ds w1 sp w2 dash w3 de w4 ep ++ rstrip suf) eqn:E;
    [|reflexivity].
  apply app_eq_nil in E. destruct E as [_ E]. apply app_eq_nil in E.
  destruct E as [E _]. rewrite Htext in E. discriminate.
Qed.

End StripFacts.

(** ** The tables matter only on the code points that are read *)

Lemma flat_map_ext_in {A B} (f g : A -> list B) l :
  (forall a, In a l -> f a = g a) -> flat_map f l = flat_map g l.
Proof.
  induction l as [|a l IH]; intros H; simpl; [reflexivity|].
  rewrite H by now left. rewrite IH; [reflexivity|].
  intros b Hb. apply H. now right.
Qed.

Lemma run_suffix r : forall s g s' g',
  In (s', g') (run r s g) -> exists w, s = w ++ s'.
Proof.
  induction r as [p|l|r1 IH1 r2 IH2|r1 IH1 r2 IH2|r IH|p|p|i r IH];
    intros s g s' g' H.
  - apply in_class in H. destruct H as [_ (c & -> & _)]. now exists [c].
  - apply in_lit in H. destruct H as [_ ->]. now exists l.
  - apply in_seq in H. destruct H as (s1 & g1 & H1 & H2).
    apply IH1 in H1. apply IH2 in H2. destruct H1 as [w1 ->], H2 as [w2 ->].
    exists (w1 ++ w2). now rewrite app_assoc.
  - rewrite run_alt in H. apply in_app_or in H. destruct H; eauto.
  - rewrite run_opt in H. apply in_app_or in H.
    destruct H as [H|[[= <- <-]|[]]]; [eauto|now exists []].
  - apply (in_star p) in H. destruct H as [_ (w & -> & _)]. now exists w.
  - apply in_plus in H. destruct H as [_ (w & -> & _)]. now exists w.
  - apply in_group in H. destruct H as (g1 & H & _). eauto.
Qed.

Lemma star_agree (P : char -> Prop) p q s g :
  (forall c, P c -> p c = q c) -> Forall P s -> star p s g = star q s g.
Proof.
  intros Hpq. induction 1 as [|c s Hc Hs IH]; simpl; [reflexivity|].
  now rewrite (Hpq c Hc), IH.
Qed.

Lemma run_agree (P : char -> Prop) r q :
  regex_agree P r q -> forall s g, Forall P s -> run r s g = run q s g.
Proof.
  induction 1 as [p q Hpq|l|r1 r2 q1 q2 _ IH1 _ IH2|r1 r2 q1 q2 _ IH1 _ IH2
                  |r q _ IH|p q Hpq|p q Hpq|i r q _ IH]; intros s g Hs.
  - simpl. destruct Hs as [|c s Hc Hs]; [reflexivity|]. now rewrite (Hpq c Hc).
  - reflexivity.
  - rewrite !run_seq, <- (IH1 s g Hs). apply flat_map_ext_in.
    intros [s1 g1] Hin. apply IH2.
    apply run_suffix in Hin. destruct Hin as [w ->].
    apply Forall_app in Hs. tauto.
  - rewrite !run_alt. now rewrite IH1, IH2.
  - rewrite !run_opt. now rewrite IH.
  - simpl. now apply (star_agree P).
  - simpl. destruct Hs as [|c s Hc Hs]; [reflexivity|].
    rewrite (Hpq c Hc). destruct (q c); [|reflexivity].
    now apply (star_agree P).
  - rewrite !run_group. now rewrite IH.
Qed.

Lemma re_search_agree (P : char -> Prop) r q s :
  regex_agree P r q -> Forall P s -> re_search r s = re_search q s.
Proof.
  intros Hrq. induction 1 as [|c s Hc Hs IH].
  - simpl. now rewrite (run_agree P r q Hrq [] []).
  - simpl. rewrite (run_agree P r q Hrq (c :: s) []) by now constructor.
    destruct (run q (c :: s) []) as [|[s1 g1] t]; [exact IH|reflexivity].
Qed.

Lemma plainb_plain s : forallb plainb s = true -> Forall plain s.
Proof.
  intros H. apply Forall_forall. intros c Hc.
  rewrite forallb_forall in H. specialize (H c Hc).
  unfold plainb in H. apply orb_prop in H. destruct H as [H|H].
  - left. now apply N.ltb_lt.
  - right. now apply N.eqb_eq.
Qed.

Section Transfer.
Context {U : UnicodeDB}.

Lemma plain_isspace c : plain c -> @isspace U c = @isspace ascii_db c.
Proof.
  intros [H| ->].
  - now rewrite !isspace_ascii.
  - now rewrite !en_dash_not_space.
Qed.

Lemma plain_decimal c : plain c -> @decimal U c = @decimal ascii_db c.
Proof.
  intros [H| ->].
  - now rewrite !decimal_ascii.
  - now rewrite !en_dash_not_decimal.
Qed.

Lemma plain_upper c : plain c -> @upper U c = @upper ascii_db c.
Proof.
  intros [H| ->].
  - now rewrite !upper_ascii.
  - now rewrite !en_dash_upper.
Qed.

Lemma plain_upper_plain c : plain c -> Forall plain (@upper ascii_db c).
Proof.
  intros [H| ->].
  - rewrite upper_ascii by exact H. constructor; [|constructor].
    left. unfold is_ascii, ascii_upper in *.
    destruct ((97 <=? c)%N && (c <=? 122)%N); lia.
  - rewrite en_dash_upper. constructor; [now right|constructor].
Qed.

Lemma plain_is_digit c : plain c -> @is_digit U c = @is_digit ascii_db c.
Proof. intros H. unfold is_digit. now rewrite plain_decimal. Qed.

Lemma lstrip_plain s : Forall plain s -> @lstrip U s = @lstrip ascii_db s.
Proof.
  induction 1 as [|c s Hc Hs IH]; simpl; [reflexivity|].
  rewrite (plain_isspace c Hc), IH. reflexivity.
Qed.

Lemma strip_plain s : Forall plain s -> @strip U s = @strip ascii_db s.
Proof.
  intros H. unfold strip, rstrip.
  rewrite (lstrip_plain s H).
  rewrite lstrip_plain; [reflexivity|].
  apply Forall_rev. now apply lstrip_Forall.
Qed.

Lemma str_upper_plain s :
  Forall plain s ->
  @str_upper U s = @str_upper ascii_db s /\ Forall plain (@str_upper ascii_db s).
Proof.
  induction 1 as [|c s Hc Hs [IH1 IH2]]; simpl; [split; [reflexivity|constructor]|].
  split.
  - now rewrite (plain_upper c Hc), IH1.
  - apply Forall_app. split; [now apply plain_upper_plain|exact IH2].
Qed.

Lemma py_int_plain s : Forall plain s -> @py_int U s = @py_int ascii_db s.
Proof.
  intros H. unfold py_int. generalize 0.
  induction H as [|c s Hc Hs IH]; intros acc; cbn [fold_left]; [reflexivity|].
  replace (@digit_value U c) with (@digit_value ascii_db c)
    by (unfold digit_value; now rewrite (plain_decimal c Hc)).
  apply IH.
Qed.

Lemma time_range_agree : regex_agree plain (@time_range U) (@time_range ascii_db).
Proof.
  unfold time_range.
  repeat first
    [ apply agree_seq | apply agree_group | apply agree_opt | apply agree_alt
    | apply agree_lit
    | apply agree_plus; exact plain_is_digit
    | apply agree_star; exact plain_isspace
    | apply agree_class; reflexivity ].
Qed.

(** [re.search] returns the groups of an occurrence of a text of the
    shape of the pattern, and nothing matches further left. *)
Lemma re_search_occurrence s m :
  re_search time_range s = Some m ->
  exists pre ds w1 sp w2 dash w3 de w4 ep s',
    s = pre ++ time_text ds w1 sp w2 dash w3 de w4 ep ++ s'
    /\ m = time_groups ds sp de ep
    /\ forallb is_digit ds = true /\ ds <> []
    /\ forallb is_digit de = true /\ de <> []
    /\ forallb isspace w1 = true /\ forallb isspace w2 = true
    /\ forallb isspace w3 = true /\ forallb isspace w4 = true
    /\ is_dash dash = true
    /\ forall j, (j < length pre)%nat -> run time_range (skipn j s) [] = [].
Proof.
  intros H. apply re_search_Some in H. destruct H as (i & s' & Hi & Hhd & Hno).
  destruct (run time_range (skipn i s) []) as [|x t] eqn:E; [discriminate|].
  simpl in Hhd. injection Hhd as ->.
  assert (Hin : In (s', m) (run time_range (skipn i s) [])) by (rewrite E; now left).
  apply time_range_ways in Hin.
  destruct Hin as (ds & w1 & sp & w2 & dash & w3 & de & w4 & ep & Hs & -> & H).
  exists (firstn i s), ds, w1, sp, w2, dash, w3, de, w4, ep, s'.
  rewrite <- Hs, firstn_skipn.
  rewrite length_firstn, Nat.min_l by exact Hi. intuition.
Qed.

Lemma convert_plain s m :
  Forall plain s -> re_search (@time_range U) s = Some m ->
  @convert U m = @convert ascii_db m.
Proof.
  intros Hs H. apply re_search_occurrence in H.
  destruct H as (pre & ds & w1 & sp & w2 & dash & w3 & de & w4 & ep & s'
                 & -> & -> & _).
  unfold time_text in Hs. repeat rewrite Forall_app in Hs.
  destruct Hs as (_ & (Hds & _ & _ & _ & _ & _ & Hde & _) & _).
  pose proof (@convert_time_groups U ds sp de ep) as HU.
  pose proof (@convert_time_groups ascii_db ds sp de ep) as HR.
  rewrite HU, HR. now rewrite (py_int_plain ds Hds), (py_int_plain de Hde).
Qed.

Lemma parse_part_plain slots part :
  Forall plain part -> @parse_part U slots part = @parse_part ascii_db slots part.
Proof.
  intros H. unfold parse_part. rewrite <- (strip_plain part H).
  assert (Hs : Forall plain (@strip U part)) by now apply strip_Forall.
  destruct (@strip U part) as [|c t] eqn:E; [reflexivity|].
  rewrite <- (re_search_agree plain _ _ (c :: t) time_range_agree Hs).
  destruct (re_search time_range (c :: t)) as [m|] eqn:Em; [|reflexivity].
  now rewrite (convert_plain (c :: t) m Hs Em).
Qed.

(** On a cell of plain code points the parser does not depend on the
    tables. *)
Lemma parse_time_slot_plain time_str :
  Forall plain time_str ->
  @parse_time_slot U time_str = @parse_time_slot ascii_db time_str.
Proof.
  intros H. unfold parse_time_slot.
  rewrite (strip_plain time_str H).
  assert (Hs : Forall plain (@strip ascii_db time_str)) by now apply strip_Forall.
  destruct (str_upper_plain _ Hs) as [-> Hu].
  destruct (has_keyword _); [reflexivity|].
  pose proof (re_split_Forall plain comma_or_semicolon _ Hu) as Hparts.
  generalize (@nil interval).
  induction Hparts as [|part parts Hp _ IH]; intros slots; simpl; [reflexivity|].
  rewrite (parse_part_plain slots part Hp). apply IH.
Qed.

End Transfer.

(** ** Whole cells *)

Section Cells.
Context {U : UnicodeDB}.

Lemma parse_time_slot_unfold time_str :
  parse_time_slot time_str
  = if has_keyword (normalise time_str) then []
    else flat_map (parse_part [])
                  (re_split comma_or_semicolon (normalise time_str)).
Proof.
  unfold parse_time_slot, normalise. destruct (has_keyword _); [reflexivity|].
  now rewrite parse_parts.
Qed.

Lemma time_text_chars ds w1 sp w2 dash w3 de w4 ep c :
  time_text_ok ds w1 w2 dash w3 de w4 ->
  In c (time_text ds w1 sp w2 dash w3 de w4 ep) ->
  is_digit c = true \/ isspace c = true \/ is_dash c = true
  \/ c = 65%N \/ c = 77%N \/ c = 80%N.
Proof.
  intros (Hds & _ & Hde & _ & Hw1 & Hw2 & Hw3 & Hw4 & Hdash).
  rewrite forallb_forall in Hds, Hde, Hw1, Hw2, Hw3, Hw4.
  assert (Hp : forall p, In c (period_text p) -> c = 65%N \/ c = 77%N \/ c = 80%N).
  { intros [|]; simpl; intuition. }
  unfold time_text. repeat rewrite in_app_iff.
  intros [H|[H|[H|[H|[H|[H|[H|[H|H]]]]]]]]; auto 7.
  - destruct sp as [p|]; [apply Hp in H; tauto|contradiction].
  - destruct H as [<-|[]]. auto.
  - apply Hp in H. tauto.
Qed.

Lemma not_in_time_text ds w1 sp w2 dash w3 de w4 ep c :
  time_text_ok ds w1 w2 dash w3 de w4 ->
  is_ascii c -> ascii_decimal c = None -> ascii_isspace c = false ->
  is_dash c = false -> c <> 65%N -> c <> 77%N -> c <> 80%N ->
  ~ In c (time_text ds w1 sp w2 dash w3 de w4 ep).
Proof.
  intros Hok Ha Hd Hs Hdash H65 H77 H80 Hin.
  apply (time_text_chars _ _ _ _ _ _ _ _ _ _ Hok) in Hin.
  rewrite (ascii_not_digit c Ha Hd), (ascii_not_space c Ha Hs), Hdash in Hin.
  intuition discriminate.
Qed.

Ltac absent_char :=
  apply not_in_time_text; [assumption|reflexivity|reflexivity|reflexivity
                          |reflexivity|discriminate|discriminate|discriminate].

Lemma time_text_no_keyword ds w1 sp w2 dash w3 de w4 ep :
  time_text_ok ds w1 w2 dash w3 de w4 ->
  has_keyword (time_text ds w1 sp w2 dash w3 de w4 ep) = false.
Proof.
  intros Hok. unfold has_keyword, unavailable_keywords. simpl existsb.
  rewrite (contains_false_without (py "NA") _ 78%N) by (simpl; tauto || absent_char).
  rewrite (contains_false_without (py "N/A") _ 78%N) by (simpl; tauto || absent_char).
  rewrite (contains_false_without (py "ON LEAVE") _ 78%N) by (simpl; tauto || absent_char).
  rewrite (contains_false_without (py "LEAVE") _ 76%N) by (simpl; tauto || absent_char).
  rewrite (contains_false_without (py "UNAVAILABLE") _ 78%N) by (simpl; tauto || absent_char).
  rewrite (contains_false_without (py "OFF") _ 79%N) by (simpl; tauto || absent_char).
  reflexivity.
Qed.

Lemma time_text_one_part ds w1 sp w2 dash w3 de w4 ep :
  time_text_ok ds w1 w2 dash w3 de w4 ->
  re_split comma_or_semicolon (time_text ds w1 sp w2 dash w3 de w4 ep)
  = [time_text ds w1 sp w2 dash w3 de w4 ep].
Proof.
  intros Hok. apply re_split_one. apply forallb_forall. intros c Hc.
  apply negb_true_iff. unfold comma_or_semicolon.
  apply orb_false_iff. split; apply N.eqb_neq; intros ->; revert Hc; absent_char.
Qed.

(** A cell whose normalised text has the shape of the pattern yields the
    one interval that the specification describes. *)
Lemma parse_time_slot_time_text time_str ds w1 sp w2 dash w3 de w4 ep :
  time_text_ok ds w1 w2 dash w3 de w4 ->
  normalise time_str = time_text ds w1 sp w2 dash w3 de w4 ep ->
  parse_time_slot time_str = [normalised (py_int ds) sp (py_int de) ep].
Proof.
  intros Hok Hn. rewrite parse_time_slot_unfold, Hn.
  rewrite time_text_no_keyword, time_text_one_part by exact Hok.
  simpl flat_map. rewrite app_nil_r.
  destruct Hok as (Hds & Hdne & Hde & Hdene & Hw1 & Hw2 & Hw3 & Hw4 & Hdash).
  pose proof (parse_part_time_text [] [] ds w1 sp w2 dash w3 de w4 ep eq_refl
                Hds Hdne Hde Hdene Hw1 Hw2 Hw3 Hw4 Hdash) as H.
  simpl app in H. now rewrite app_nil_r in H.
Qed.

End Cells.

(** ** Letter case on ASCII *)

Lemma ascii_upper_is_ascii c : is_ascii (ascii_upper c) -> is_ascii c.
Proof.
  unfold is_ascii, ascii_upper.
  destruct ((97 <=? c)%N && (c <=? 122)%N) eqn:E; [|auto].
  apply andb_prop in E. destruct E as [_ E]. apply N.leb_le in E. lia.
Qed.

Lemma ascii_isspace_upper c : ascii_isspace (ascii_upper c) = ascii_isspace c.
Proof.
  unfold ascii_upper.
  destruct ((97 <=? c)%N && (c <=? 122)%N) eqn:E; [|reflexivity].
  apply andb_prop in E. destruct E as [E1 E2]. apply N.leb_le in E1, E2.
  unfold ascii_isspace.
  replace (c - 32 <=? 13)%N with false by (symmetry; apply N.leb_gt; lia).
  replace (c - 32 <=? 32)%N with false by (symmetry; apply N.leb_gt; lia).
  replace (c <=? 13)%N with false by (symmetry; apply N.leb_gt; lia).
  replace (c <=? 32)%N with false by (symmetry; apply N.leb_gt; lia).
  now rewrite !andb_false_r.
Qed.

Lemma map_upper_is_ascii s : Forall is_ascii (map ascii_upper s) -> Forall is_ascii s.
Proof.
  induction s as [|c s IH]; simpl; intros H; [constructor|].
  inversion H; subst. constructor; [now apply ascii_upper_is_ascii|auto].
Qed.

Lemma map_eq_ends {A B} (f : A -> B) s a m b :
  map f s = a :: m ++ [b] ->
  exists c1 body c2, s = c1 :: body ++ [c2] /\ f c1 = a /\ f c2 = b.
Proof.
  destruct s as [|c1 s]; [discriminate|]. simpl. intros [= H1 H2].
  apply map_eq_app in H2. destruct H2 as (body & l2 & -> & _ & H2).
  destruct l2 as [|c2 [|x l2]]; try discriminate. injection H2 as H2.
  now exists c1, body, c2.
Qed.

Section AnyCase.
Context {U : UnicodeDB}.

Lemma str_upper_ascii s : Forall is_ascii s -> str_upper s = map ascii_upper s.
Proof.
  induction 1 as [|c s Hc Hs IH]; simpl; [reflexivity|].
  now rewrite (upper_ascii c Hc), IH.
Qed.

Lemma strip_id c1 body c2 :
  isspace c1 = false -> isspace c2 = false ->
  strip (c1 :: body ++ [c2]) = c1 :: body ++ [c2].
Proof.
  intros H1 H2.
  pose proof (strip_around [] c1 body c2 [] H1 H2) as H.
  simpl in H. rewrite !app_nil_r in H. exact H.
Qed.

(** A text that is a keyword up to the case of its ASCII letters is that
    keyword once normalised. *)
Lemma normalise_any_case s k1 kbody k2 :
  map ascii_upper s = k1 :: kbody ++ [k2] ->
  Forall is_ascii (k1 :: kbody ++ [k2]) ->
  ascii_isspace k1 = false -> ascii_isspace k2 = false ->
  normalise s = k1 :: kbody ++ [k2].
Proof.
  intros Hmap Hk Hk1 Hk2.
  assert (Hs : Forall is_ascii s).
  { apply map_upper_is_ascii. now rewrite Hmap. }
  destruct (map_eq_ends _ _ _ _ _ Hmap) as (c1 & body & c2 & -> & H1 & H2).
  assert (Hc1 : is_ascii c1) by (inversion Hs; assumption).
  assert (Hc2 : is_ascii c2).
  { inversion Hs as [|? ? _ Ht]; subst. apply Forall_app in Ht.
    destruct Ht as [_ Ht]. inversion Ht; assumption. }
  unfold normalise. rewrite strip_id.
  - rewrite str_upper_ascii by exact Hs. exact Hmap.
  - rewrite isspace_ascii by exact Hc1.
    now rewrite <- ascii_isspace_upper, H1.
  - rewrite isspace_ascii by exact Hc2.
    now rewrite <- ascii_isspace_upper, H2.
Qed.

Lemma has_keyword_substring t :
  has_keyword t = true <->
  exists keyword, In keyword unavailable_keywords /\ substring keyword t.
Proof.
  unfold has_keyword. rewrite existsb_exists.
  split; intros (k & Hk & H); exists k; (split; [exact Hk|]);
    now apply contains_spec.
Qed.

Lemma py_int_nonneg s : 0 <= py_int s.
Proof.
  unfold py_int.
  assert (H : forall acc, 0 <= acc ->
            0 <= fold_left (fun acc c => 10 * acc + digit_value c) s acc).
  { induction s as [|c s IH]; intros acc Hacc; cbn [fold_left]; [exact Hacc|].
    apply IH. unfold digit_value.
    destruct (decimal c) as [d|] eqn:E; [apply decimal_range in E|]; lia. }
  apply H. lia.
Qed.

End AnyCase.

Lemma normalised_bounds a sp b ep :
  0 <= a -> 0 <= b ->
  0 <= fst (normalised a sp b ep) /\ 0 <= snd (normalised a sp b ep)
  /\ (a <= 12 -> fst (normalised a sp b ep) < 24)
  /\ (b <= 12 -> snd (normalised a sp b ep) < 24).
Proof.
  intros Ha Hb. unfold normalised, to_24h, inferred_start. simpl.
  destruct sp as [[|]|], ep;
    destruct (Z.eqb_spec a 12); destruct (Z.eqb_spec b 12);
    try destruct (Z.ltb_spec a 12); lia.
Qed.

Lemma fold_step_positive rest : forall acc,
  (forall i, In i acc -> fst i < snd i) ->
  forall i, In i (fold_left fold_step rest acc) -> fst i < snd i.
Proof.
  induction rest as [|member rest IH]; intros acc Hacc i Hi; simpl in Hi.
  - now apply Hacc.
  - apply (IH (fold_step acc member)); [|exact Hi].
    intros o Ho. now apply in_fold_step in Ho.
Qed.

Lemma in_parse_time_slot {U : UnicodeDB} time_str i :
  In i (parse_time_slot time_str) ->
  exists part ds sp de ep,
    In part (re_split comma_or_semicolon (normalise time_str))
    /\ re_search time_range (strip part) = Some (time_groups ds sp de ep)
    /\ forallb is_digit ds = true /\ ds <> []
    /\ forallb is_digit de = true /\ de <> []
    /\ i = normalised (py_int ds) sp (py_int de) ep.
Proof.
  rewrite parse_time_slot_unfold. destruct (has_keyword _); [contradiction|].
  rewrite in_flat_map. intros (part & Hpart & Hi).
  destruct (parse_part_cases part) as [[_ H]|(m & ds & sp & de & ep & Hm & -> & Hds & Hdne & Hde & Hdene & H)];
    rewrite H in Hi; [contradiction|].
  destruct Hi as [<-|[]]. exists part, ds, sp, de, ep. intuition.
Qed.

(** C2.  On every part in which the time-range pattern is found,
    [parse_time_slot] converts the end hour with its own period ([PM] adds
    12 unless the value is 12, [AM] maps 12 to 0), an explicit start
    period the same way, and infers an absent start period from the end
    (end [PM] and start below 12 adds 12, end [AM] leaves the start); so
    every returned pair is such a conversion, and a cell whose normalised
    text is a time range yields exactly it.  "9AM-12PM" yields [(9,12)],
    "1-3PM" yields [(13,15)] and "9-12PM" the degenerate (21,12). *)
Theorem parse_time_slot_normalises_hours : forall (U : UnicodeDB),
  (forall v, to_24h v PM = (if v =? 12 then 12 else v + 12)
             /\ to_24h v AM = (if v =? 12 then 0 else v)
             /\ inferred_start v PM = (if v <? 12 then v + 12 else v)
             /\ inferred_start v AM = v)
  /\ (forall part m,
        re_search time_range (strip part) = Some m ->
        exists ds sp de ep,
          m = time_groups ds sp de ep
          /\ forallb is_digit ds = true /\ forallb is_digit de = true
          /\ parse_part [] part
             = [(match sp with
                 | Some p => to_24h (py_int ds) p
                 | None => inferred_start (py_int ds) ep
                 end, to_24h (py_int de) ep)])
  /\ (forall time_str i,
        In i (parse_time_slot time_str) ->
        exists part ds sp de ep,
          In part (re_split comma_or_semicolon (normalise time_str))
          /\ re_search time_range (strip part) = Some (time_groups ds sp de ep)
          /\ i = normalised (py_int ds) sp (py_int de) ep)
  /\ (forall time_str ds w1 sp w2 dash w3 de w4 ep,
        time_text_ok ds w1 w2 dash w3 de w4 ->
        normalise time_str = time_text ds w1 sp w2 dash w3 de w4 ep ->
        parse_time_slot time_str = [normalised (py_int ds) sp (py_int de) ep])
  /\ parse_time_slot (py "9AM-12PM") = [(9, 12)]
  /\ parse_time_slot (py "1-3PM") = [(13, 15)]
  /\ parse_time_slot (py "9-12PM") = [(21, 12)]
  /\ parse_time_slot (py " 9 am " ++ [en_dash] ++ py " 5 pm ") = [(9, 17)].
Proof.
  intros U. split; [|split; [|split; [|split; [|split; [|split; [|split]]]]]].
  - intros v. unfold to_24h, inferred_start.
    destruct (Z.eqb_spec v 12) as [->|]; auto.
  - intros part m Hm.
    destruct (parse_part_cases part)
      as [[Hnone _]|(m' & ds & sp & de & ep & Hm' & -> & Hds & _ & Hde & _ & H)];
      [congruence|].
    exists ds, sp, de, ep. rewrite Hm in Hm'. injection Hm' as ->.
    repeat split; auto.
  - intros time_str i Hi. apply in_parse_time_slot in Hi.
    destruct Hi as (part & ds & sp & de & ep & H1 & H2 & _ & _ & _ & _ & H3).
    exists part, ds, sp, de, ep. auto.
  - intros. now apply (parse_time_slot_time_text time_str ds w1 sp w2 dash w3 de w4 ep).
  - rewrite parse_time_slot_plain by (apply plainb_plain; reflexivity). reflexivity.
  - rewrite parse_time_slot_plain by (apply plainb_plain; reflexivity). reflexivity.
  - rewrite parse_time_slot_plain by (apply plainb_plain; reflexivity). reflexivity.
  - rewrite parse_time_slot_plain by (apply plainb_plain; reflexivity). reflexivity.
Qed.

(** The texts of the shape of the pattern exist under every table:
    "9 AM-12PM" is one. *)
Example time_text_sample : forall (U : UnicodeDB),
  time_text_ok (py "9") [32%N] [] hyphen [] (py "12") []
  /\ time_text (py "9") [32%N] (Some AM) [] hyphen [] (py "12") [] PM
     = py "9 AM-12PM"
  /\ normalised (py_int (py "9")) (Some AM) (py_int (py "12")) PM = (9, 12).
Proof.
  intros U.
  assert (Hd : forall c, is_ascii c -> ascii_decimal c <> None -> is_digit c = true).
  { intros c Ha Hc. unfold is_digit. rewrite decimal_ascii by exact Ha.
    now destruct (ascii_decimal c). }
  assert (H9 : is_digit 57%N = true) by (apply Hd; [reflexivity|discriminate]).
  assert (H1 : is_digit 49%N = true) by (apply Hd; [reflexivity|discriminate]).
  assert (H2 : is_digit 50%N = true) by (apply Hd; [reflexivity|discriminate]).
  assert (Hs : isspace 32%N = true) by (now rewrite isspace_ascii).
  split; [|split].
  - unfold time_text_ok. change (py "9") with [57%N]. change (py "12") with [49%N; 50%N].
    simpl forallb. rewrite H9, H1, H2, Hs.
    repeat split; discriminate.
  - reflexivity.
  - rewrite (@py_int_plain U (py "9")), (@py_int_plain U (py "12"))
      by (apply plainb_plain; reflexivity).
    reflexivity.
Qed.

(** C7.  When the trimmed, upper-cased text of a cell contains one of NA,
    N/A, ON LEAVE, LEAVE, UNAVAILABLE, OFF anywhere, [parse_time_slot]
    returns the empty list, also when the cell holds a time range; "NA",
    "n/a", "On Leave" and "OFF" in any letter case yield the empty list. *)
Theorem absence_keywords_take_precedence : forall (U : UnicodeDB),
  unavailable_keywords
    = [py "NA"; py "N/A"; py "ON LEAVE"; py "LEAVE"; py "UNAVAILABLE"; py "OFF"]
  /\ (forall time_str keyword,
        In keyword unavailable_keywords ->
        substring keyword (normalise time_str) ->
        parse_time_slot time_str = [])
  /\ (forall time_str,
        In (map ascii_upper time_str) [py "NA"; py "N/A"; py "ON LEAVE"; py "OFF"] ->
        parse_time_slot time_str = [])
  /\ parse_time_slot (py "NA") = []
  /\ parse_time_slot (py "n/a") = []
  /\ parse_time_slot (py "On Leave") = []
  /\ parse_time_slot (py "OFF") = []
  /\ parse_time_slot (py "9AM-12PM, on leave from 1PM-3PM") = [].
Proof.
  intros U.
  assert (Hgen : forall time_str keyword,
             In keyword unavailable_keywords ->
             substring keyword (normalise time_str) ->
             parse_time_slot time_str = []).
  { intros time_str keyword Hk Hsub. rewrite parse_time_slot_unfold.
    replace (has_keyword (normalise time_str)) with true; [reflexivity|].
    symmetry. apply has_keyword_substring. eauto. }
  assert (Hcase : forall time_str,
             In (map ascii_upper time_str) [py "NA"; py "N/A"; py "ON LEAVE"; py "OFF"] ->
             parse_time_slot time_str = []).
  { intros time_str Hin.
    assert (Hn : exists k1 kbody k2,
               map ascii_upper time_str = k1 :: kbody ++ [k2]
               /\ forallb plainb (k1 :: kbody ++ [k2]) = true
               /\ forallb (fun c => (c <? 128)%N) (k1 :: kbody ++ [k2]) = true
               /\ ascii_isspace k1 = false /\ ascii_isspace k2 = false
               /\ has_keyword (k1 :: kbody ++ [k2]) = true).
    { destruct Hin as [H|[H|[H|[H|[]]]]]; rewrite <- H.
      - exists 78%N, [], 65%N. repeat split.
      - exists 78%N, [47%N], 65%N. repeat split.
      - exists 79%N, (py "N LEAV"), 69%N. repeat split.
      - exists 79%N, [70%N], 70%N. repeat split. }
    destruct Hn as (k1 & kbody & k2 & Hmap & _ & Hascii & Hk1 & Hk2 & Hkw).
    rewrite parse_time_slot_unfold.
    rewrite (normalise_any_case time_str k1 kbody k2 Hmap); [now rewrite Hkw| |exact Hk1|exact Hk2].
    apply Forall_forall. intros c Hc. rewrite forallb_forall in Hascii.
    apply N.ltb_lt. now apply Hascii. }
  split; [reflexivity|]. split; [exact Hgen|]. split; [exact Hcase|].
  repeat split;
    (rewrite parse_time_slot_plain by (apply plainb_plain; reflexivity));
    reflexivity.
Qed.

Section Leftmost.
Context {U : UnicodeDB}.

Lemma skipn_length_app (pre s : pystr) : skipn (length pre) (pre ++ s) = s.
Proof. induction pre as [|c pre IH]; simpl; auto. Qed.

(** A part that holds a text of the shape of the pattern anywhere yields
    an interval. *)
Lemma parse_part_finds pre suf ds w1 sp w2 dash w3 de w4 ep :
  time_text_ok ds w1 w2 dash w3 de w4 ->
  exists i, parse_part [] (pre ++ time_text ds w1 sp w2 dash w3 de w4 ep ++ suf) = [i].
Proof.
  intros (Hds & Hdne & Hde & Hdene & Hw1 & Hw2 & Hw3 & Hw4 & Hdash).
  destruct (time_text_ends ds w1 sp w2 dash w3 de w4 ep Hds Hdne)
    as (c1 & body & c2 & Htext & Hc1 & Hc2 & _).
  unfold parse_part.
  assert (Hstrip : strip (pre ++ time_text ds w1 sp w2 dash w3 de w4 ep ++ suf)
                   = lstrip pre ++ time_text ds w1 sp w2 dash w3 de w4 ep ++ rstrip suf).
  { rewrite Htext. now apply strip_around. }
  rewrite Hstrip.
  destruct (re_search time_range
              (lstrip pre ++ time_text ds w1 sp w2 dash w3 de w4 ep ++ rstrip suf))
    as [m|] eqn:E.
  - exists (convert m).
    destruct (lstrip pre ++ time_text ds w1 sp w2 dash w3 de w4 ep ++ rstrip suf) eqn:E';
      [discriminate|reflexivity].
  - exfalso.
    pose proof (re_search_None _ _ E (length (lstrip pre))) as Hno.
    rewrite skipn_length_app in Hno.
    rewrite length_app in Hno. specialize (Hno ltac:(lia)).
    pose proof (time_range_first ds w1 sp w2 dash w3 de w4 ep (rstrip suf)
                  Hds Hdne Hde Hdene Hw1 Hw2 Hw3 Hw4 Hdash) as Hfirst.
    rewrite Hno in Hfirst. discriminate.
Qed.

Lemma parse_time_slot_length time_str :
  (length (parse_time_slot time_str)
   <= length (re_split comma_or_semicolon (normalise time_str)))%nat.
Proof.
  rewrite parse_time_slot_unfold. destruct (has_keyword _); [simpl; lia|].
  induction (re_split comma_or_semicolon (normalise time_str)) as [|part parts IH];
    simpl; [lia|].
  rewrite length_app. pose proof (parse_part_length part). lia.
Qed.

End Leftmost.

(** ** The stable sort *)

Section SortFacts.
Context {A : Type} (before : A -> A -> bool).

Lemma insert_by_perm x l : Permutation (insert_by before x l) (x :: l).
Proof.
  induction l as [|y l IH]; simpl; [reflexivity|].
  destruct (before y x); [|reflexivity].
  rewrite IH. apply perm_swap.
Qed.

Lemma sort_by_perm l : Permutation (sort_by before l) l.
Proof.
  induction l as [|x l IH]; simpl; [constructor|].
  rewrite insert_by_perm. now constructor.
Qed.

Lemma sort_by_length l : length (sort_by before l) = length l.
Proof. apply Permutation_length, sort_by_perm. Qed.

(** [x] may stand before [y]: [y] does not go strictly before [x]. *)
Let may_precede (x y : A) : Prop := before y x = false.

Hypothesis before_asym : forall x y, before x y = true -> before y x = false.
Hypothesis may_precede_trans :
  forall x y z, may_precede x y -> may_precede y z -> may_precede x z.

Lemma insert_by_sorted x l :
  StronglySorted may_precede l -> StronglySorted may_precede (insert_by before x l).
Proof.
  induction 1 as [|y l Hl IH Hy]; simpl.
  - constructor; constructor.
  - destruct (before y x) eqn:E.
    + constructor; [exact IH|].
      apply Forall_forall. intros z Hz.
      apply (Permutation_in _ (insert_by_perm x l)) in Hz.
      destruct Hz as [<-|Hz].
      * now apply before_asym.
      * rewrite Forall_forall in Hy. now apply Hy.
    + constructor; [now constructor|].
      constructor; [exact E|].
      eapply Forall_impl; [|exact Hy]. intros z Hz.
      now apply (may_precede_trans x y z).
Qed.

Lemma sort_by_sorted l : StronglySorted may_precede (sort_by before l).
Proof.
  induction l as [|x l IH]; simpl; [constructor|now apply insert_by_sorted].
Qed.

End SortFacts.

Section Stability.
Context {A : Type} (before : A -> A -> bool).

(** A class of elements none of which goes before another keeps its
    order. *)
Lemma insert_by_stable (P : A -> bool) x l :
  (forall a b, P a = true -> P b = true -> before a b = false) ->
  filter P (insert_by before x l) = filter P (x :: l).
Proof.
  intros Hties. induction l as [|y l IH]; [reflexivity|].
  simpl insert_by. destruct (before y x) eqn:E; [|reflexivity].
  simpl filter at 1. rewrite IH. simpl.
  destruct (P y) eqn:Py; destruct (P x) eqn:Px; try reflexivity.
  rewrite (Hties y x Py Px) in E. discriminate.
Qed.

Lemma sort_by_stable (P : A -> bool) l :
  (forall a b, P a = true -> P b = true -> before a b = false) ->
  filter P (sort_by before l) = filter P l.
Proof.
  intros Hties. induction l as [|x l IH]; [reflexivity|].
  simpl sort_by. rewrite insert_by_stable by exact Hties.
  simpl. now rewrite IH.
Qed.

Lemma insert_by_front x l :
  (forall b, In b l -> before b x = false) -> insert_by before x l = x :: l.
Proof.
  destruct l as [|y l]; [reflexivity|]. intros H. simpl.
  now rewrite (H y (or_introl eq_refl)).
Qed.

Lemma insert_by_after x l1 l2 :
  (forall b, In b l1 -> before b x = true) ->
  insert_by before x (l1 ++ l2) = l1 ++ insert_by before x l2.
Proof.
  induction l1 as [|y l1 IH]; intros H; [reflexivity|].
  simpl. rewrite (H y (or_introl eq_refl)). rewrite IH; [reflexivity|].
  intros b Hb. apply H. now right.
Qed.

(** When the elements of [top] in the list are tied among themselves and
    go before all the others, sorting puts them first, in their order. *)
Lemma sort_by_top (top : A -> bool) l :
  (forall a b, In a l -> In b l -> top a = true -> top b = true ->
               before a b = false) ->
  (forall a b, In a l -> In b l -> top a = true -> top b = false ->
               before a b = true /\ before b a = false) ->
  sort_by before l
  = filter top l ++ sort_by before (filter (fun a => negb (top a)) l).
Proof.
  induction l as [|x l IH]; intros Hties Hsep; [reflexivity|].
  simpl sort_by at 1. rewrite IH.
  2:{ intros a b Ha Hb. apply Hties; now right. }
  2:{ intros a b Ha Hb. apply Hsep; now right. }
  assert (Hin : forall b, In b (filter top l ++
                               sort_by before (filter (fun a => negb (top a)) l)) ->
                          In b l).
  { intros b Hb. apply in_app_or in Hb. destruct Hb as [Hb|Hb].
    - now apply filter_In in Hb.
    - apply (Permutation_in _ (sort_by_perm before _)) in Hb.
      now apply filter_In in Hb. }
  simpl filter. destruct (top x) eqn:Tx; simpl negb; cbv iota.
  - rewrite insert_by_front; [reflexivity|].
    intros b Hb. pose proof (Hin b Hb) as Hbl.
    destruct (top b) eqn:Tb.
    + apply Hties; auto; [now right|now left].
    + apply (Hsep x b); auto; [now left|now right].
  - rewrite insert_by_after; [reflexivity|].
    intros b Hb. apply filter_In in Hb. destruct Hb as [Hbl Tb].
    apply (Hsep b x); auto; [now right|now left].
Qed.

End Stability.

(** The result of a stable sort is determined by the list and the order:
    a sorted list in which every class of tied elements stands in the
    order it has in [l] is [sort_by before l], whatever algorithm produced
    it.  [sort_by] therefore stands for [sorted] and [list.sort]. *)
Section Uniqueness.
Context {A : Type} (before : A -> A -> bool).

Hypothesis before_asym : forall x y, before x y = true -> before y x = false.
Hypothesis may_precede_trans :
  forall x y z, before y x = false -> before z y = false -> before z x = false.

Lemma before_irrefl x : before x x = false.
Proof.
  destruct (before x x) eqn:E; [|reflexivity].
  now rewrite (before_asym x x E) in E.
Qed.

Lemma tied_refl x : tied before x x = true.
Proof. unfold tied. now rewrite before_irrefl. Qed.

Lemma sorted_ties_unique (l1 : list A) : forall l2,
  StronglySorted (fun x y => before y x = false) l1 ->
  StronglySorted (fun x y => before y x = false) l2 ->
  (forall x, filter (tied before x) l1 = filter (tied before x) l2) ->
  l1 = l2.
Proof.
  induction l1 as [|a t1 IH]; intros l2 H1 H2 Hties.
  - destruct l2 as [|b t2]; [reflexivity|].
    specialize (Hties b). simpl in Hties. rewrite tied_refl in Hties.
    discriminate.
  - destruct l2 as [|b t2].
    { specialize (Hties a). simpl in Hties. rewrite tied_refl in Hties.
      discriminate. }
    inversion H1 as [|? ? Hs1 Ha]; subst. inversion H2 as [|? ? Hs2 Hb]; subst.
    rewrite Forall_forall in Ha, Hb.
    assert (Hab : a = b).
    { pose proof (Hties a) as Ea. pose proof (Hties b) as Eb.
      simpl in Ea, Eb. rewrite tied_refl in Ea, Eb.
      destruct (tied before a b) eqn:Tab.
      - now injection Ea.
      - assert (Tba : tied before b a = false).
        { unfold tied in *. now rewrite andb_comm. }
        rewrite Tba in Eb.
        assert (Hin_a : In a t2).
        { apply (proj1 (filter_In (tied before a) a t2)).
          rewrite <- Ea. now left. }
        assert (Hin_b : In b t1).
        { apply (proj1 (filter_In (tied before b) b t1)).
          rewrite Eb. now left. }
        pose proof (Ha b Hin_b) as Hba. pose proof (Hb a Hin_a) as Hab'.
        unfold tied in Tab. simpl in Hba, Hab'. rewrite Hba, Hab' in Tab.
        discriminate. }
    subst b. f_equal. apply IH; auto.
    intros x. specialize (Hties x). simpl in Hties.
    destruct (tied before x a); [now injection Hties|exact Hties].
Qed.

Lemma sort_by_unique l l' :
  StronglySorted (fun x y => before y x = false) l' ->
  (forall x, filter (tied before x) l' = filter (tied before x) l) ->
  l' = sort_by before l.
Proof.
  intros Hsorted Hstable. apply sorted_ties_unique.
  - exact Hsorted.
  - now apply sort_by_sorted.
  - intros x. rewrite Hstable. symmetry. apply sort_by_stable.
    intros a b Ha Hb. unfold tied in Ha, Hb.
    apply andb_prop in Ha, Hb. destruct Ha as [Hxa Hax], Hb as [Hxb Hbx].
    apply negb_true_iff in Hxa, Hax, Hxb, Hbx.
    now apply (may_precede_trans b x a).
Qed.

End Uniqueness.

(** ** The order on strings *)

Lemma str_ltb_asym a : forall b, str_ltb a b = true -> str_ltb b a = false.
Proof.
  induction a as [|x a IH]; intros [|y b]; simpl; try congruence.
  destruct (N.ltb_spec x y); destruct (N.ltb_spec y x); try congruence; try lia.
  apply IH.
Qed.

Lemma str_le_antisym a : forall b,
  str_ltb a b = false -> str_ltb b a = false -> a = b.
Proof.
  induction a as [|x a IH]; intros [|y b]; simpl; try congruence.
  destruct (N.ltb_spec x y); destruct (N.ltb_spec y x); try congruence.
  intros H1 H2. assert (x = y) by lia. subst. f_equal. now apply IH.
Qed.

Lemma str_le_trans a : forall b c,
  str_ltb b a = false -> str_ltb c b = false -> str_ltb c a = false.
Proof.
  induction a as [|x a IH]; intros [|y b] [|z c]; simpl; try congruence.
  destruct (N.ltb_spec y x); destruct (N.ltb_spec x y);
    destruct (N.ltb_spec z y); destruct (N.ltb_spec y z);
    destruct (N.ltb_spec z x); destruct (N.ltb_spec x z);
    try congruence; try lia.
  apply IH.
Qed.

Lemma sorted_str_sorted l :
  StronglySorted (fun a b => str_ltb b a = false) (sorted_str l).
Proof.
  apply sort_by_sorted.
  - apply str_ltb_asym.
  - intros x y z. apply str_le_trans.
Qed.

Lemma sorted_unique (l1 : list pystr) : forall l2,
  StronglySorted (fun a b => str_ltb b a = false) l1 ->
  StronglySorted (fun a b => str_ltb b a = false) l2 ->
  Permutation l1 l2 -> l1 = l2.
Proof.
  induction l1 as [|x l1 IH]; intros l2 H1 H2 Hp.
  - apply Permutation_nil in Hp. now subst.
  - destruct l2 as [|y l2]; [now apply Permutation_sym, Permutation_nil in Hp|].
    inversion H1 as [|? ? Hs1 Hx]; subst. inversion H2 as [|? ? Hs2 Hy]; subst.
    assert (x = y).
    { rewrite Forall_forall in Hx, Hy.
      assert (Hxin : In x (y :: l2)) by (apply (Permutation_in _ Hp); now left).
      assert (Hyin : In y (x :: l1))
        by (apply (Permutation_in _ (Permutation_sym Hp)); now left).
      destruct Hxin as [->|Hxin]; [reflexivity|].
      destruct Hyin as [->|Hyin]; [reflexivity|].
      apply str_le_antisym; [now apply Hy|now apply Hx]. }
    subst y. f_equal. apply IH; auto. now apply Permutation_cons_inv in Hp.
Qed.

(** [sorted] of a set does not depend on the order in which the set is
    enumerated. *)
Lemma sorted_str_perm l1 l2 :
  Permutation l1 l2 -> sorted_str l1 = sorted_str l2.
Proof.
  intros Hp. apply sorted_unique; try apply sorted_str_sorted.
  unfold sorted_str. rewrite !sort_by_perm. exact Hp.
Qed.

(** ** Dictionaries *)

Lemma dmem_dset_same {V} (d : dict V) k v : dmem (dset d k v) k = true.
Proof.
  unfold dmem. induction d as [|[k' v'] d IH]; simpl.
  - now rewrite pystr_eqb_refl.
  - destruct (pystr_eqb k' k) eqn:E; simpl; rewrite E; [reflexivity|exact IH].
Qed.

Lemma dmem_dset_other {V} (d : dict V) k v k' :
  dmem d k' = true -> dmem (dset d k v) k' = true.
Proof.
  unfold dmem. induction d as [|[k0 v0] d IH]; simpl; [discriminate|].
  destruct (pystr_eqb k0 k) eqn:E; simpl.
  - destruct (pystr_eqb k0 k'); [reflexivity|auto].
  - destruct (pystr_eqb k0 k'); [reflexivity|auto].
Qed.

Lemma dset_length {V} (d : dict V) k v :
  length (dset d k v) = if dmem d k then length d else S (length d).
Proof.
  unfold dmem. induction d as [|[k' v'] d IH]; simpl; [reflexivity|].
  destruct (pystr_eqb k' k); simpl; [reflexivity|].
  rewrite IH. now destruct (dget d k).
Qed.

(** ** Who is available on a date *)

Lemma available_on_fold idx date :
  available_on idx date = fold_left (available_step date) idx [].
Proof.
  unfold available_on. apply fold_left_pointwise. now intros ma [m sch].
Qed.

Lemma available_step_length date ma entry :
  (length ma <= length (available_step date ma entry) <= S (length ma))%nat.
Proof.
  unfold available_step. destruct (dget (snd entry) date) as [[|s l]|]; try lia.
  rewrite dset_length. destruct (dmem ma (fst entry)); lia.
Qed.

Lemma available_step_keeps date ma entry k :
  dmem ma k = true -> dmem (available_step date ma entry) k = true.
Proof.
  intros H. unfold available_step.
  destruct (dget (snd entry) date) as [[|s l]|]; auto.
  now apply dmem_dset_other.
Qed.

Lemma available_fold_keeps date idx : forall ma k,
  dmem ma k = true -> dmem (fold_left (available_step date) idx ma) k = true.
Proof.
  induction idx as [|entry idx IH]; intros ma k H; simpl; [exact H|].
  apply IH. now apply available_step_keeps.
Qed.

Lemma available_fold_length date idx : forall ma,
  (length (fold_left (available_step date) idx ma) <= length ma + length idx)%nat.
Proof.
  induction idx as [|entry idx IH]; intros ma; simpl; [lia|].
  specialize (IH (available_step date ma entry)).
  pose proof (available_step_length date ma entry). lia.
Qed.

Lemma available_fold_full date idx : forall ma,
  length (fold_left (available_step date) idx ma) = (length ma + length idx)%nat ->
  forall k, In k (dkeys idx) ->
            dmem (fold_left (available_step date) idx ma) k = true.
Proof.
  induction idx as [|entry idx IH]; intros ma Hlen k Hk; [contradiction|].
  simpl in Hlen |- *.
  pose proof (available_fold_length date idx (available_step date ma entry)) as Hb.
  pose proof (available_step_length date ma entry) as Hs.
  destruct Hk as [<-|Hk].
  - apply available_fold_keeps.
    unfold available_step in *.
    destruct (dget (snd entry) date) as [[|s l]|]; try lia.
    apply dmem_dset_same.
  - apply IH; [lia|exact Hk].
Qed.

Lemma available_count_le idx date : (available_count idx date <= length idx)%nat.
Proof.
  unfold available_count. rewrite available_on_fold.
  pose proof (available_fold_length date idx []). simpl in *. lia.
Qed.

Lemma nobody_unavailable idx date :
  available_count idx date = length idx ->
  filter (fun m => negb (dmem (available_on idx date) m)) (dkeys idx) = [].
Proof.
  unfold available_count. rewrite available_on_fold. intros Hlen.
  pose proof (available_fold_full date idx [] Hlen) as Hfull.
  induction (dkeys idx) as [|k ks IH]; [reflexivity|].
  simpl. rewrite (Hfull k) by now left. simpl.
  apply IH. intros k' Hk'. apply Hfull. now right.
Qed.

(** ** One date of the loop *)

Lemma date_step_app idx d perfect alternative date :
  date_step idx d (perfect, alternative) date
  = (perfect ++ fst (candidates_of_date idx d date),
     alternative ++ snd (candidates_of_date idx d date)).
Proof.
  unfold candidates_of_date, date_step.
  destruct (length (available_on idx date) =? 0)%nat.
  - simpl. now rewrite !app_nil_r.
  - destruct (length (available_on idx date) =? length idx)%nat;
      destruct (2 <=? length (available_on idx date))%nat; simpl;
      now rewrite ?app_nil_r.
Qed.

Lemma date_loop_from idx d dates : forall perfect alternative,
  fold_left (date_step idx d) dates (perfect, alternative)
  = (perfect ++ flat_map (fun date => fst (candidates_of_date idx d date)) dates,
     alternative ++ flat_map (fun date => snd (candidates_of_date idx d date)) dates).
Proof.
  induction dates as [|date dates IH]; intros perfect alternative;
    cbn [fold_left flat_map].
  - now rewrite !app_nil_r.
  - rewrite date_step_app, IH. now rewrite <- !app_assoc.
Qed.

Lemma date_loop_flat idx d dates :
  date_loop idx d dates
  = (flat_map (fun date => fst (candidates_of_date idx d date)) dates,
     flat_map (fun date => snd (candidates_of_date idx d date)) dates).
Proof. unfold date_loop. now rewrite date_loop_from. Qed.

(** The candidates of a date, case by case. *)
Lemma candidates_of_date_eq idx d dt :
  candidates_of_date idx d dt
  = if (available_count idx dt =? 0)%nat then ([], [])
    else
      (if (available_count idx dt =? length idx)%nat then
         map (fun slot => mk_slot dt (fst slot) (snd slot)
                            (dkeys (available_on idx dt)) [] None)
             (_find_common_slots (available_on idx dt) d)
       else [],
       if (2 <=? available_count idx dt)%nat then
         map (fun slot => mk_slot dt (fst slot) (snd slot)
                            (dkeys (available_on idx dt))
                            (filter (fun m => negb (dmem (available_on idx dt) m))
                                    (dkeys idx))
                            (Some (true_div (available_count idx dt) (length idx))))
             (_find_common_slots (available_on idx dt) d)
       else []).
Proof.
  unfold candidates_of_date, date_step, available_count.
  destruct (length (available_on idx dt) =? 0)%nat; [reflexivity|].
  destruct (length (available_on idx dt) =? length idx)%nat;
    destruct (2 <=? length (available_on idx dt))%nat; reflexivity.
Qed.

Lemma candidates_date idx d dt s :
  In s (fst (candidates_of_date idx d dt)) \/ In s (snd (candidates_of_date idx d dt)) ->
  date s = dt.
Proof.
  rewrite candidates_of_date_eq.
  destruct (available_count idx dt =? 0)%nat; [simpl; tauto|].
  destruct (available_count idx dt =? length idx)%nat;
    destruct (2 <=? available_count idx dt)%nat; simpl;
    rewrite ?in_map_iff; intros [H|H];
    try contradiction; destruct H as (slot & <- & _); reflexivity.
Qed.

(** ** Coverage *)

Lemma Zpos_of_nat n : (1 <= n)%nat -> Z.pos (Pos.of_nat n) = Z.of_nat n.
Proof.
  intros H. rewrite <- (positive_nat_Z (Pos.of_nat n)).
  rewrite Nat2Pos.id by lia. reflexivity.
Qed.

Lemma true_div_full n : (1 <= n)%nat -> true_div n n = 1%Q.
Proof.
  intros H. unfold true_div.
  change 1%Q with (Qred 1). apply Qred_complete.
  unfold Qeq. simpl. rewrite Zpos_of_nat by exact H. lia.
Qed.

Lemma true_div_partial a b : (a < b)%nat -> (true_div a b < 1)%Q.
Proof.
  intros H. unfold true_div. rewrite Qred_correct.
  unfold Qlt. simpl. rewrite Zpos_of_nat by lia. lia.
Qed.

Lemma Qlt_bool_iff a b : Qlt_bool a b = true <-> (a < b)%Q.
Proof.
  unfold Qlt_bool. rewrite negb_true_iff. split.
  - intros H. apply Qnot_le_lt. intros Hle. apply Qle_bool_iff in Hle. congruence.
  - intros H. destruct (Qle_bool b a) eqn:E; [|reflexivity].
    apply Qle_bool_iff in E. exfalso. exact (Qlt_not_le _ _ H E).
Qed.

Lemma Qlt_bool_false a b : Qlt_bool a b = false <-> (b <= a)%Q.
Proof.
  unfold Qlt_bool. rewrite negb_false_iff. apply Qle_bool_iff.
Qed.

Lemma StronglySorted_impl {A} (R R' : A -> A -> Prop) l :
  (forall x y, R x y -> R' x y) -> StronglySorted R l -> StronglySorted R' l.
Proof.
  intros HR. induction 1 as [|x l Hl IH Hx]; constructor; [exact IH|].
  eapply Forall_impl; [|exact Hx]. intros y. apply HR.
Qed.

Lemma sort_by_coverage_sorted l : StronglySorted descending (sort_by_coverage l).
Proof.
  unfold sort_by_coverage.
  apply (StronglySorted_impl
           (fun x y => Qlt_bool (coverage_key x) (coverage_key y) = false)).
  - intros x y Hxy. unfold descending. now apply Qlt_bool_false in Hxy.
  - apply (sort_by_sorted
             (fun y x => Qlt_bool (coverage_key x) (coverage_key y))).
    + intros x y Hxy. apply Qlt_bool_iff in Hxy. apply Qlt_bool_false.
      now apply Qlt_le_weak.
    + intros x y z Hxy Hyz. apply Qlt_bool_false in Hxy, Hyz.
      apply Qlt_bool_false. eapply Qle_trans; eauto.
Qed.

(** ** The result lists *)

Lemma str_ltb_irrefl a : str_ltb a a = false.
Proof.
  destruct (str_ltb a a) eqn:E; [|reflexivity].
  now rewrite (str_ltb_asym a a E) in E.
Qed.

Lemma in_firstn {A} n (l : list A) x : In x (firstn n l) -> In x l.
Proof.
  intros H. rewrite <- (firstn_skipn n l). apply in_or_app. now left.
Qed.

Lemma StronglySorted_firstn {A} (R : A -> A -> Prop) n l :
  StronglySorted R l -> StronglySorted R (firstn n l).
Proof.
  revert l. induction n as [|n IH]; intros l H; [constructor|].
  destruct l as [|x l]; [constructor|]. simpl.
  inversion H as [|? ? Hl Hx]; subst. constructor; [now apply IH|].
  apply Forall_forall. intros y Hy. rewrite Forall_forall in Hx.
  apply Hx. now apply in_firstn in Hy.
Qed.

Lemma StronglySorted_app_intro {A} (R : A -> A -> Prop) l1 l2 :
  StronglySorted R l1 -> StronglySorted R l2 ->
  (forall x y, In x l1 -> In y l2 -> R x y) ->
  StronglySorted R (l1 ++ l2).
Proof.
  induction 1 as [|x l1 Hl IH Hx]; intros H2 H12; [exact H2|].
  simpl. constructor.
  - apply IH; [exact H2|]. intros a b Ha Hb. apply H12; [now right|exact Hb].
  - apply Forall_app. split; [exact Hx|].
    apply Forall_forall. intros y Hy. apply H12; [now left|exact Hy].
Qed.

Lemma constant_sorted {A} (R : A -> A -> Prop) a l :
  R a a -> Forall (fun x => x = a) l -> StronglySorted R l.
Proof.
  intros Ha. induction 1 as [|x l -> Hl IH]; constructor; [exact IH|].
  eapply Forall_impl; [|exact Hl]. now intros y ->.
Qed.

(** Candidates gathered date by date carry dates in the order of the
    dates. *)
Lemma dates_in_order (f : pystr -> list slot) dates :
  (forall dt s, In s (f dt) -> date s = dt) ->
  StronglySorted (fun a b => str_ltb b a = false) dates ->
  StronglySorted (fun a b => str_ltb b a = false) (map date (flat_map f dates)).
Proof.
  intros Hf. induction 1 as [|dt dates Hs IH Hdt]; simpl; [constructor|].
  rewrite map_app. apply StronglySorted_app_intro.
  - apply (constant_sorted _ dt); [apply str_ltb_irrefl|].
    apply Forall_forall. intros x Hx. apply in_map_iff in Hx.
    destruct Hx as (s & <- & Hs'). now apply Hf.
  - exact IH.
  - intros x y Hx Hy. apply in_map_iff in Hx, Hy.
    destruct Hx as (s & <- & Hsx). destruct Hy as (s' & <- & Hsy).
    apply in_flat_map in Hsy. destruct Hsy as (dt' & Hdt' & Hsy).
    rewrite (Hf dt s Hsx), (Hf dt' s' Hsy).
    rewrite Forall_forall in Hdt. now apply Hdt.
Qed.

Lemma find_from_eq enum idx d :
  idx <> [] ->
  find_from enum idx d
  = mk_results (fst (date_loop idx d (sorted_str enum)))
               (firstn 10 (sort_by_coverage (snd (date_loop idx d (sorted_str enum))))).
Proof.
  intros H. unfold find_from. destruct idx as [|e idx]; [now elim H|].
  now destruct (date_loop (e :: idx) d (sorted_str enum)).
Qed.

Lemma has_coverage_ties c a b :
  has_coverage c a = true -> has_coverage c b = true ->
  Qlt_bool (coverage_key b) (coverage_key a) = false.
Proof.
  unfold has_coverage. intros Ha Hb. apply Qeq_bool_iff in Ha, Hb.
  apply Qlt_bool_false. rewrite Ha, Hb. apply Qle_refl.
Qed.

Lemma find_best_meeting_time_eq idx d :
  find_best_meeting_time idx d
  = mk_results
      (flat_map (fun date => fst (candidates_of_date idx d date))
                (sorted_str (all_dates idx)))
      (firstn 10
         (sort_by_coverage
            (flat_map (fun date => snd (candidates_of_date idx d date))
                      (sorted_str (all_dates idx))))).
Proof.
  unfold find_best_meeting_time. destruct idx as [|e idx]; [reflexivity|].
  rewrite find_from_eq by discriminate. now rewrite date_loop_flat.
Qed.

Lemma in_perfect_slots idx d s :
  In s (perfect_slots (find_best_meeting_time idx d)) ->
  In s (fst (candidates_of_date idx d (date s))).
Proof.
  rewrite find_best_meeting_time_eq. cbn [perfect_slots]. rewrite in_flat_map.
  intros (dt & _ & Hs).
  now rewrite (candidates_date idx d dt s (or_introl Hs)).
Qed.

Lemma in_best_alternative_slots idx d s :
  In s (best_alternative_slots (find_best_meeting_time idx d)) ->
  In s (snd (candidates_of_date idx d (date s))).
Proof.
  rewrite find_best_meeting_time_eq. cbn [best_alternative_slots]. intros Hs.
  apply in_firstn in Hs.
  apply (Permutation_in _ (sort_by_perm _ _)) in Hs.
  apply in_flat_map in Hs. destruct Hs as (dt & _ & Hs).
  now rewrite (candidates_date idx d dt s (or_intror Hs)).
Qed.

(** C4, the claim as it stands fails: with Alice the only participant,
    her Monday is a date with exactly one participant available, and it
    contributes a perfect slot. *)
Lemma lone_participant_gets_perfect_slot :
  ~ (forall idx d dt,
       available_count idx dt = 1%nat ->
       forall s,
         In s (perfect_slots (find_best_meeting_time idx d))
         \/ In s (best_alternative_slots (find_best_meeting_time idx d)) ->
         date s <> dt).
Proof.
  intros H.
  apply (H example_single (DFinite 1) (py "Mon") eq_refl
           (mk_slot (py "Mon") 9 12 [py "Alice"] [] None)).
  - left. vm_compute. now left.
  - reflexivity.
Qed.

(** ** Perfect slots among the alternatives *)

Lemma filter_flat_map {A B} (p : B -> bool) (f : A -> list B) l :
  filter p (flat_map f l) = flat_map (fun a => filter p (f a)) l.
Proof.
  induction l as [|a l IH]; simpl; [reflexivity|].
  now rewrite filter_app, IH.
Qed.

Lemma filter_all {A} (p : A -> bool) l :
  (forall a, In a l -> p a = true) -> filter p l = l.
Proof.
  induction l as [|a l IH]; intros H; simpl; [reflexivity|].
  rewrite (H a) by now left. f_equal. apply IH. intros b Hb. apply H. now right.
Qed.

Lemma filter_none {A} (p : A -> bool) l :
  (forall a, In a l -> p a = false) -> filter p l = [].
Proof.
  induction l as [|a l IH]; intros H; simpl; [reflexivity|].
  rewrite (H a) by now left. apply IH. intros b Hb. apply H. now right.
Qed.

Lemma below_full_coverage s :
  (coverage_key s < 1)%Q -> has_coverage 1 s = false.
Proof.
  intros H. unfold has_coverage. destruct (Qeq_bool (coverage_key s) 1) eqn:E;
    [|reflexivity].
  apply Qeq_bool_iff in E. rewrite E in H. now apply Qlt_irrefl in H.
Qed.

(** On every date the alternatives with coverage 1 are the perfect slots
    of that date, and the other alternatives have a smaller coverage. *)
Lemma candidates_full_coverage idx d dt :
  (2 <= length idx)%nat ->
  filter (has_coverage 1) (snd (candidates_of_date idx d dt))
  = map with_full_coverage (fst (candidates_of_date idx d dt))
  /\ forall s, In s (snd (candidates_of_date idx d dt)) ->
               has_coverage 1 s = true \/ (coverage_key s < 1)%Q.
Proof.
  intros Htwo. rewrite candidates_of_date_eq.
  destruct (available_count idx dt =? 0)%nat; [split; [reflexivity|contradiction]|].
  destruct (Nat.eqb_spec (available_count idx dt) (length idx)) as [Hall|Hsome];
    cbn [fst snd].
  - rewrite Hall. replace (2 <=? length idx)%nat with true
      by (symmetry; apply Nat.leb_le; exact Htwo).
    rewrite (nobody_unavailable idx dt Hall), true_div_full by lia.
    rewrite map_map. cbn [with_full_coverage date start_time end_time
                           members_available members_unavailable].
    split.
    + apply filter_all. intros s Hs. apply in_map_iff in Hs.
      destruct Hs as (slot & <- & _). reflexivity.
    + intros s Hs. left. apply in_map_iff in Hs.
      destruct Hs as (slot & <- & _). reflexivity.
  - assert (Hlt : (available_count idx dt < length idx)%nat).
    { pose proof (available_count_le idx dt). lia. }
    destruct (2 <=? available_count idx dt)%nat; [|split; [reflexivity|contradiction]].
    assert (Hkey : forall s,
               In s (map (fun slot => mk_slot dt (fst slot) (snd slot)
                            (dkeys (available_on idx dt))
                            (filter (fun m => negb (dmem (available_on idx dt) m))
                                    (dkeys idx))
                            (Some (true_div (available_count idx dt) (length idx))))
                         (_find_common_slots (available_on idx dt) d)) ->
               (coverage_key s < 1)%Q).
    { intros s Hs. apply in_map_iff in Hs. destruct Hs as (slot & <- & _).
      unfold coverage_key. cbn [coverage]. now apply true_div_partial. }
    split.
    + simpl map at 2. apply filter_none. intros s Hs.
      apply below_full_coverage. now apply Hkey.
    + intros s Hs. right. now apply Hkey.
Qed.

(** With two participants or more, the stable sort puts the perfect slots
    first. *)
Lemma perfect_slots_sorted_first idx d (dates : list pystr) :
  (2 <= length idx)%nat ->
  exists others,
    sort_by_coverage
      (flat_map (fun date => snd (candidates_of_date idx d date)) dates)
    = map with_full_coverage
          (flat_map (fun date => fst (candidates_of_date idx d date)) dates)
      ++ others.
Proof.
  intros Htwo.
  assert (Htop : filter (has_coverage 1)
                        (flat_map (fun date => snd (candidates_of_date idx d date)) dates)
                 = map with_full_coverage
                       (flat_map (fun date => fst (candidates_of_date idx d date)) dates)).
  { rewrite filter_flat_map.
    induction dates as [|dt dates IH]; [reflexivity|].
    simpl. rewrite map_app, <- IH.
    now rewrite (proj1 (candidates_full_coverage idx d dt Htwo)). }
  set (alts := flat_map (fun date => snd (candidates_of_date idx d date)) dates) in *.
  assert (Hkeys : forall s, In s alts ->
                            has_coverage 1 s = true \/ (coverage_key s < 1)%Q).
  { intros s Hs. apply in_flat_map in Hs. destruct Hs as (dt & _ & Hs).
    now apply (proj2 (candidates_full_coverage idx d dt Htwo)). }
  exists (sort_by_coverage (filter (fun a => negb (has_coverage 1 a)) alts)).
  rewrite <- Htop. unfold sort_by_coverage. apply sort_by_top.
  - intros a b _ _ Ha Hb. now apply (has_coverage_ties 1).
  - intros a b _ Hb Ha Hnb.
    destruct (Hkeys b Hb) as [Hb'|Hb']; [congruence|].
    unfold has_coverage in Ha. apply Qeq_bool_iff in Ha.
    split.
    + apply Qlt_bool_iff. now rewrite Ha.
    + apply Qlt_bool_false. rewrite Ha. now apply Qlt_le_weak.
Qed.

Lemma firstn_prefix {A} (top others : list A) :
  firstn 10 top = firstn (length top) (firstn 10 (top ++ others)).
Proof.
  rewrite firstn_firstn, firstn_app.
  replace (Nat.min (length top) 10 - length top)%nat with 0%nat by lia.
  simpl firstn at 2. rewrite app_nil_r.
  destruct (Nat.le_gt_cases (length top) 10) as [H|H].
  - rewrite Nat.min_l by exact H.
    rewrite !firstn_all2; [reflexivity|lia|exact H].
  - rewrite Nat.min_r by lia. reflexivity.
Qed.

(** C5, the claim as it stands fails twice: a single participant has
    perfect slots and no alternative at all, and of eleven perfect slots
    the last has no counterpart among the ten alternatives returned. *)
Lemma perfect_slot_without_counterpart :
  ~ (forall idx d s,
       In s (perfect_slots (find_best_meeting_time idx d)) ->
       exists s', In s' (best_alternative_slots (find_best_meeting_time idx d))
                  /\ counterpart s s')
  /\ ~ (forall idx d s,
          (2 <= length idx)%nat ->
          In s (perfect_slots (find_best_meeting_time idx d)) ->
          exists s', In s' (best_alternative_slots (find_best_meeting_time idx d))
                     /\ counterpart s s').
Proof.
  split.
  - intros H.
    destruct (H example_single (DFinite 1)
                (mk_slot (py "Mon") 9 12 [py "Alice"] [] None))
      as (s' & Hs' & _).
    + vm_compute. now left.
    + vm_compute in Hs'. exact Hs'.
  - intros H.
    destruct (H example_eleven (DFinite 1)
                (mk_slot [68%N; 75%N] 9 12 [py "Ann"; py "Ben"] [] None))
      as (s' & Hs' & Hdate & _).
    + vm_compute. lia.
    + vm_compute. do 10 right. now left.
    + vm_compute in Hs'.
      repeat (destruct Hs' as [Hs'|Hs']; [rewrite <- Hs' in Hdate; discriminate|]).
      exact Hs'.
Qed.

(** C5, amended.  When the index holds two participants or more, the
    first ten candidates of [perfect_slots] are, with the same date,
    interval and members and with coverage exactly 1, the leading entries
    of [best_alternative_slots], in the same order; so every perfect slot
    has its counterpart there when there are at most ten of them. *)
Theorem perfect_slots_lead_alternatives :
  forall (idx : index) (d : duration),
    (2 <= length idx)%nat ->
    firstn 10 (map with_full_coverage
                   (perfect_slots (find_best_meeting_time idx d)))
    = firstn (length (perfect_slots (find_best_meeting_time idx d)))
             (best_alternative_slots (find_best_meeting_time idx d))
    /\ (forall s,
          In s (firstn 10 (perfect_slots (find_best_meeting_time idx d))) ->
          In (with_full_coverage s)
             (best_alternative_slots (find_best_meeting_time idx d))
          /\ counterpart s (with_full_coverage s)).
Proof.
  intros idx d Htwo.
  assert (Hlead :
    firstn 10 (map with_full_coverage
                   (perfect_slots (find_best_meeting_time idx d)))
    = firstn (length (perfect_slots (find_best_meeting_time idx d)))
             (best_alternative_slots (find_best_meeting_time idx d))).
  { rewrite find_best_meeting_time_eq. cbn [perfect_slots best_alternative_slots].
    destruct (perfect_slots_sorted_first idx d (sorted_str (all_dates idx)) Htwo)
      as [others ->].
    rewrite (firstn_prefix _ others). now rewrite length_map. }
  split; [exact Hlead|].
  intros s Hs. split; [|repeat split].
  eapply in_firstn. rewrite <- Hlead.
  rewrite firstn_map. now apply in_map.
Qed.

(** The Monday of the team of three: its perfect slot 10-12 leads the
    alternatives. *)
Lemma perfect_slots_lead_alternatives_witness :
  (2 <= length example_team)%nat
  /\ firstn 10 (map with_full_coverage
                    (perfect_slots (find_best_meeting_time example_team (DFinite 1))))
     = firstn (length (perfect_slots (find_best_meeting_time example_team (DFinite 1))))
              (best_alternative_slots (find_best_meeting_time example_team (DFinite 1))).
Proof.
  assert (H : (2 <= length example_team)%nat) by (simpl; lia).
  split; [exact H|].
  exact (proj1 (perfect_slots_lead_alternatives example_team (DFinite 1) H)).
Defined.

(** ** [format_time] *)

Section Decimal.
Context {U : UnicodeDB}.

Lemma py_int_snoc s c : py_int (s ++ [c]) = 10 * py_int s + digit_value c.
Proof. unfold py_int. now rewrite fold_left_app. Qed.

Lemma digit_char_value n : (n < 10)%nat -> digit_value (digit_char n) = Z.of_nat n.
Proof.
  intros H. unfold digit_value, digit_char.
  rewrite decimal_ascii by (unfold is_ascii; lia).
  unfold ascii_decimal.
  replace ((48 <=? 48 + N.of_nat n)%N && (48 + N.of_nat n <=? 57)%N) with true.
  - lia.
  - symmetry. apply andb_true_iff. split; apply N.leb_le; lia.
Qed.

(** [str] of a natural number is read back by [int]. *)
Lemma str_of_nat_value fuel : forall n,
  (n < fuel)%nat -> py_int (str_of_nat_fuel fuel n) = Z.of_nat n.
Proof.
  induction fuel as [|fuel IH]; intros n Hn; [lia|].
  cbn [str_of_nat_fuel]. destruct (Nat.ltb_spec n 10) as [Hlt|Hge].
  - unfold py_int. cbn [fold_left]. rewrite digit_char_value by exact Hlt. lia.
  - rewrite py_int_snoc.
    assert (Hdiv : (n / 10 < n)%nat) by (apply Nat.div_lt; lia).
    rewrite IH by lia.
    rewrite digit_char_value by (apply Nat.mod_upper_bound; lia).
    rewrite (Nat.div_mod_eq n 10) at 3. lia.
Qed.

Lemma str_of_Z_value n : 0 <= n -> py_int (str_of_Z n) = n.
Proof.
  intros H. unfold str_of_Z.
  destruct (Z.ltb_spec n 0); [lia|].
  rewrite str_of_nat_value by lia. lia.
Qed.

End Decimal.

(** C8.  For every hour in [0, 24), [format_time] returns the entry of
    the table 12AM, 1AM .. 11AM, 12PM, 1PM .. 11PM: "12AM" for 0, the
    decimal hour followed by "AM" for 1 to 11, "12PM" for 12 and the
    decimal of the hour minus 12 followed by "PM" for 13 to 23. *)
Theorem format_time_exact :
  forall hour : Z,
    0 <= hour < 24 ->
    format_time hour = nth (Z.to_nat hour) format_time_table []
    /\ (hour = 0 -> format_time hour = py "12AM")
    /\ (1 <= hour <= 11 -> format_time hour = str_of_Z hour ++ py "AM")
    /\ (hour = 12 -> format_time hour = py "12PM")
    /\ (13 <= hour <= 23 -> format_time hour = str_of_Z (hour - 12) ++ py "PM").
Proof.
  intros hour Hh.
  assert (Hn : exists n, (n < 24)%nat /\ hour = Z.of_nat n).
  { exists (Z.to_nat hour). split; lia. }
  destruct Hn as (n & Hn & ->).
  do 24 (destruct n as [|n];
         [repeat split; intros; first [reflexivity|lia]|]).
  lia.
Qed.

Lemma format_time_exact_witness :
  0 <= 13 < 24 /\ format_time 13 = py "1PM".
Proof.
  assert (H : 0 <= 13 < 24) by lia.
  split; [exact H|]. exact (proj1 (format_time_exact 13 H)).
Defined.

(** ** Determinism *)

(** C9.  The core is deterministic.  Whatever the scheduler objects held
    before, [parse_availability] on equal tables produces equal schedule
    maps, also when the index is built a second time; and whatever the
    order in which the set of dates is enumerated,
    [find_best_meeting_time] on that index with one duration produces one
    and the same result. *)
Theorem core_is_deterministic :
  forall (U : UnicodeDB) (table : dataframe) (self self' : scheduler)
         (d : duration) (enum enum' : list pystr),
    availability_data self = Some table ->
    availability_data self' = Some table ->
    Permutation enum (all_dates (fst (parse_availability self))) ->
    Permutation enum' (all_dates (fst (parse_availability self))) ->
    fst (parse_availability self') = fst (parse_availability self)
    /\ parsed_schedules (snd (parse_availability self))
       = fst (parse_availability self)
    /\ parse_availability (snd (parse_availability self'))
       = parse_availability self'
    /\ parsed_schedules (snd (parse_availability (snd (parse_availability self'))))
       = fst (parse_availability self)
    /\ find_from enum (parsed_schedules (snd (parse_availability self))) d
       = find_from enum'
           (parsed_schedules (snd (parse_availability (snd (parse_availability self'))))) d
    /\ find_from enum (fst (parse_availability self)) d
       = find_best_meeting_time (fst (parse_availability self)) d.
Proof.
  intros U table self self' d enum enum' Hself Hself' Henum Henum'.
  assert (Hsame : fst (parse_availability self') = fst (parse_availability self)).
  { unfold parse_availability. now rewrite Hself, Hself'. }
  assert (Hstate : parsed_schedules (snd (parse_availability self))
                   = fst (parse_availability self)).
  { unfold parse_availability. now rewrite Hself. }
  assert (Hagain : parse_availability (snd (parse_availability self'))
                   = parse_availability self').
  { unfold parse_availability. rewrite Hself'. reflexivity. }
  assert (Hfind : forall e e' idx,
             Permutation e (all_dates idx) -> Permutation e' (all_dates idx) ->
             find_from e idx d = find_from e' idx d).
  { intros e e' idx He He'. unfold find_from. destruct idx; [reflexivity|].
    rewrite (sorted_str_perm e e'); [reflexivity|].
    now rewrite He, He'. }
  split; [exact Hsame|]. split; [exact Hstate|]. split; [exact Hagain|].
  assert (Htwice : parsed_schedules (snd (parse_availability (snd (parse_availability self'))))
                   = fst (parse_availability self)).
  { rewrite Hagain, <- Hsame. unfold parse_availability. now rewrite Hself'. }
  split; [exact Htwice|]. split.
  - rewrite Hstate, Htwice. now apply Hfind.
  - unfold find_best_meeting_time. apply Hfind; [exact Henum|reflexivity].
Qed.

(** Two scheduler objects with the table of the scenarios, one fresh and
    one holding a stale index, the dates enumerated in both orders. *)
Lemma core_is_deterministic_witness :
  find_from (rev [py "Mon"; py "Tue"])
    (parsed_schedules
       (snd (@parse_availability ascii_db (mk_scheduler (Some example_table) []))))
    (DFinite 1)
  = find_from [py "Mon"; py "Tue"]
      (parsed_schedules
         (snd (@parse_availability ascii_db
                 (snd (@parse_availability ascii_db
                         (mk_scheduler (Some example_table) example_single))))))
      (DFinite 1).
Proof.
  exact (proj1 (proj2 (proj2 (proj2 (proj2
    (core_is_deterministic ascii_db example_table
       (mk_scheduler (Some example_table) [])
       (mk_scheduler (Some example_table) example_single)
       (DFinite 1) (rev [py "Mon"; py "Tue"]) [py "Mon"; py "Tue"]
       eq_refl eq_refl
       (Permutation_sym (Permutation_rev [py "Mon"; py "Tue"]))
       (Permutation_refl [py "Mon"; py "Tue"]))))))).
Defined.

(** ** Dictionaries are well formed *)

Lemma dmem_false_not_in {V} (d : dict V) k : dmem d k = false <-> ~ In k (dkeys d).
Proof.
  unfold dmem. induction d as [|[k' v'] d IH]; simpl; [tauto|].
  destruct (pystr_eqb k' k) eqn:E.
  - apply pystr_eqb_eq in E. subst. split; [discriminate|tauto].
  - rewrite IH. split; [|tauto]. intros H [->|H']; [|tauto].
    now rewrite pystr_eqb_refl in E.
Qed.

Lemma dset_absent {V} (d : dict V) k v :
  dmem d k = false -> dset d k v = d ++ [(k, v)].
Proof.
  unfold dmem. induction d as [|[k' v'] d IH]; simpl; [reflexivity|].
  destruct (pystr_eqb k' k); [discriminate|]. intros H. now rewrite IH.
Qed.

Lemma dkeys_dset {V} (d : dict V) k v :
  dkeys (dset d k v) = if dmem d k then dkeys d else dkeys d ++ [k].
Proof.
  unfold dmem, dkeys. induction d as [|[k' v'] d IH]; simpl; [reflexivity|].
  destruct (pystr_eqb k' k); simpl; [reflexivity|].
  rewrite IH. now destruct (dget d k).
Qed.

Lemma dset_ok {V} (d : dict V) k v : dict_ok d -> dict_ok (dset d k v).
Proof.
  unfold dict_ok. intros H. rewrite dkeys_dset.
  destruct (dmem d k) eqn:E; [exact H|].
  apply dmem_false_not_in in E.
  apply NoDup_app; [exact H|repeat constructor; simpl; tauto|].
  intros x Hx [<-|[]]. contradiction.
Qed.

Lemma fold_dset_ok {V B} (f : dict V -> B -> dict V) (l : list B) :
  (forall d b, dict_ok d -> dict_ok (f d b)) ->
  forall d, dict_ok d -> dict_ok (fold_left f l d).
Proof.
  intros Hf. induction l as [|b l IH]; intros d Hd; simpl; auto.
Qed.

(** The index that [parse_availability] builds has no participant twice
    and, for each participant, no date twice. *)
Lemma parse_availability_ok {U : UnicodeDB} (self : scheduler) :
  dict_ok (fst (parse_availability self))
  /\ Forall (fun member_schedule => dict_ok member_schedule)
            (dvalues (fst (parse_availability self))).
Proof.
  unfold parse_availability. destruct (availability_data self) as [df|];
    [|split; constructor].
  simpl fst.
  assert (Hrow : forall schedules row,
             dict_ok schedules /\ Forall (fun ms => dict_ok ms) (dvalues schedules) ->
             dict_ok (parse_row (date_columns df) schedules row)
             /\ Forall (fun ms => dict_ok ms)
                       (dvalues (parse_row (date_columns df) schedules row))).
  { intros schedules row [Hok Hall]. unfold parse_row.
    destruct (strip (fst row)) as [|c name]; [now split|].
    destruct (existsb _ null_markers); [now split|].
    split; [now apply dset_ok|].
    assert (Hms : dict_ok
              (fold_left
                 (fun member_schedule '(date_col, availability_str) =>
                    dset member_schedule date_col (parse_time_slot availability_str))
                 (combine (date_columns df) (snd row)) [])).
    { apply fold_dset_ok; [|constructor].
      intros ms [date_col cell] Hd. now apply dset_ok. }
    revert Hms. generalize (fold_left
                 (fun member_schedule '(date_col, availability_str) =>
                    dset member_schedule date_col (parse_time_slot availability_str))
                 (combine (date_columns df) (snd row)) []).
    intros ms Hms. clear Hok.
    induction schedules as [|[k v] schedules IH]; simpl.
    - repeat constructor. exact Hms.
    - inversion Hall; subst.
      destruct (pystr_eqb k (c :: name)); simpl; constructor; auto. }
  assert (Hnil : forall acc,
             dict_ok acc /\ Forall (fun ms => dict_ok ms) (dvalues acc) ->
             dict_ok (fold_left (parse_row (date_columns df)) (rows df) acc)
             /\ Forall (fun ms => dict_ok ms)
                       (dvalues (fold_left (parse_row (date_columns df)) (rows df) acc))).
  { induction (rows df) as [|row l IH]; intros acc Hacc; simpl; [exact Hacc|].
    apply IH. now apply Hrow. }
  apply Hnil. split; constructor.
Qed.

(** In a well-formed index the dictionary [members_available] of a date
    lists the participants with a non-empty list on that date, in the
    order of the index; [available_count] counts them. *)
Lemma available_fold_entries date idx : forall ma,
  NoDup (dkeys idx) ->
  (forall k, In k (dkeys idx) -> dmem ma k = false) ->
  fold_left (available_step date) idx ma = ma ++ available_entries idx date.
Proof.
  induction idx as [|[k sch] idx IH]; intros ma Hnd Hfresh; simpl.
  - now rewrite app_nil_r.
  - simpl in Hnd. inversion Hnd as [|? ? Hk Hnd']; subst.
    unfold available_step at 2. simpl fst. simpl snd.
    destruct (dget sch date) as [[|s l]|] eqn:E.
    + apply IH; [exact Hnd'|]. intros k' Hk'. apply Hfresh. now right.
    + rewrite dset_absent by (apply Hfresh; now left).
      rewrite IH; [now rewrite <- app_assoc|exact Hnd'|].
      intros k' Hk'. apply dmem_false_not_in. unfold dkeys. rewrite map_app.
      intros Hin. apply in_app_or in Hin. destruct Hin as [Hin|[<-|[]]].
      * assert (Hf : dmem ma k' = false) by (apply Hfresh; now right).
        apply dmem_false_not_in in Hf. contradiction.
      * contradiction.
    + apply IH; [exact Hnd'|]. intros k' Hk'. apply Hfresh. now right.
Qed.

Lemma available_on_entries idx date :
  dict_ok idx -> available_on idx date = available_entries idx date.
Proof.
  intros Hok. rewrite available_on_fold.
  now rewrite (available_fold_entries date idx [] Hok).
Qed.

(* ================================================================== *)
(** * Further properties *)

(** ** What the intersector computes *)

Lemma pair_eq (i j : interval) : fst i = fst j -> snd i = snd j -> i = j.
Proof. destruct i, j; simpl; congruence. Qed.

Lemma in_pairwise_overlaps_iff o acc member :
  In o (pairwise_overlaps acc member) <->
  fst o < snd o /\ exists a b, In a acc /\ In b member /\ o = overlap a b.
Proof.
  split; [apply in_pairwise_overlaps|].
  intros (Hpos & a & b & Ha & Hb & ->).
  unfold pairwise_overlaps. apply filter_In. split.
  - apply in_map_iff. exists (a, b). split; [reflexivity|].
    now apply in_prod.
  - unfold positive_length. apply Z.gtb_lt. lia.
Qed.

Lemma common_part_overlap i a b choice :
  common_part i (overlap a b :: choice) -> common_part i (a :: b :: choice).
Proof.
  unfold common_part, overlap. simpl.
  intros ((x & Hx & Ex) & Hle & (y & Hy & Ey) & Hge).
  pose proof (Hle _ (or_introl eq_refl)) as H1. simpl in H1.
  pose proof (Hge _ (or_introl eq_refl)) as H2. simpl in H2.
  repeat split.
  - destruct Hx as [<-|Hx]; [|exists x; auto].
    simpl in Ex. destruct (Z.max_spec (fst a) (fst b)) as [[_ E]|[_ E]];
      rewrite E in Ex; [exists b|exists a]; auto.
  - intros iv [<-|[<-|Hiv]]; [lia|lia|apply Hle; auto].
  - destruct Hy as [<-|Hy]; [|exists y; auto].
    simpl in Ey. destruct (Z.min_spec (snd a) (snd b)) as [[_ E]|[_ E]];
      rewrite E in Ey; [exists a|exists b]; auto.
  - intros iv [<-|[<-|Hiv]]; [lia|lia|apply Hge; auto].
Qed.

Lemma overlap_common_part i a b choice :
  common_part i (a :: b :: choice) -> common_part i (overlap a b :: choice).
Proof.
  unfold common_part, overlap. simpl.
  intros ((x & Hx & Ex) & Hle & (y & Hy & Ey) & Hge).
  pose proof (Hle a (or_introl eq_refl)) as Ha1.
  pose proof (Hle b (or_intror (or_introl eq_refl))) as Hb1.
  pose proof (Hge a (or_introl eq_refl)) as Ha2.
  pose proof (Hge b (or_intror (or_introl eq_refl))) as Hb2.
  repeat split.
  - destruct Hx as [<-|[<-|Hx]]; [| |exists x; auto];
      (eexists; split; [left; reflexivity|simpl; lia]).
  - intros iv [<-|Hiv]; [simpl; lia|apply Hle; auto].
  - destruct Hy as [<-|[<-|Hy]]; [| |exists y; auto];
      (eexists; split; [left; reflexivity|simpl; lia]).
  - intros iv [<-|Hiv]; [simpl; lia|apply Hge; auto].
Qed.

(** The accumulator after the fold: the positive common parts of one
    interval of the accumulator and one of each list. *)
Lemma fold_step_choices rest : forall acc i,
  In i (fold_left fold_step rest acc) <->
  exists a choice,
    In a acc /\ chosen choice rest /\ common_part i (a :: choice)
    /\ (rest <> [] -> fst i < snd i).
Proof.
  induction rest as [|member rest IH]; intros acc i; simpl.
  - split.
    + intros Hi. exists i, []. split; [exact Hi|]. split; [constructor|].
      split; [|intros H; now elim H].
      repeat split; try (exists i; split; [now left|reflexivity]);
        intros iv [<-|[]]; lia.
    + intros (a & choice & Ha & Hc & ((x & Hx & Ex) & _ & (y & Hy & Ey) & _) & _).
      inversion Hc; subst.
      destruct Hx as [<-|[]]. destruct Hy as [<-|[]].
      now rewrite <- (pair_eq a i Ex Ey).
  - rewrite IH. split.
    + intros (a' & choice & Ha' & Hc & Hcp & Hpos).
      assert (Hin : In a' (pairwise_overlaps acc member))
        by (destruct acc; [contradiction|exact Ha']).
      apply in_pairwise_overlaps_iff in Hin.
      destruct Hin as (Hpos' & a & b & Ha & Hb & ->).
      exists a, (b :: choice). repeat split; auto.
      * now constructor.
      * apply (common_part_overlap i a b choice Hcp).
      * apply (common_part_overlap i a b choice Hcp).
      * apply (common_part_overlap i a b choice Hcp).
      * apply (common_part_overlap i a b choice Hcp).
      * intros _. destruct rest as [|m rest]; [|apply Hpos; discriminate].
        inversion Hc; subst.
        destruct Hcp as ((x & [<-|[]] & Ex) & _ & (y & [<-|[]] & Ey) & _).
        lia.
    + intros (a & choice & Ha & Hc & Hcp & Hpos).
      inversion Hc as [|b member' choice' rest' Hb Hc']; subst.
      specialize (Hpos ltac:(discriminate)).
      exists (overlap a b), choice'.
      pose proof (overlap_common_part i a b choice' Hcp) as Hcp'.
      repeat split; auto; try apply Hcp'.
      assert (Hin : In (overlap a b) (pairwise_overlaps acc member)).
      { apply in_pairwise_overlaps_iff. split; [|eauto].
        destruct Hcp' as (_ & Hle & _ & Hge).
        pose proof (Hle _ (or_introl eq_refl)).
        pose proof (Hge _ (or_introl eq_refl)). lia. }
      destruct acc; [contradiction|exact Hin].
Qed.

Lemma chosen_perm lists lists' :
  Permutation lists lists' ->
  forall choice, chosen choice lists ->
  exists choice', chosen choice' lists' /\ Permutation choice choice'.
Proof.
  unfold chosen. induction 1 as [|m l l' Hp IH|m1 m2 l|l l' l'' _ IH1 _ IH2];
    intros choice Hc.
  - inversion Hc; subst. exists []. split; constructor.
  - inversion Hc as [|c ? cs ? Hin Hcs]; subst.
    destruct (IH cs Hcs) as (cs' & Hcs' & Hperm).
    exists (c :: cs'). split; [now constructor|now constructor].
  - inversion Hc as [|c1 ? cs1 ? Hin1 Hcs1]; subst.
    inversion Hcs1 as [|c2 ? cs2 ? Hin2 Hcs2]; subst.
    exists (c2 :: c1 :: cs2). split; [repeat constructor; auto|apply perm_swap].
  - destruct (IH1 choice Hc) as (c' & Hc' & Hp').
    destruct (IH2 c' Hc') as (c'' & Hc'' & Hp'').
    exists c''. split; [exact Hc''|now transitivity c'].
Qed.

Lemma common_part_perm i choice choice' :
  Permutation choice choice' -> common_part i choice -> common_part i choice'.
Proof.
  intros Hp ((x & Hx & Ex) & Hle & (y & Hy & Ey) & Hge).
  repeat split.
  - exists x. split; [now apply (Permutation_in _ Hp)|exact Ex].
  - intros iv Hiv. apply Hle. now apply (Permutation_in _ (Permutation_sym Hp)).
  - exists y. split; [now apply (Permutation_in _ Hp)|exact Ey].
  - intros iv Hiv. apply Hge. now apply (Permutation_in _ (Permutation_sym Hp)).
Qed.

(** X1.  With two participants or more, [_intersect_all_slots] returns
    exactly the intervals of positive length, at least as long as the
    duration, that are the common part of one interval of each
    participant. *)
Theorem intersect_all_slots_choices :
  forall (first second : list interval) (rest : list (list interval))
         (duration_hours : duration) (i : interval),
    In i (_intersect_all_slots (first :: second :: rest) duration_hours) <->
    fst i < snd i
    /\ int_ge (snd i - fst i) duration_hours = true
    /\ exists choice,
         chosen choice (first :: second :: rest) /\ common_part i choice.
Proof.
  intros first second rest d i.
  rewrite intersect_all_slots_eq. unfold intersect_spec, final_accumulator.
  rewrite filter_In, fold_step_choices. unfold long_enough. split.
  - intros ((a & choice & Ha & Hc & Hcp & Hpos) & Hlong).
    split; [apply Hpos; discriminate|]. split; [exact Hlong|].
    exists (a :: choice). split; [now constructor|exact Hcp].
  - intros (Hpos & Hlong & choice & Hc & Hcp).
    inversion Hc as [|a ? choice' ? Ha Hc']; subst.
    split; [|exact Hlong]. exists a, choice'. auto.
Qed.

(** X2.  With two participants or more, the intervals that
    [_intersect_all_slots] returns do not depend on the order of the
    participants (their order in the returned list may). *)
Theorem intersect_all_slots_any_order :
  forall (lists lists' : list (list interval)) (duration_hours : duration)
         (i : interval),
    Permutation lists lists' ->
    (2 <= length lists)%nat ->
    In i (_intersect_all_slots lists duration_hours) <->
    In i (_intersect_all_slots lists' duration_hours).
Proof.
  assert (Hone : forall lists lists' d i,
             Permutation lists lists' -> (2 <= length lists)%nat ->
             In i (_intersect_all_slots lists d) ->
             In i (_intersect_all_slots lists' d)).
  { intros lists lists' d i Hp Hlen Hi.
    assert (Hlen' : (2 <= length lists')%nat)
      by (now rewrite <- (Permutation_length Hp)).
    destruct lists as [|f [|s r]]; simpl in Hlen; try lia.
    destruct lists' as [|f' [|s' r']]; simpl in Hlen'; try lia.
    apply intersect_all_slots_choices in Hi.
    destruct Hi as (Hpos & Hlong & choice & Hc & Hcp).
    apply intersect_all_slots_choices.
    destruct (chosen_perm _ _ Hp choice Hc) as (choice' & Hc' & Hp').
    repeat split; auto. exists choice'. split; [exact Hc'|].
    now apply (common_part_perm i choice). }
  intros lists lists' d i Hp Hlen. split; apply Hone; auto.
  - now apply Permutation_sym.
  - now rewrite <- (Permutation_length Hp).
Qed.

Lemma pairwise_overlaps_nil_r acc : pairwise_overlaps acc [] = [].
Proof.
  unfold pairwise_overlaps. induction acc as [|a acc IH]; [reflexivity|exact IH].
Qed.

Lemma fold_step_with_empty rest : forall acc,
  In [] rest -> fold_left fold_step rest acc = [].
Proof.
  induction rest as [|member rest IH]; intros acc Hin; [contradiction|].
  simpl. destruct Hin as [->|Hin]; [|now apply IH].
  replace (fold_step acc []) with (@nil interval); [apply fold_step_nil|].
  destruct acc; [reflexivity|]. simpl. symmetry. apply pairwise_overlaps_nil_r.
Qed.

(** X3.  When one of the participants passed to [_intersect_all_slots]
    has no interval, whatever its position, the result is empty. *)
Theorem intersect_all_slots_with_empty_list :
  forall (lists : list (list interval)) (duration_hours : duration),
    In [] lists -> _intersect_all_slots lists duration_hours = [].
Proof.
  intros lists d Hin. rewrite intersect_all_slots_eq.
  unfold intersect_spec, final_accumulator.
  destruct lists as [|first rest]; [reflexivity|].
  destruct Hin as [->|Hin].
  - now rewrite fold_step_nil.
  - now rewrite fold_step_with_empty.
Qed.

Lemma intersect_all_slots_with_empty_list_witness :
  In [] [[(9, 12)]; []; [(10, 11)]]
  /\ _intersect_all_slots [[(9, 12)]; []; [(10, 11)]] (DFinite 1) = [].
Proof.
  assert (H : In (@nil interval) [[(9, 12)]; []; [(10, 11)]])
    by (right; left; reflexivity).
  split; [exact H|].
  exact (intersect_all_slots_with_empty_list _ (DFinite 1) H).
Defined.

(** ** What the finder reports *)

Lemma available_entries_cons e idx dt :
  available_entries (e :: idx) dt
  = (if has_slots dt e then [(fst e, match dget (snd e) dt with Some l => l | None => [] end)]
     else [])
    ++ available_entries idx dt.
Proof.
  unfold available_entries, has_slots. destruct e as [m sch]. simpl. f_equal.
  destruct (dget sch dt) as [[|s l]|]; reflexivity.
Qed.

Lemma available_entries_keys idx dt :
  dkeys (available_entries idx dt) = dkeys (filter (has_slots dt) idx).
Proof.
  induction idx as [|e idx IH]; [reflexivity|].
  rewrite available_entries_cons. simpl filter.
  destruct (has_slots dt e); simpl; unfold dkeys in *; simpl; now rewrite IH.
Qed.

Lemma in_available_entries idx dt m l :
  In (m, l) (available_entries idx dt) <->
  exists sch, In (m, sch) idx /\ dget sch dt = Some l /\ l <> [].
Proof.
  induction idx as [|[m' sch'] idx IH].
  - simpl. split; [contradiction|]. now intros (sch & [] & _).
  - rewrite available_entries_cons, in_app_iff, IH. unfold has_slots. simpl.
    split.
    + intros [H|(sch & Hin & Hget)].
      * destruct (dget sch' dt) as [[|s l']|] eqn:E; try contradiction.
        destruct H as [[= <- <-]|[]]. exists sch'. repeat split; auto. discriminate.
      * exists sch. auto.
    + intros (sch & [[= -> ->]|Hin] & Hget & Hne).
      * left. rewrite Hget. destruct l; [now elim Hne|]. now left.
      * right. exists sch. auto.
Qed.

Lemma available_entries_length idx dt :
  (length (available_entries idx dt) <= length idx)%nat.
Proof.
  induction idx as [|e idx IH]; [simpl; lia|].
  rewrite available_entries_cons, length_app. simpl length at 2.
  destruct (has_slots dt e); simpl; lia.
Qed.

Lemma available_entries_full idx dt :
  length (available_entries idx dt) = length idx ->
  dkeys (available_entries idx dt) = dkeys idx
  /\ forall e, In e idx -> has_slots dt e = true.
Proof.
  induction idx as [|e idx IH]; intros Hlen; [split; [reflexivity|contradiction]|].
  rewrite available_entries_cons in *. rewrite length_app in Hlen.
  pose proof (available_entries_length idx dt) as Hle.
  destruct (has_slots dt e) eqn:He; simpl in Hlen; [|lia].
  destruct IH as [IH1 IH2]; [lia|].
  split.
  - unfold dkeys in *. simpl. now rewrite IH1.
  - intros e' [<-|He']; auto.
Qed.

Lemma dict_ok_functional {V} (d : dict V) k v v' :
  NoDup (dkeys d) -> In (k, v) d -> In (k, v') d -> v = v'.
Proof.
  induction d as [|[k0 v0] d IH]; intros Hnd H1 H2; [contradiction|].
  simpl in Hnd. inversion Hnd as [|? ? Hnin Hnd']; subst.
  destruct H1 as [H1|H1], H2 as [H2|H2].
  - congruence.
  - injection H1 as -> ->. elim Hnin. apply in_map_iff. now exists (k, v').
  - injection H2 as -> ->. elim Hnin. apply in_map_iff. now exists (k, v).
  - now apply IH.
Qed.

Lemma dmem_available_entries idx dt e :
  NoDup (dkeys idx) -> In e idx ->
  dmem (available_entries idx dt) (fst e) = has_slots dt e.
Proof.
  intros Hnd He.
  destruct (dmem (available_entries idx dt) (fst e)) eqn:E.
  - unfold dmem in E. destruct (dget (available_entries idx dt) (fst e)) as [l|] eqn:G;
      [|discriminate].
    assert (Hin : In (fst e, l) (available_entries idx dt)).
    { clear -G. induction (available_entries idx dt) as [|[k v] d IH];
        [discriminate|]. simpl in G.
      destruct (pystr_eqb k (fst e)) eqn:Ek.
      - apply pystr_eqb_eq in Ek. injection G as ->. left. now rewrite Ek.
      - right. now apply IH. }
    apply in_available_entries in Hin. destruct Hin as (sch & Hin & Hget & Hne).
    assert (H : e = (fst e, sch)).
    { destruct e as [k v]. simpl in *. f_equal.
      exact (dict_ok_functional idx k v sch Hnd He Hin). }
    unfold has_slots. rewrite H. simpl. rewrite Hget. destruct l; [now elim Hne|reflexivity].
  - destruct (has_slots dt e) eqn:Hs; [|reflexivity].
    apply dmem_false_not_in in E. elim E.
    rewrite available_entries_keys. unfold dkeys. apply in_map.
    apply filter_In. auto.
Qed.

Lemma filter_partition_perm {A} (p : A -> bool) l :
  Permutation (filter p l ++ filter (fun a => negb (p a)) l) l.
Proof.
  induction l as [|a l IH]; simpl; [constructor|].
  destruct (p a); simpl.
  - now constructor.
  - apply Permutation_sym, Permutation_cons_app. now apply Permutation_sym.
Qed.

Lemma unavailable_members_eq idx dt :
  NoDup (dkeys idx) ->
  filter (fun m => negb (dmem (available_entries idx dt) m)) (dkeys idx)
  = dkeys (filter (fun e => negb (has_slots dt e)) idx).
Proof.
  intros Hnd.
  assert (H : forall l, (forall e, In e l -> In e idx) ->
            filter (fun m => negb (dmem (available_entries idx dt) m)) (dkeys l)
            = dkeys (filter (fun e => negb (has_slots dt e)) l)).
  { induction l as [|e l IH]; intros Hl; [reflexivity|].
    unfold dkeys in *. simpl.
    rewrite (dmem_available_entries idx dt e Hnd) by (apply Hl; now left).
    destruct (has_slots dt e); simpl; rewrite IH; auto;
      intros e' He'; apply Hl; now right. }
  apply H. auto.
Qed.

(** The alternatives of a date, read off the entries of the index. *)
Lemma in_alternatives idx d s :
  dict_ok idx ->
  In s (best_alternative_slots (find_best_meeting_time idx d)) ->
  exists slot,
    In slot (_intersect_all_slots (dvalues (available_entries idx (date s))) d)
    /\ (2 <= length (available_entries idx (date s)))%nat
    /\ s = mk_slot (date s) (fst slot) (snd slot)
             (dkeys (filter (has_slots (date s)) idx))
             (dkeys (filter (fun e => negb (has_slots (date s) e)) idx))
             (Some (true_div (length (available_entries idx (date s))) (length idx))).
Proof.
  intros Hok Hs. apply in_best_alternative_slots in Hs.
  rewrite candidates_of_date_eq in Hs. unfold available_count in Hs.
  rewrite (available_on_entries idx (date s) Hok) in Hs.
  destruct (length (available_entries idx (date s)) =? 0)%nat; [contradiction|].
  cbn [snd] in Hs.
  destruct (Nat.leb_spec 2 (length (available_entries idx (date s)))) as [Htwo|];
    [|contradiction].
  apply in_map_iff in Hs. destruct Hs as (slot & Hs & Hslot).
  exists slot. split; [|split; [exact Htwo|]].
  - unfold _find_common_slots in Hslot.
    destruct (available_entries idx (date s)); [contradiction|exact Hslot].
  - rewrite <- Hs at 1. cbn [date].
    rewrite available_entries_keys, (unavailable_members_eq idx _ Hok).
    rewrite <- Hs. reflexivity.
Qed.

Lemma in_perfect idx d s :
  dict_ok idx ->
  In s (perfect_slots (find_best_meeting_time idx d)) ->
  exists slot,
    In slot (_intersect_all_slots (dvalues (available_entries idx (date s))) d)
    /\ length (available_entries idx (date s)) = length idx
    /\ s = mk_slot (date s) (fst slot) (snd slot) (dkeys idx) [] None.
Proof.
  intros Hok Hs. apply in_perfect_slots in Hs.
  rewrite candidates_of_date_eq in Hs. unfold available_count in Hs.
  rewrite (available_on_entries idx (date s) Hok) in Hs.
  destruct (length (available_entries idx (date s)) =? 0)%nat; [contradiction|].
  cbn [fst] in Hs.
  destruct (Nat.eqb_spec (length (available_entries idx (date s))) (length idx))
    as [Hall|]; [|contradiction].
  apply in_map_iff in Hs. destruct Hs as (slot & Hs & Hslot).
  exists slot. split; [|split; [exact Hall|]].
  - unfold _find_common_slots in Hslot.
    destruct (available_entries idx (date s)); [contradiction|exact Hslot].
  - rewrite <- Hs at 1. cbn [date].
    rewrite (proj1 (available_entries_full idx _ Hall)).
    rewrite <- Hs. reflexivity.
Qed.

Lemma intersect_inside lists d i :
  In i (_intersect_all_slots lists d) ->
  forall member, In member lists -> exists j, In j member /\ inside i j.
Proof.
  intros Hi. rewrite intersect_all_slots_eq in Hi.
  unfold intersect_spec in Hi. apply filter_In in Hi. destruct Hi as [Hi _].
  destruct lists as [|first rest]; [contradiction|].
  simpl in Hi. apply fold_inside in Hi. destruct Hi as [(a & Ha & Hia) Hrest].
  intros member [<-|Hm]; [eauto|].
  rewrite Forall_forall in Hrest. now apply Hrest.
Qed.

Lemma example_team_dict_ok : dict_ok example_team.
Proof.
  unfold dict_ok. repeat constructor; simpl; intuition discriminate.
Qed.

Lemma has_slots_get dt m sch :
  has_slots dt (m, sch) = true ->
  exists l, dget sch dt = Some l /\ l <> [].
Proof.
  unfold has_slots. simpl. destruct (dget sch dt) as [[|x l]|]; try discriminate.
  intros _. exists (x :: l). split; [reflexivity|discriminate].
Qed.

Lemma has_slots_none dt m sch :
  has_slots dt (m, sch) = false ->
  dget sch dt = None \/ dget sch dt = Some [].
Proof.
  unfold has_slots. simpl. destruct (dget sch dt) as [[|x l]|]; auto. discriminate.
Qed.

(** X4.  In a well-formed index every perfect slot lists all the
    participants, in the order of the index, nobody as unavailable, and
    its interval lies inside an interval that each participant has on the
    date of the slot. *)
Theorem perfect_slots_sound :
  forall (idx : index) (d : duration) (s : slot),
    dict_ok idx ->
    In s (perfect_slots (find_best_meeting_time idx d)) ->
    members_available s = dkeys idx
    /\ members_unavailable s = []
    /\ forall m sch,
         In (m, sch) idx ->
         exists l j, dget sch (date s) = Some l /\ In j l
                     /\ inside (slot_interval s) j.
Proof.
  intros idx d s Hok Hs.
  destruct (in_perfect idx d s Hok Hs) as (slot & Hslot & Hall & Heq).
  split; [now rewrite Heq|]. split; [now rewrite Heq|].
  intros m sch Hin.
  pose proof (proj2 (available_entries_full idx (date s) Hall) (m, sch) Hin) as Hhas.
  destruct (has_slots_get _ _ _ Hhas) as (l & Hget & Hne).
  assert (Hentry : In (m, l) (available_entries idx (date s))).
  { apply in_available_entries. exists sch. auto. }
  assert (Hl : In l (dvalues (available_entries idx (date s)))).
  { unfold dvalues. apply in_map_iff. now exists (m, l). }
  destruct (intersect_inside _ _ _ Hslot l Hl) as (j & Hj & Hinside).
  exists l, j. repeat split; auto.
  - unfold slot_interval. rewrite Heq. simpl. apply Hinside.
  - unfold slot_interval. rewrite Heq. simpl. apply Hinside.
Qed.

Lemma perfect_slots_sound_witness :
  dict_ok example_team
  /\ In (mk_slot (py "Mon") 10 12 [py "Alice"; py "Bob"; py "Carol"] [] None)
        (perfect_slots (find_best_meeting_time example_team (DFinite 1)))
  /\ members_available
       (mk_slot (py "Mon") 10 12 [py "Alice"; py "Bob"; py "Carol"] [] None)
     = dkeys example_team.
Proof.
  assert (Hin : In (mk_slot (py "Mon") 10 12 [py "Alice"; py "Bob"; py "Carol"] [] None)
                   (perfect_slots (find_best_meeting_time example_team (DFinite 1))))
    by (left; reflexivity).
  split; [exact example_team_dict_ok|]. split; [exact Hin|].
  exact (proj1 (perfect_slots_sound example_team (DFinite 1) _
                  example_team_dict_ok Hin)).
Defined.

Lemma true_div_bounds a b :
  (1 <= a)%nat -> (a <= b)%nat -> (0 < true_div a b)%Q /\ (true_div a b <= 1)%Q.
Proof.
  intros Ha Hb. unfold true_div. rewrite Qred_correct.
  unfold Qlt, Qle. simpl. rewrite Zpos_of_nat by lia. lia.
Qed.

(** X5.  In a well-formed index every entry of [best_alternative_slots]
    splits the participants: the available and the unavailable members
    together are the participants of the index, each once; at least two
    are available; and the coverage is the number of available members
    over the number of participants, above 0 and at most 1. *)
Theorem alternative_slots_split_participants :
  forall (idx : index) (d : duration) (s : slot),
    dict_ok idx ->
    In s (best_alternative_slots (find_best_meeting_time idx d)) ->
    Permutation (members_available s ++ members_unavailable s) (dkeys idx)
    /\ NoDup (members_available s ++ members_unavailable s)
    /\ (2 <= length (members_available s) <= length idx)%nat
    /\ exists q,
         coverage s = Some q
         /\ q = true_div (length (members_available s)) (length idx)
         /\ (0 < q)%Q /\ (q <= 1)%Q.
Proof.
  intros idx d s Hok Hs.
  destruct (in_alternatives idx d s Hok Hs) as (slot & Hslot & Htwo & Heq).
  assert (Hperm : Permutation (members_available s ++ members_unavailable s)
                              (dkeys idx)).
  { rewrite Heq. cbn [members_available members_unavailable].
    unfold dkeys. rewrite <- map_app. apply Permutation_map.
    apply filter_partition_perm. }
  assert (Hlen : length (members_available s)
                 = length (available_entries idx (date s))).
  { rewrite Heq at 1. cbn [members_available].
    rewrite <- available_entries_keys. unfold dkeys. now rewrite length_map. }
  pose proof (available_entries_length idx (date s)) as Hle.
  split; [exact Hperm|]. split.
  - apply (Permutation_NoDup (Permutation_sym Hperm)). exact Hok.
  - split; [lia|].
    exists (true_div (length (available_entries idx (date s))) (length idx)).
    rewrite Hlen. split; [now rewrite Heq|]. split; [reflexivity|].
    apply true_div_bounds; lia.
Qed.

Lemma alternative_slots_split_participants_witness :
  dict_ok example_team
  /\ In (mk_slot (py "Tue") 15 17 [py "Bob"; py "Carol"] [py "Alice"] (Some (2 # 3)))
        (best_alternative_slots (find_best_meeting_time example_team (DFinite 1)))
  /\ Permutation ([py "Bob"; py "Carol"] ++ [py "Alice"]) (dkeys example_team).
Proof.
  assert (Hin : In (mk_slot (py "Tue") 15 17 [py "Bob"; py "Carol"] [py "Alice"]
                            (Some (2 # 3)))
                   (best_alternative_slots
                      (find_best_meeting_time example_team (DFinite 1))))
    by (right; left; reflexivity).
  split; [exact example_team_dict_ok|]. split; [exact Hin|].
  exact (proj1 (alternative_slots_split_participants example_team (DFinite 1) _
                  example_team_dict_ok Hin)).
Defined.

Lemma intersect_positive first second rest d i :
  In i (_intersect_all_slots (first :: second :: rest) d) -> fst i < snd i.
Proof.
  intros Hi. rewrite intersect_all_slots_eq in Hi.
  unfold intersect_spec in Hi. apply filter_In in Hi. destruct Hi as [Hi _].
  simpl in Hi. revert Hi. apply fold_step_positive.
  intros o Ho. now apply in_fold_step in Ho.
Qed.

(** X6.  In a well-formed index every entry of [best_alternative_slots]
    has its end after its start, lies inside an interval that each of its
    available members has on its date, and each of its unavailable members
    has no interval on that date. *)
Theorem alternative_slots_sound :
  forall (idx : index) (d : duration) (s : slot),
    dict_ok idx ->
    In s (best_alternative_slots (find_best_meeting_time idx d)) ->
    start_time s < end_time s
    /\ (forall m, In m (members_available s) ->
          exists sch l j,
            In (m, sch) idx /\ dget sch (date s) = Some l /\ In j l
            /\ inside (slot_interval s) j)
    /\ (forall m, In m (members_unavailable s) ->
          exists sch,
            In (m, sch) idx
            /\ (dget sch (date s) = None \/ dget sch (date s) = Some [])).
Proof.
  intros idx d s Hok Hs.
  destruct (in_alternatives idx d s Hok Hs) as (slot & Hslot & Htwo & Heq).
  assert (Hiv : slot_interval s = slot).
  { unfold slot_interval. rewrite Heq. simpl. now destruct slot. }
  split; [|split].
  - assert (Hpos : fst slot < snd slot).
    { destruct (dvalues (available_entries idx (date s))) as [|f [|g r]] eqn:E.
      - contradiction.
      - unfold dvalues in E. apply (f_equal (@length _)) in E.
        rewrite length_map in E. simpl in E. lia.
      - now apply intersect_positive in Hslot. }
    rewrite Heq. exact Hpos.
  - intros m Hm. rewrite Heq in Hm. cbn [members_available] in Hm.
    unfold dkeys in Hm. apply in_map_iff in Hm.
    destruct Hm as ([m' sch] & <- & Hin). apply filter_In in Hin.
    destruct Hin as [Hin Hhas].
    destruct (has_slots_get _ _ _ Hhas) as (l & Hget & Hne).
    assert (Hl : In l (dvalues (available_entries idx (date s)))).
    { unfold dvalues. apply in_map_iff. exists (m', l). split; [reflexivity|].
      apply in_available_entries. exists sch. auto. }
    destruct (intersect_inside _ _ _ Hslot l Hl) as (j & Hj & Hinside).
    exists sch, l, j. rewrite Hiv. auto.
  - intros m Hm. rewrite Heq in Hm. cbn [members_unavailable] in Hm.
    unfold dkeys in Hm. apply in_map_iff in Hm.
    destruct Hm as ([m' sch] & <- & Hin). apply filter_In in Hin.
    destruct Hin as [Hin Hhas]. apply negb_true_iff in Hhas.
    exists sch. split; [exact Hin|]. now apply (has_slots_none _ m').
Qed.

Lemma alternative_slots_sound_witness :
  dict_ok example_team
  /\ In (mk_slot (py "Tue") 15 17 [py "Bob"; py "Carol"] [py "Alice"] (Some (2 # 3)))
        (best_alternative_slots (find_best_meeting_time example_team (DFinite 1)))
  /\ 15 < 17.
Proof.
  assert (Hin : In (mk_slot (py "Tue") 15 17 [py "Bob"; py "Carol"] [py "Alice"]
                            (Some (2 # 3)))
                   (best_alternative_slots
                      (find_best_meeting_time example_team (DFinite 1))))
    by (right; left; reflexivity).
  split; [exact example_team_dict_ok|]. split; [exact Hin|].
  exact (proj1 (alternative_slots_sound example_team (DFinite 1) _
                  example_team_dict_ok Hin)).
Defined.

(** ** What the finder does not miss *)

Lemma in_set_add_fold l : forall s x,
  In x (fold_left set_add l s) <-> In x s \/ In x l.
Proof.
  induction l as [|y l IH]; intros s x; simpl; [tauto|].
  rewrite IH. unfold set_add.
  destruct (existsb (pystr_eqb y) s) eqn:E.
  - apply existsb_exists in E. destruct E as (z & Hz & Ez).
    apply pystr_eqb_eq in Ez. subst z. intuition (subst; auto).
  - rewrite in_app_iff. simpl. tauto.
Qed.

Lemma in_all_dates idx dt :
  In dt (all_dates idx) <-> exists sch, In sch (dvalues idx) /\ In dt (dkeys sch).
Proof.
  unfold all_dates.
  assert (H : forall l s,
            In dt (fold_left (fun all_dates member_schedule =>
                                fold_left set_add (dkeys member_schedule) all_dates)
                             l s)
            <-> In dt s \/ exists sch : schedule, In sch l /\ In dt (dkeys sch)).
  { induction l as [|sch l IH]; intros s; simpl.
    - split; [auto|]. intros [H|(sch & [] & _)]. exact H.
    - rewrite IH, in_set_add_fold. split.
      + intros [[H|H]|(sch' & H1 & H2)]; eauto.
      + intros [H|(sch' & [<-|H1] & H2)]; eauto. }
  rewrite H. split; [intros [[]|H']; exact H'|auto].
Qed.

Lemma dget_in_keys {V} (d : dict V) k v : dget d k = Some v -> In k (dkeys d).
Proof.
  induction d as [|[k' v'] d IH]; simpl; [discriminate|].
  destruct (pystr_eqb k' k) eqn:E; [|auto].
  apply pystr_eqb_eq in E. auto.
Qed.

Lemma int_ge_mono n n' d : n <= n' -> int_ge n d = true -> int_ge n' d = true.
Proof.
  destruct d as [q| | |]; simpl; auto.
  intros Hn H. apply Qle_bool_iff in H. apply Qle_bool_iff.
  eapply Qle_trans; [exact H|]. unfold Qle. simpl. lia.
Qed.

(** A window that lies inside an interval of each list is covered by the
    common part of such a choice of intervals. *)
Lemma common_part_exists (window : interval) lists :
  lists <> [] ->
  (forall member, In member lists -> exists j, In j member /\ inside window j) ->
  exists choice i,
    chosen choice lists /\ common_part i choice /\ inside window i.
Proof.
  induction lists as [|member lists IH]; intros Hne Hall; [now elim Hne|].
  destruct (Hall member (or_introl eq_refl)) as (j & Hj & Hin).
  destruct lists as [|member' lists].
  - exists [j], j. split; [repeat constructor; exact Hj|]. split; [|exact Hin].
    repeat split; try (exists j; split; [now left|reflexivity]);
      intros iv [<-|[]]; lia.
  - destruct IH as (choice & i & Hc & Hcp & Hwi); [discriminate| |].
    { intros m Hm. apply Hall. now right. }
    exists (j :: choice), (overlap j i). split; [now constructor|].
    destruct Hcp as ((x & Hx & Ex) & Hle & (y & Hy & Ey) & Hge).
    unfold inside in *. unfold overlap. simpl. split; [|lia].
    repeat split; simpl.
    + destruct (Z.max_spec (fst j) (fst i)) as [[_ E]|[_ E]]; rewrite E.
      * exists x. auto.
      * exists j. auto.
    + intros iv [<-|Hiv]; [lia|]. specialize (Hle iv Hiv). lia.
    + destruct (Z.min_spec (snd j) (snd i)) as [[_ E]|[_ E]]; rewrite E.
      * exists j. auto.
      * exists y. auto.
    + intros iv [<-|Hiv]; [lia|]. specialize (Hge iv Hiv). lia.
Qed.

Lemma intersect_covers (window : interval) lists d :
  lists <> [] ->
  (forall member, In member lists -> exists j, In j member /\ inside window j) ->
  fst window < snd window ->
  int_ge (snd window - fst window) d = true ->
  exists i, In i (_intersect_all_slots lists d) /\ inside window i.
Proof.
  intros Hne Hall Hpos Hlong.
  destruct (common_part_exists window lists Hne Hall) as (choice & i & Hc & Hcp & Hwi).
  exists i. split; [|exact Hwi].
  rewrite intersect_all_slots_eq. unfold intersect_spec. apply filter_In.
  unfold inside in Hwi. split.
  - destruct lists as [|first rest]; [now elim Hne|].
    inversion Hc as [|a ? choice' ? Ha Hc']; subst.
    simpl. apply fold_step_choices. exists a, choice'.
    repeat split; auto; try apply Hcp. intros _. lia.
  - unfold long_enough. apply (int_ge_mono (snd window - fst window)); [lia|exact Hlong].
Qed.

(** X7.  In a well-formed index with a participant, when every
    participant has on a date an interval that contains a window of
    positive length at least as long as the duration, [perfect_slots]
    holds a slot on that date whose interval contains the window. *)
Theorem perfect_slots_complete :
  forall (idx : index) (d : duration) (dt : pystr) (window : interval),
    dict_ok idx ->
    idx <> [] ->
    (forall m sch, In (m, sch) idx ->
       exists l j, dget sch dt = Some l /\ In j l /\ inside window j) ->
    fst window < snd window ->
    int_ge (snd window - fst window) d = true ->
    exists s,
      In s (perfect_slots (find_best_meeting_time idx d))
      /\ date s = dt
      /\ inside window (slot_interval s).
Proof.
  intros idx d dt window Hok Hne Hall Hpos Hlong.
  assert (Hhas : forall e, In e idx -> has_slots dt e = true).
  { intros [m sch] He. destruct (Hall m sch He) as (l & j & Hget & Hj & _).
    unfold has_slots. simpl. rewrite Hget. destruct l; [contradiction|reflexivity]. }
  assert (Hfull : length (available_entries idx dt) = length idx).
  { clear -Hhas. induction idx as [|e idx IH]; [reflexivity|].
    rewrite available_entries_cons, length_app.
    rewrite (Hhas e) by now left. simpl. f_equal. apply IH.
    intros e' He'. apply Hhas. now right. }
  assert (Hlists : dvalues (available_entries idx dt) <> []).
  { intros E. apply (f_equal (@length _)) in E. unfold dvalues in E.
    rewrite length_map, Hfull in E. destruct idx; [now elim Hne|discriminate]. }
  destruct (intersect_covers window (dvalues (available_entries idx dt)) d Hlists)
    as (i & Hi & Hwi); auto.
  { intros member Hm. unfold dvalues in Hm. apply in_map_iff in Hm.
    destruct Hm as ([m l] & <- & Hin). apply in_available_entries in Hin.
    destruct Hin as (sch & Hin & Hget & _).
    destruct (Hall m sch Hin) as (l' & j & Hget' & Hj & Hinside).
    rewrite Hget in Hget'. injection Hget' as <-. eauto. }
  exists (mk_slot dt (fst i) (snd i) (dkeys (available_on idx dt)) [] None).
  split; [|split; [reflexivity|]].
  - rewrite find_best_meeting_time_eq. cbn [perfect_slots].
    apply in_flat_map. exists dt. split.
    + apply (Permutation_in _ (Permutation_sym (sort_by_perm _ _))).
      apply in_all_dates. destruct idx as [|[m sch] idx]; [now elim Hne|].
      exists sch. split; [now left|].
      destruct (Hall m sch (or_introl eq_refl)) as (l & j & Hget & _).
      now apply dget_in_keys in Hget.
    + rewrite candidates_of_date_eq. unfold available_count.
      rewrite (available_on_entries idx dt Hok), Hfull.
      rewrite Nat.eqb_refl.
      replace (length idx =? 0)%nat with false
        by (symmetry; apply Nat.eqb_neq; destruct idx; [now elim Hne|discriminate]).
      cbn [fst]. apply in_map_iff. exists i. split; [reflexivity|].
      unfold _find_common_slots.
      destruct (available_entries idx dt) eqn:E; [now elim Hlists|exact Hi].
  - unfold slot_interval. simpl. unfold inside in *. simpl. exact Hwi.
Qed.

Lemma perfect_slots_complete_witness :
  dict_ok example_team
  /\ exists s,
       In s (perfect_slots (find_best_meeting_time example_team (DFinite 1)))
       /\ date s = py "Mon"
       /\ inside (10, 11) (slot_interval s).
Proof.
  split; [exact example_team_dict_ok|].
  apply (perfect_slots_complete example_team (DFinite 1) (py "Mon") (10, 11)
           example_team_dict_ok).
  - discriminate.
  - intros m sch [[= <- <-]|[[= <- <-]|[[= <- <-]|[]]]];
      (eexists; eexists; split; [reflexivity|split; [left; reflexivity|]]);
      unfold inside; simpl; lia.
  - simpl; lia.
  - reflexivity.
Defined.

(** ** The duration *)

Lemma find_common_slots_eq ma d :
  _find_common_slots ma d = filter (long_enough d) (final_accumulator (dvalues ma)).
Proof.
  destruct ma as [|e ma]; [reflexivity|].
  unfold _find_common_slots. now rewrite intersect_all_slots_eq.
Qed.

Lemma candidate_long_enough idx d dt s :
  In s (fst (candidates_of_date idx d dt)) \/ In s (snd (candidates_of_date idx d dt)) ->
  int_ge (end_time s - start_time s) d = true.
Proof.
  rewrite candidates_of_date_eq.
  destruct (available_count idx dt =? 0)%nat; [simpl; tauto|].
  cbn [fst snd].
  destruct (available_count idx dt =? length idx)%nat;
    destruct (2 <=? available_count idx dt)%nat;
    intros [H|H]; try contradiction;
    apply in_map_iff in H; destruct H as (slot & <- & Hslot);
    rewrite find_common_slots_eq in Hslot; apply filter_In in Hslot;
    exact (proj2 Hslot).
Qed.

(** X8.  Every slot of the result, perfect or alternative, is at least as
    long as the requested duration; so a duration that no length reaches
    (a NaN or an infinite one, which [float] accepts) gives an empty
    result. *)
Theorem slots_are_long_enough :
  forall (idx : index) (d : duration),
    (forall s,
       In s (perfect_slots (find_best_meeting_time idx d))
       \/ In s (best_alternative_slots (find_best_meeting_time idx d)) ->
       int_ge (end_time s - start_time s) d = true)
    /\ (d = DNaN \/ d = DPosInf ->
        find_best_meeting_time idx d = mk_results [] []).
Proof.
  intros idx d.
  assert (Hlong : forall s,
       In s (perfect_slots (find_best_meeting_time idx d))
       \/ In s (best_alternative_slots (find_best_meeting_time idx d)) ->
       int_ge (end_time s - start_time s) d = true).
  { intros s [Hs|Hs].
    - apply in_perfect_slots in Hs.
      apply (candidate_long_enough idx d (date s)). now left.
    - apply in_best_alternative_slots in Hs.
      apply (candidate_long_enough idx d (date s)). now right. }
  split; [exact Hlong|].
  intros Hd.
  assert (Hnever : forall n, int_ge n d = false) by (destruct Hd as [->| ->]; reflexivity).
  destruct (find_best_meeting_time idx d) as [perfect best].
  cbn [perfect_slots best_alternative_slots] in Hlong. f_equal.
  - destruct perfect as [|s l]; [reflexivity|].
    specialize (Hlong s (or_introl (or_introl eq_refl))).
    now rewrite Hnever in Hlong.
  - destruct best as [|s l]; [reflexivity|].
    specialize (Hlong s (or_intror (or_introl eq_refl))).
    now rewrite Hnever in Hlong.
Qed.

Lemma filter_map_swap {A B} (p : B -> bool) (f : A -> B) l :
  filter p (map f l) = map f (filter (fun a => p (f a)) l).
Proof.
  induction l as [|a l IH]; simpl; [reflexivity|].
  destruct (p (f a)); simpl; now rewrite IH.
Qed.

Lemma filter_filter_implies {A} (p q : A -> bool) l :
  (forall a, p a = true -> q a = true) ->
  filter p (filter q l) = filter p l.
Proof.
  intros H. induction l as [|a l IH]; simpl; [reflexivity|].
  destruct (q a) eqn:Eq; simpl.
  - now rewrite IH.
  - destruct (p a) eqn:Ep; [|exact IH]. apply H in Ep. congruence.
Qed.

Lemma int_ge_finite_le n q q' :
  (q <= q')%Q -> int_ge n (DFinite q') = true -> int_ge n (DFinite q) = true.
Proof.
  simpl. intros Hq H. apply Qle_bool_iff in H. apply Qle_bool_iff.
  eapply Qle_trans; eauto.
Qed.

(** X9.  Asking for a longer meeting only removes perfect slots: for
    durations [q <= q'] the perfect slots for [q'] are those for [q] that
    are at least [q'] long, in the same order. *)
Theorem longer_meeting_keeps_long_perfect_slots :
  forall (idx : index) (q q' : Q),
    (q <= q')%Q ->
    perfect_slots (find_best_meeting_time idx (DFinite q'))
    = filter (fun s => int_ge (end_time s - start_time s) (DFinite q'))
             (perfect_slots (find_best_meeting_time idx (DFinite q))).
Proof.
  intros idx q q' Hq. rewrite !find_best_meeting_time_eq. cbn [perfect_slots].
  rewrite filter_flat_map. apply flat_map_ext. intros dt.
  rewrite !candidates_of_date_eq.
  destruct (available_count idx dt =? 0)%nat; [reflexivity|]. cbn [fst].
  destruct (available_count idx dt =? length idx)%nat; [|reflexivity].
  rewrite filter_map_swap. cbn [end_time start_time].
  rewrite !find_common_slots_eq. f_equal.
  symmetry. apply (filter_filter_implies (long_enough (DFinite q'))).
  intros a. unfold long_enough. now apply int_ge_finite_le.
Qed.

Lemma longer_meeting_keeps_long_perfect_slots_witness :
  (1 <= 3)%Q
  /\ perfect_slots (find_best_meeting_time example_team (DFinite 3)) = [].
Proof.
  assert (H : (1 <= 3)%Q) by (unfold Qle; simpl; lia).
  split; [exact H|].
  rewrite (longer_meeting_keeps_long_perfect_slots example_team 1 3 H).
  reflexivity.
Defined.

(** ** The index that [parse_availability] builds *)

Lemma pystr_eqb_sym a b : pystr_eqb a b = pystr_eqb b a.
Proof.
  destruct (pystr_eqb a b) eqn:E.
  - apply pystr_eqb_eq in E. subst. symmetry. apply pystr_eqb_refl.
  - destruct (pystr_eqb b a) eqn:E'; [|reflexivity].
    apply pystr_eqb_eq in E'. subst. now rewrite pystr_eqb_refl in E.
Qed.

Lemma dget_dset_same {V} (d : dict V) k v : dget (dset d k v) k = Some v.
Proof.
  induction d as [|[k' v'] d IH]; simpl.
  - now rewrite pystr_eqb_refl.
  - destruct (pystr_eqb k' k) eqn:E; simpl; rewrite E; [reflexivity|exact IH].
Qed.

Lemma dget_dset_other {V} (d : dict V) k v k' :
  k <> k' -> dget (dset d k v) k' = dget d k'.
Proof.
  intros Hne. induction d as [|[k0 v0] d IH]; simpl.
  - destruct (pystr_eqb k k') eqn:E; [|reflexivity].
    apply pystr_eqb_eq in E. contradiction.
  - destruct (pystr_eqb k0 k) eqn:E; simpl.
    + apply pystr_eqb_eq in E. subst k0.
      destruct (pystr_eqb k k') eqn:E'; [|reflexivity].
      apply pystr_eqb_eq in E'. contradiction.
    + now rewrite IH.
Qed.

Lemma in_dset {V} (d : dict V) k v k' v' :
  In (k', v') (dset d k v) -> (k', v') = (k, v) \/ In (k', v') d.
Proof.
  induction d as [|[k0 v0] d IH]; simpl.
  - intros [H|[]]. now left.
  - destruct (pystr_eqb k0 k) eqn:E; simpl.
    + apply pystr_eqb_eq in E. subst k0. intros [H|H]; auto.
    + intros [H|H]; auto. destruct (IH H); auto.
Qed.

Lemma dmem_existsb {V} (d : dict V) k : dmem d k = existsb (pystr_eqb k) (dkeys d).
Proof.
  unfold dmem. induction d as [|[k' v'] d IH]; simpl; [reflexivity|].
  rewrite (pystr_eqb_sym k k'). destruct (pystr_eqb k' k); [reflexivity|exact IH].
Qed.

Section BuildIndex.
Context {U : UnicodeDB}.

Lemma parse_row_eq date_columns schedules row :
  parse_row date_columns schedules row
  = if keeps_row row
    then dset schedules (row_name row) (row_schedule date_columns row)
    else schedules.
Proof.
  unfold parse_row, keeps_row, row_name, row_schedule.
  destruct (strip (fst row)) as [|c name]; [reflexivity|].
  now destruct (existsb _ null_markers).
Qed.

Lemma lstrip_stops s : stops isspace (lstrip s).
Proof.
  induction s as [|c s IH]; simpl; [exact I|].
  destruct (isspace c) eqn:E; [exact IH|]. simpl. exact E.
Qed.

Lemma strip_ends s c :
  hd_error (strip s) = Some c \/ last_char (strip s) = Some c ->
  isspace c = false.
Proof.
  unfold strip, last_char. intros [H|H].
  - unfold rstrip in H.
    pose proof (lstrip_stops s) as Hs.
    destruct (lstrip s) as [|c0 t] eqn:E; [discriminate|].
    simpl in Hs. simpl rev in H.
    rewrite lstrip_app in H by (simpl; auto; discriminate).
    rewrite rev_app_distr in H. simpl in H. injection H as <-. exact Hs.
  - unfold rstrip in H. rewrite rev_involutive in H.
    pose proof (lstrip_stops (rev (lstrip s))) as Hs.
    destruct (lstrip (rev (lstrip s))); [discriminate|].
    simpl in H, Hs. injection H as <-. exact Hs.
Qed.

Lemma in_built_index date_columns rows : forall acc name sch,
  In (name, sch) (fold_left (parse_row date_columns) rows acc) ->
  In (name, sch) acc
  \/ exists row, In row rows /\ keeps_row row = true
                 /\ name = row_name row /\ sch = row_schedule date_columns row.
Proof.
  induction rows as [|row rows IH]; intros acc name sch H; simpl in H; [now left|].
  apply IH in H. destruct H as [H|(r & Hr & Hk & Hn & Hs)].
  - rewrite parse_row_eq in H. destruct (keeps_row row) eqn:E; [|now left].
    apply in_dset in H. destruct H as [[= -> ->]|H]; [|now left].
    right. exists row. repeat split; auto. now left.
  - right. exists r. repeat split; auto. now right.
Qed.

Lemma built_index_length date_columns rows : forall acc,
  (length (fold_left (parse_row date_columns) rows acc) <= length acc + length rows)%nat.
Proof.
  induction rows as [|row rows IH]; intros acc; simpl; [lia|].
  specialize (IH (parse_row date_columns acc row)).
  rewrite parse_row_eq in *. destruct (keeps_row row); [|lia].
  rewrite dset_length in IH. destruct (dmem acc (row_name row)); lia.
Qed.

(** X10.  Every participant of the index that [parse_availability]
    builds is named by the trimmed first cell of a row of the table; the
    name is not empty, neither starts nor ends with a blank, and its
    lower-case form is none of the markers nan, none; the index has at
    most as many participants as the table has rows. *)
Theorem parse_availability_names :
  forall (self : scheduler) (table : dataframe),
    availability_data self = Some table ->
    (length (fst (parse_availability self)) <= length (rows table))%nat
    /\ forall name,
         In name (dkeys (fst (parse_availability self))) ->
         (exists row, In row (rows table) /\ name = strip (fst row))
         /\ name <> []
         /\ (forall c, hd_error name = Some c \/ last_char name = Some c ->
                       isspace c = false)
         /\ ~ In (str_lower name) [py "nan"; py "none"; py ""].
Proof.
  intros self table Hdata. unfold parse_availability. rewrite Hdata. cbn [fst].
  split.
  - pose proof (built_index_length (date_columns table) (rows table) []) as H.
    simpl in H. exact H.
  - intros name Hname. unfold dkeys in Hname. apply in_map_iff in Hname.
    destruct Hname as ([name' sch] & <- & Hin). simpl.
    apply in_built_index in Hin. destruct Hin as [[]|(row & Hrow & Hkeep & -> & _)].
    unfold row_name. unfold keeps_row in Hkeep.
    split; [eauto|]. split; [|split].
    + destruct (strip (fst row)); [discriminate|discriminate].
    + apply strip_ends.
    + destruct (strip (fst row)) as [|c t] eqn:E; [discriminate|].
      apply negb_true_iff in Hkeep. intros Hin.
      assert (Hex : existsb (pystr_eqb (str_lower (c :: t))) null_markers = true).
      { apply existsb_exists. exists (str_lower (c :: t)).
        split; [exact Hin|apply pystr_eqb_refl]. }
      congruence.
Qed.

Lemma row_schedule_eq date_columns : forall cells acc,
  NoDup date_columns ->
  length cells = length date_columns ->
  (forall k, In k date_columns -> dmem acc k = false) ->
  fold_left
    (fun member_schedule '(date_col, availability_str) =>
       dset member_schedule date_col (parse_time_slot availability_str))
    (combine date_columns cells) acc
  = acc ++ combine date_columns (map parse_time_slot cells).
Proof.
  induction date_columns as [|col cols IH]; intros cells acc Hnd Hlen Hfresh.
  - simpl. now rewrite app_nil_r.
  - destruct cells as [|cell cells]; [discriminate|].
    inversion Hnd as [|? ? Hnin Hnd']; subst.
    simpl. rewrite dset_absent by (apply Hfresh; now left).
    rewrite IH; auto.
    + now rewrite <- app_assoc.
    + intros k Hk. apply dmem_false_not_in. unfold dkeys. rewrite map_app.
      intros Hin. apply in_app_or in Hin. destruct Hin as [Hin|[<-|[]]].
      * assert (Hf : dmem acc k = false) by (apply Hfresh; now right).
        apply dmem_false_not_in in Hf. contradiction.
      * contradiction.
Qed.

Lemma combine_keys {A B} (l : list A) (l' : list B) :
  length l' = length l -> map fst (combine l l') = l.
Proof.
  revert l'. induction l as [|a l IH]; intros [|b l'] H; try discriminate;
    [reflexivity|]. simpl. f_equal. apply IH. simpl in H. lia.
Qed.

(** X11.  When the labels of the date columns are distinct and every row
    has a cell for every date column, each participant of the index has
    exactly the date columns as keys, in column order, and under each the
    intervals parsed from the cell of one row of that name; so all
    participants share their dates. *)
Theorem parse_availability_schedules :
  forall (self : scheduler) (table : dataframe),
    availability_data self = Some table ->
    NoDup (date_columns table) ->
    Forall (fun row => length (snd row) = length (date_columns table))
           (rows table) ->
    forall name member_schedule,
      In (name, member_schedule) (fst (parse_availability self)) ->
      dkeys member_schedule = date_columns table
      /\ exists row,
           In row (rows table) /\ name = strip (fst row)
           /\ member_schedule
              = combine (date_columns table) (map parse_time_slot (snd row)).
Proof.
  intros self table Hdata Hnd Hrect name sch. unfold parse_availability.
  rewrite Hdata. cbn [fst]. intros Hin.
  apply in_built_index in Hin. destruct Hin as [[]|(row & Hrow & _ & -> & ->)].
  rewrite Forall_forall in Hrect. specialize (Hrect row Hrow).
  assert (Heq : row_schedule (date_columns table) row
                = combine (date_columns table) (map parse_time_slot (snd row))).
  { unfold row_schedule. rewrite row_schedule_eq; auto. }
  rewrite Heq. split.
  - unfold dkeys. apply combine_keys. now rewrite length_map.
  - exists row. auto.
Qed.

Lemma built_index_get date_columns rows : forall acc name,
  (forall row, In row rows -> keeps_row row = true -> row_name row <> name) ->
  dget (fold_left (parse_row date_columns) rows acc) name = dget acc name.
Proof.
  induction rows as [|row rows IH]; intros acc name Hnone; [reflexivity|].
  simpl. rewrite IH by (intros r Hr; apply Hnone; now right).
  rewrite parse_row_eq. destruct (keeps_row row) eqn:E; [|reflexivity].
  apply dget_dset_other. apply Hnone; [now left|exact E].
Qed.

Lemma built_index_keys date_columns rows : forall acc,
  dkeys (fold_left (parse_row date_columns) rows acc)
  = fold_left set_add (map row_name (filter keeps_row rows)) (dkeys acc).
Proof.
  induction rows as [|row rows IH]; intros acc; [reflexivity|].
  simpl. rewrite IH, parse_row_eq.
  destruct (keeps_row row); [|reflexivity].
  simpl. f_equal. rewrite dkeys_dset, dmem_existsb. reflexivity.
Qed.

(** X12.  A name that several rows carry keeps the schedule of its last
    row and the position of its first: looking a name up in the index
    gives the schedule of the last kept row of that name, and the names
    of the index are the names of the kept rows in the order of their
    first occurrence. *)
Theorem parse_availability_last_row_wins :
  forall (self : scheduler) (table : dataframe)
         (before after : list (pystr * list pystr)) (row : pystr * list pystr),
    availability_data self = Some table ->
    rows table = before ++ row :: after ->
    keeps_row row = true ->
    (forall later, In later after -> keeps_row later = true ->
                   row_name later <> row_name row) ->
    dget (fst (parse_availability self)) (row_name row)
    = Some (row_schedule (date_columns table) row)
    /\ dkeys (fst (parse_availability self))
       = fold_left set_add (map row_name (filter keeps_row (rows table))) [].
Proof.
  intros self table before after row Hdata Hrows Hkeep Hlast.
  unfold parse_availability. rewrite Hdata. cbn [fst]. split.
  - rewrite Hrows, fold_left_app. simpl.
    rewrite built_index_get by exact Hlast.
    rewrite parse_row_eq, Hkeep. apply dget_dset_same.
  - apply (built_index_keys (date_columns table) (rows table) []).
Qed.

End BuildIndex.

Lemma parse_availability_names_witness :
  dkeys (fst (@parse_availability ascii_db (mk_scheduler (Some example_table) [])))
  = [py "Alice"; py "Bob"; py "Carol"]
  /\ (length (fst (@parse_availability ascii_db (mk_scheduler (Some example_table) [])))
      <= length (rows example_table))%nat.
Proof.
  split; [reflexivity|].
  exact (proj1 (@parse_availability_names ascii_db
                  (mk_scheduler (Some example_table) []) example_table eq_refl)).
Defined.


Lemma parse_availability_schedules_witness :
  NoDup (date_columns example_table)
  /\ dkeys [(py "Mon", [(10, 14)]); (py "Tue", [(14, 17)])]
     = date_columns example_table.
Proof.
  assert (Hnd : NoDup (date_columns example_table)).
  { repeat constructor; simpl; intuition discriminate. }
  split; [exact Hnd|].
  refine (proj1 (@parse_availability_schedules ascii_db
                   (mk_scheduler (Some example_table) []) example_table
                   eq_refl Hnd _ (py "Bob") _ _)).
  - repeat constructor.
  - right. left. reflexivity.
Defined.

Lemma parse_availability_last_row_wins_witness :
  dget (fst (@parse_availability ascii_db
               (mk_scheduler
                  (Some (mk_dataframe [py "Mon"]
                           [(py "Ann", [py "9AM-12PM"]); (py " Ann ", [py "1-3PM"])]))
                  [])))
       (py "Ann")
  = Some [(py "Mon", [(13, 15)])].
Proof.
  refine (proj1 (@parse_availability_last_row_wins ascii_db
                   (mk_scheduler
                      (Some (mk_dataframe [py "Mon"]
                               [(py "Ann", [py "9AM-12PM"]); (py " Ann ", [py "1-3PM"])]))
                      [])
                   _ [(py "Ann", [py "9AM-12PM"])] [] (py " Ann ", [py "1-3PM"])
                   eq_refl eq_refl eq_refl _)).
  intros later [].
Defined.

(** ** Showing slots and reading them back *)

Lemma shown_slots_checked :
  forallb (fun a => forallb (fun b => @shown_slot_ok ascii_db a b) hours_of_day)
          hours_of_day = true.
Proof. vm_compute. reflexivity. Qed.

Lemma in_hours_of_day h : 0 <= h < 24 -> In h hours_of_day.
Proof.
  intros H. unfold hours_of_day. apply in_map_iff.
  exists (Z.to_nat h). split; [lia|]. apply List.in_seq. lia.
Qed.

Lemma shown_slot_facts s :
  in_day s ->
  @parse_part ascii_db [] (slot_str s) = [s]
  /\ @parse_part ascii_db [] (32%N :: slot_str s) = [s]
  /\ forallb shown_char (slot_str s) = true
  /\ slot_str s <> [].
Proof.
  intros [Ha Hb]. destruct s as [a b]. simpl in Ha, Hb.
  pose proof shown_slots_checked as H.
  rewrite forallb_forall in H. specialize (H a (in_hours_of_day a Ha)).
  rewrite forallb_forall in H. specialize (H b (in_hours_of_day b Hb)).
  unfold shown_slot_ok in H.
  destruct (@parse_part ascii_db [] (slot_str (a, b))) as [|[x y] [|? ?]];
    try discriminate.
  destruct (@parse_part ascii_db [] (32%N :: slot_str (a, b))) as [|[x' y'] [|? ?]];
    try discriminate.
  repeat (apply andb_prop in H; destruct H as [H ?]).
  repeat match goal with
         | E : (_ =? _) = true |- _ => apply Z.eqb_eq in E
         end.
  subst. repeat split; auto.
  intros E. rewrite E in *. discriminate.
Qed.

Lemma re_split_sep_free sep x c rest :
  forallb (fun c => negb (sep c)) x = true -> sep c = true ->
  re_split sep (x ++ c :: rest) = x :: re_split sep rest.
Proof.
  intros Hx Hc. induction x as [|y x IH]; simpl.
  - now rewrite Hc.
  - simpl in Hx. apply andb_prop in Hx. destruct Hx as [Hy Hx].
    apply negb_true_iff in Hy. rewrite Hy, IH by exact Hx. reflexivity.
Qed.

Lemma re_split_cons_free sep c s :
  sep c = false ->
  re_split sep (c :: s)
  = match re_split sep s with
    | piece :: pieces => (c :: piece) :: pieces
    | [] => [[c]]
    end.
Proof. intros H. simpl. now rewrite H. Qed.

Lemma re_split_nonempty sep s : re_split sep s <> [].
Proof.
  destruct s as [|c s]; simpl; [discriminate|].
  destruct (sep c); [discriminate|]. destruct (re_split sep s); discriminate.
Qed.

Lemma shown_char_no_sep s :
  forallb shown_char s = true ->
  forallb (fun c => negb (comma_or_semicolon c)) s = true.
Proof.
  rewrite !forallb_forall. intros H c Hc. specialize (H c Hc).
  unfold shown_char in H.
  repeat (apply andb_prop in H; destruct H as [H ?]). assumption.
Qed.

(** The pieces of the shown text: the first slot, then every other slot
    after a blank. *)
Lemma re_split_shown x strs :
  Forall (fun s => forallb shown_char s = true) (x :: strs) ->
  re_split comma_or_semicolon (join (py ", ") (x :: strs))
  = x :: map (cons 32%N) strs.
Proof.
  revert x. induction strs as [|y strs IH]; intros x Hall.
  - simpl. apply re_split_one. apply shown_char_no_sep. now inversion Hall.
  - inversion Hall as [|? ? Hx Hrest]; subst.
    change (join (py ", ") (x :: y :: strs))
      with (x ++ 44%N :: 32%N :: join (py ", ") (y :: strs)).
    rewrite re_split_sep_free by (auto using shown_char_no_sep).
    rewrite re_split_cons_free by reflexivity.
    rewrite (IH y Hrest). reflexivity.
Qed.

Lemma in_join c sep strs :
  In c (join sep strs) -> In c sep \/ exists s, In s strs /\ In c s.
Proof.
  induction strs as [|x strs IH]; [contradiction|].
  simpl. destruct strs as [|y strs].
  - intros H. right. exists x. auto.
  - intros H. apply in_app_or in H. destruct H as [H|H].
    + right. exists x. auto.
    + apply in_app_or in H. destruct H as [H|H]; [now left|].
      destruct (IH H) as [H'|(s & Hs & Hc)]; [now left|].
      right. exists s. split; [now right|exact Hc].
Qed.

Lemma join_head sep x strs c t :
  x = c :: t -> exists t', join sep (x :: strs) = c :: t'.
Proof.
  intros ->. simpl. destruct strs; eexists; reflexivity.
Qed.

Lemma last_cons_default {A} (strs : list A) : forall x y,
  last (y :: strs) x = last strs y.
Proof.
  induction strs as [|z strs IH]; intros x y; [reflexivity|].
  change (last (y :: z :: strs) x) with (last (z :: strs) x).
  now rewrite (IH x z), (IH y z).
Qed.

Lemma join_last sep strs : forall x c t,
  rev (last strs x) = c :: t ->
  exists t', rev (join sep (x :: strs)) = c :: t'.
Proof.
  induction strs as [|y strs IH]; intros x c t H.
  - simpl in *. eauto.
  - change (join sep (x :: y :: strs)) with (x ++ sep ++ join sep (y :: strs)).
    rewrite !rev_app_distr.
    assert (Hl : last (y :: strs) x = last strs y).
    { apply last_cons_default. }
    rewrite Hl in H. destruct (IH y c t H) as (t' & ->). simpl. eauto.
Qed.

Section ShownSlots.
Context {U : UnicodeDB}.

Lemma strip_fixed s :
  stops isspace s -> stops isspace (rev s) -> strip s = s.
Proof.
  intros H1 H2.
  assert (Hl : forall t, stops isspace t -> lstrip t = t).
  { intros [|c t] Ht; [reflexivity|]. simpl in *. now rewrite Ht. }
  unfold strip, rstrip. rewrite (Hl s H1), (Hl (rev s) H2).
  apply rev_involutive.
Qed.

Lemma shown_char_facts c :
  shown_char c = true ->
  is_ascii c /\ isspace c = false /\ ascii_upper c = c
  /\ c <> 78%N /\ c <> 76%N /\ c <> 79%N.
Proof.
  unfold shown_char. intros H.
  apply andb_prop in H. destruct H as [H Hkey].
  apply andb_prop in H. destruct H as [H _].
  apply andb_prop in H. destruct H as [H Hup].
  apply andb_prop in H. destruct H as [Hlt Hsp].
  apply N.ltb_lt in Hlt. apply negb_true_iff in Hsp. apply N.eqb_eq in Hup.
  apply negb_true_iff in Hkey. apply orb_false_iff in Hkey.
  destruct Hkey as [Hkey E3]. apply orb_false_iff in Hkey.
  destruct Hkey as [E1 E2]. apply N.eqb_neq in E1, E2, E3.
  repeat split; auto. now rewrite isspace_ascii.
Qed.

Lemma shown_text_char strs c :
  Forall (fun s => forallb shown_char s = true) strs ->
  In c (join (py ", ") strs) ->
  c = 44%N \/ c = 32%N \/ shown_char c = true.
Proof.
  intros Hall Hc. apply in_join in Hc. destruct Hc as [Hc|(s & Hs & Hc)].
  - simpl in Hc. intuition.
  - rewrite Forall_forall in Hall. specialize (Hall s Hs).
    rewrite forallb_forall in Hall. auto.
Qed.

Lemma shown_text_normalised strs :
  Forall (fun s => forallb shown_char s = true /\ s <> []) strs ->
  normalise (join (py ", ") strs) = join (py ", ") strs
  /\ has_keyword (join (py ", ") strs) = false.
Proof.
  intros Hall.
  assert (Hall' : Forall (fun s => forallb shown_char s = true) strs).
  { eapply Forall_impl; [|exact Hall]. now intros s [H _]. }
  assert (Hchars : forall c, In c (join (py ", ") strs) ->
                     is_ascii c /\ ascii_upper c = c
                     /\ c <> 78%N /\ c <> 76%N /\ c <> 79%N).
  { intros c Hc. destruct (shown_text_char strs c Hall' Hc) as [->|[->|H]].
    - repeat split; try reflexivity; discriminate.
    - repeat split; try reflexivity; discriminate.
    - apply shown_char_facts in H. tauto. }
  split.
  - unfold normalise.
    assert (Hstrip : strip (join (py ", ") strs) = join (py ", ") strs).
    { destruct strs as [|x strs]; [reflexivity|].
      inversion Hall as [|? ? [Hx Hxne] Hrest]; subst.
      apply strip_fixed.
      - destruct x as [|c t]; [now elim Hxne|].
        destruct (join_head (py ", ") (c :: t) strs c t eq_refl) as (t' & ->).
        simpl. simpl in Hx. apply andb_prop in Hx. destruct Hx as [Hc _].
        now apply shown_char_facts in Hc.
      - assert (Hlast : forallb shown_char (last strs x) = true /\ last strs x <> []).
        { clear -Hx Hxne Hrest. revert x Hx Hxne.
          induction Hrest as [|y strs [Hy Hyne] _ IH]; intros x Hx Hxne;
            [now split|].
          simpl. destruct strs; [now split|]. now apply IH. }
        destruct Hlast as [Hl Hlne].
        destruct (rev (last strs x)) as [|c t] eqn:E.
        { apply (f_equal (@rev _)) in E. rewrite rev_involutive in E.
          now elim Hlne. }
        destruct (join_last (py ", ") strs x c t E) as (t' & ->).
        simpl. rewrite forallb_forall in Hl.
        assert (Hc : shown_char c = true).
        { apply Hl. apply in_rev. rewrite E. now left. }
        now apply shown_char_facts in Hc. }
    rewrite Hstrip. rewrite str_upper_ascii.
    + transitivity (map (fun c => c) (join (py ", ") strs)); [|apply map_id].
      apply map_ext_in. intros c Hc. now apply Hchars.
    + apply Forall_forall. intros c Hc. now apply Hchars.
  - unfold has_keyword, unavailable_keywords. simpl existsb.
    assert (Hn : ~ In 78%N (join (py ", ") strs))
      by (intros H; apply Hchars in H; tauto).
    assert (Hl : ~ In 76%N (join (py ", ") strs))
      by (intros H; apply Hchars in H; tauto).
    assert (Ho : ~ In 79%N (join (py ", ") strs))
      by (intros H; apply Hchars in H; tauto).
    rewrite (contains_false_without (py "NA") _ 78%N) by (simpl; tauto).
    rewrite (contains_false_without (py "N/A") _ 78%N) by (simpl; tauto).
    rewrite (contains_false_without (py "ON LEAVE") _ 78%N) by (simpl; tauto).
    rewrite (contains_false_without (py "LEAVE") _ 76%N) by (simpl; tauto).
    rewrite (contains_false_without (py "UNAVAILABLE") _ 78%N) by (simpl; tauto).
    rewrite (contains_false_without (py "OFF") _ 79%N) by (simpl; tauto).
    reflexivity.
Qed.

End ShownSlots.

Lemma shown_strs_ok slots :
  Forall in_day slots ->
  Forall (fun s => forallb shown_char s = true /\ s <> [])
         (map slot_str slots).
Proof.
  induction 1 as [|s slots Hs _ IH]; simpl; constructor; [|exact IH].
  destruct (shown_slot_facts s Hs) as (_ & _ & H1 & H2). now split.
Qed.

Lemma parse_after_blank slots :
  Forall in_day slots ->
  flat_map (@parse_part ascii_db [])
           (map (cons 32%N) (map slot_str slots)) = slots.
Proof.
  induction 1 as [|s slots Hs _ IH]; simpl; [reflexivity|].
  destruct (shown_slot_facts s Hs) as (_ & -> & _). now rewrite IH.
Qed.

(** X13.  Reading back the text with which the front end shows the slots
    of a participant (each slot as the two formatted hours joined by a
    hyphen, the slots joined by a comma and a blank) gives the slots
    themselves, in order, provided every hour shown is an hour of the day;
    this holds under every table of character classes. *)
Theorem shown_slots_parse_back {U : UnicodeDB} (slots : list interval) :
  Forall in_day slots ->
  parse_time_slot (shown_slots slots) = slots.
Proof.
  intros Hall. pose proof (shown_strs_ok slots Hall) as Hstrs.
  assert (Hstrs' : Forall (fun s => forallb shown_char s = true)
                          (map slot_str slots)).
  { eapply Forall_impl; [|exact Hstrs]. now intros s [H _]. }
  rewrite parse_time_slot_plain.
  2:{ apply Forall_forall. intros c Hc. left.
      destruct (@shown_text_char _ c Hstrs' Hc) as [->|[->|H]];
        [reflexivity|reflexivity|].
      now apply (@shown_char_facts ascii_db) in H. }
  rewrite (@parse_time_slot_unfold ascii_db). unfold shown_slots.
  destruct (@shown_text_normalised ascii_db _ Hstrs) as [-> ->].
  destruct slots as [|s slots]; [reflexivity|].
  change (map slot_str (s :: slots)) with (slot_str s :: map slot_str slots).
  rewrite re_split_shown by exact Hstrs'.
  inversion Hall as [|? ? Hs Hrest]; subst.
  change (flat_map ?f (?x :: ?l)) with (f x ++ flat_map f l).
  destruct (shown_slot_facts s Hs) as (-> & _).
  now rewrite (parse_after_blank slots Hrest).
Qed.

Lemma shown_slots_parse_back_witness :
  Forall in_day [(9, 12); (14, 17); (0, 23)]
  /\ @parse_time_slot ascii_db (shown_slots [(9, 12); (14, 17); (0, 23)])
     = [(9, 12); (14, 17); (0, 23)].
Proof.
  assert (H : Forall in_day [(9, 12); (14, 17); (0, 23)])
    by (repeat constructor; simpl; lia).
  split; [exact H|].
  exact (@shown_slots_parse_back ascii_db [(9, 12); (14, 17); (0, 23)] H).
Defined.

(** ** Letter case and surrounding blanks *)

Section CellNormalisation.
Context {U : UnicodeDB}.

Lemma lstrip_map (f : char -> char) s :
  Forall (fun c => isspace (f c) = isspace c) s ->
  lstrip (map f s) = map f (lstrip s).
Proof.
  induction 1 as [|c s Hc _ IH]; simpl; [reflexivity|].
  rewrite Hc. destruct (isspace c); [exact IH|reflexivity].
Qed.

Lemma strip_map (f : char -> char) s :
  Forall (fun c => isspace (f c) = isspace c) s ->
  strip (map f s) = map f (strip s).
Proof.
  intros H. unfold strip, rstrip.
  rewrite (lstrip_map f s H), <- map_rev, lstrip_map, map_rev; [reflexivity|].
  apply Forall_rev. now apply lstrip_Forall.
Qed.

Lemma isspace_upper_ascii s :
  Forall is_ascii s ->
  Forall (fun c => isspace (ascii_upper c) = isspace c) s.
Proof.
  intros H. eapply Forall_impl; [|exact H]. intros c Hc. simpl.
  rewrite !isspace_ascii.
  - apply ascii_isspace_upper.
  - exact Hc.
  - unfold is_ascii, ascii_upper in *.
    destruct ((97 <=? c)%N && (c <=? 122)%N); lia.
Qed.

Lemma normalise_ascii s :
  Forall is_ascii s -> normalise s = strip (map ascii_upper s).
Proof.
  intros H. unfold normalise.
  rewrite str_upper_ascii by now apply strip_Forall.
  symmetry. apply strip_map. now apply isspace_upper_ascii.
Qed.

Lemma lstrip_blanks w s : forallb isspace w = true -> lstrip (w ++ s) = lstrip s.
Proof.
  induction w as [|c w IH]; simpl; [reflexivity|].
  intros H. apply andb_prop in H. destruct H as [-> H]. auto.
Qed.

Lemma lstrip_all_blanks w : forallb isspace w = true -> lstrip w = [].
Proof.
  intros H. rewrite <- (app_nil_r w). now rewrite lstrip_blanks.
Qed.

Lemma rstrip_blanks s w : forallb isspace w = true -> rstrip (s ++ w) = rstrip s.
Proof.
  intros H. unfold rstrip. rewrite rev_app_distr, lstrip_blanks; [reflexivity|].
  rewrite forallb_forall in *. intros c Hc. apply H. now apply in_rev.
Qed.

Lemma lstrip_before_blanks s w :
  forallb isspace w = true ->
  rstrip (lstrip (s ++ w)) = rstrip (lstrip s).
Proof.
  intros H. induction s as [|c s IH]; simpl.
  - now rewrite lstrip_all_blanks.
  - destruct (isspace c); [exact IH|].
    exact (rstrip_blanks (c :: s) w H).
Qed.

Lemma strip_blanks w s w' :
  forallb isspace w = true -> forallb isspace w' = true ->
  strip (w ++ s ++ w') = strip s.
Proof.
  intros H H'. unfold strip. rewrite lstrip_blanks by exact H.
  now apply lstrip_before_blanks.
Qed.

(** X14.  Letter case does not matter in an ASCII cell: two ASCII cells
    that differ only in the case of their letters are parsed to the same
    intervals. *)
Theorem parse_time_slot_ignores_case (s s' : pystr) :
  Forall is_ascii s -> Forall is_ascii s' ->
  map ascii_upper s = map ascii_upper s' ->
  parse_time_slot s = parse_time_slot s'.
Proof.
  intros Hs Hs' E.
  rewrite !parse_time_slot_unfold, (normalise_ascii s Hs), (normalise_ascii s' Hs').
  now rewrite E.
Qed.

(** X15.  Blanks before and after the text of a cell are ignored, whatever
    the cell holds. *)
Theorem parse_time_slot_ignores_outer_blanks (w s w' : pystr) :
  forallb isspace w = true -> forallb isspace w' = true ->
  parse_time_slot (w ++ s ++ w') = parse_time_slot s.
Proof.
  intros H H'. rewrite !parse_time_slot_unfold. unfold normalise.
  now rewrite (strip_blanks w s w' H H').
Qed.

End CellNormalisation.

Lemma parse_time_slot_ignores_case_witness :
  @parse_time_slot ascii_db (py "9am-12pm, 2-5Pm") = [(9, 12); (14, 17)]
  /\ @parse_time_slot ascii_db (py "9am-12pm, 2-5Pm")
     = @parse_time_slot ascii_db (py "9AM-12PM, 2-5pM").
Proof.
  split; [reflexivity|].
  apply (@parse_time_slot_ignores_case ascii_db).
  - repeat constructor.
  - repeat constructor.
  - reflexivity.
Defined.

Lemma parse_time_slot_ignores_outer_blanks_witness :
  @parse_time_slot ascii_db (py "9-11AM") = [(9, 11)]
  /\ @parse_time_slot ascii_db ([32; 9]%N ++ py "9-11AM" ++ [32; 10]%N)
     = @parse_time_slot ascii_db (py "9-11AM").
Proof.
  split; [reflexivity|].
  apply (@parse_time_slot_ignores_outer_blanks ascii_db); reflexivity.
Defined.

Lemma intersect_all_slots_any_order_witness :
  In (10, 12) (_intersect_all_slots [[(9, 12)]; [(10, 14); (15, 16)]] (DFinite 1))
  /\ In (10, 12) (_intersect_all_slots [[(10, 14); (15, 16)]; [(9, 12)]] (DFinite 1)).
Proof.
  assert (H : In (10, 12)
                (_intersect_all_slots [[(9, 12)]; [(10, 14); (15, 16)]] (DFinite 1)))
    by (vm_compute; auto).
  split; [exact H|].
  apply (proj1 (intersect_all_slots_any_order
                  [[(9, 12)]; [(10, 14); (15, 16)]]
                  [[(10, 14); (15, 16)]; [(9, 12)]]
                  (DFinite 1) (10, 12) (perm_swap _ _ _) (le_n 2))).
  exact H.
Defined.

(** ** Slots that do not overlap *)

Lemma FOP_impl {A} (R R' : A -> A -> Prop) l :
  (forall x y, In x l -> In y l -> R x y -> R' x y) ->
  ForallOrdPairs R l -> ForallOrdPairs R' l.
Proof.
  intros Himp H. induction H as [|a l Ha Hl IH]; constructor.
  - rewrite Forall_forall in *. intros y Hy.
    apply Himp; [now left|now right|auto].
  - apply IH. intros x y Hx Hy. apply Himp; now right.
Qed.

Lemma FOP_filter {A} (R : A -> A -> Prop) p l :
  ForallOrdPairs R l -> ForallOrdPairs R (filter p l).
Proof.
  induction 1 as [|a l Ha Hl IH]; simpl; [constructor|].
  destruct (p a); [|exact IH]. constructor; [|exact IH].
  rewrite Forall_forall in *. intros y Hy. apply filter_In in Hy.
  now apply Ha.
Qed.

Lemma FOP_map {A B} (f : A -> B) (R : B -> B -> Prop) l :
  ForallOrdPairs (fun x y => R (f x) (f y)) l -> ForallOrdPairs R (map f l).
Proof.
  induction 1 as [|a l Ha Hl IH]; simpl; constructor; [|exact IH].
  rewrite Forall_forall in *. intros y Hy. apply in_map_iff in Hy.
  destruct Hy as (x & <- & Hx). now apply Ha.
Qed.

Lemma FOP_app {A} (R : A -> A -> Prop) l1 l2 :
  ForallOrdPairs R l1 -> ForallOrdPairs R l2 ->
  (forall x y, In x l1 -> In y l2 -> R x y) ->
  ForallOrdPairs R (l1 ++ l2).
Proof.
  intros H1 H2 Hx. induction H1 as [|a l Ha Hl IH]; simpl; [exact H2|].
  constructor.
  - apply Forall_app. split; [exact Ha|].
    apply Forall_forall. intros y Hy. apply Hx; [now left|exact Hy].
  - apply IH. intros x y Hin. apply Hx. now right.
Qed.

Lemma FOP_list_prod {A B} (RA : A -> A -> Prop) (RB : B -> B -> Prop) la lb :
  ForallOrdPairs RA la -> ForallOrdPairs RB lb ->
  ForallOrdPairs (fun p q => RA (fst p) (fst q) \/ RB (snd p) (snd q))
                 (list_prod la lb).
Proof.
  intros Ha Hb. induction Ha as [|a la Hfa Hla IH]; simpl; [constructor|].
  apply FOP_app.
  - apply FOP_map. simpl. eapply FOP_impl; [|exact Hb]. intros; now right.
  - exact IH.
  - intros x y Hx Hy. apply in_map_iff in Hx. destruct Hx as (b & <- & _).
    destruct y as [a' b']. apply in_prod_iff in Hy. destruct Hy as [Ha' _].
    left. simpl. rewrite Forall_forall in Hfa. now apply Hfa.
Qed.

Lemma overlap_disjoint a b a' b' :
  disjoint a a' \/ disjoint b b' -> disjoint (overlap a b) (overlap a' b').
Proof. unfold disjoint, overlap. simpl. lia. Qed.

Lemma pairwise_overlaps_non_overlapping acc member :
  non_overlapping acc -> non_overlapping member ->
  non_overlapping (pairwise_overlaps acc member).
Proof.
  intros Ha Hm. unfold non_overlapping, pairwise_overlaps.
  apply FOP_filter, FOP_map.
  eapply FOP_impl; [|exact (FOP_list_prod disjoint disjoint acc member Ha Hm)].
  intros x y _ _ H. now apply overlap_disjoint.
Qed.

Lemma fold_non_overlapping rest : forall acc,
  non_overlapping acc -> Forall non_overlapping rest ->
  non_overlapping (fold_left fold_step rest acc).
Proof.
  induction rest as [|member rest IH]; intros acc Ha Hr; [exact Ha|].
  inversion Hr as [|? ? Hm Hrest]; subst. simpl. apply IH; [|exact Hrest].
  unfold fold_step. destruct acc; [constructor|].
  now apply pairwise_overlaps_non_overlapping.
Qed.

(** X16.  When no participant has two intervals that share time, no two
    of the intervals that [_intersect_all_slots] returns share time. *)
Theorem intersect_all_slots_non_overlapping
  (all_member_slots : list (list interval)) (duration_hours : duration) :
  Forall non_overlapping all_member_slots ->
  non_overlapping (_intersect_all_slots all_member_slots duration_hours).
Proof.
  intros H. rewrite intersect_all_slots_eq. unfold intersect_spec.
  apply FOP_filter. destruct all_member_slots as [|first rest]; [constructor|].
  inversion H; subst. now apply fold_non_overlapping.
Qed.

Lemma intersect_all_slots_non_overlapping_witness :
  _intersect_all_slots [[(9, 12); (13, 17)]; [(10, 14); (15, 18)]] (DFinite 1)
  = [(10, 12); (13, 14); (15, 17)]
  /\ non_overlapping
       (_intersect_all_slots [[(9, 12); (13, 17)]; [(10, 14); (15, 18)]]
                             (DFinite 1)).
Proof.
  split; [reflexivity|].
  apply intersect_all_slots_non_overlapping.
  repeat constructor; unfold disjoint; simpl; lia.
Defined.

(* ================================================================== *)
(** * The order of the alternatives, read on the coverage of the slots *)

Lemma discovered_coverage idx d dt s :
  In s (snd (candidates_of_date idx d dt)) ->
  date s = dt
  /\ coverage s = Some (true_div (available_count idx dt) (length idx)).
Proof.
  intros H. split; [apply (candidates_date idx d dt s); now right|].
  rewrite candidates_of_date_eq in H.
  destruct (available_count idx dt =? 0)%nat; cbn [snd] in H; [contradiction|].
  destruct (2 <=? available_count idx dt)%nat; [|contradiction].
  apply in_map_iff in H. destruct H as (slot & <- & _). reflexivity.
Qed.

Lemma descending_on_coverage l :
  Forall (fun s => exists q, coverage s = Some q) l ->
  StronglySorted descending l -> StronglySorted coverage_descends l.
Proof.
  intros Hall Hs. induction Hs as [|a l Hl IH Ha]; [constructor|].
  inversion Hall as [|? ? [qa Hqa] Hrest]; subst.
  constructor; [now apply IH|].
  rewrite Forall_forall in *. intros y Hy.
  destruct (Hrest y Hy) as [qy Hqy]. specialize (Ha y Hy).
  unfold descending, coverage_key in Ha. rewrite Hqa, Hqy in Ha.
  exists qa, qy. auto.
Qed.

Lemma coverage_is_has_coverage c l :
  Forall (fun s => exists q, coverage s = Some q) l ->
  filter (coverage_is c) l = filter (has_coverage c) l.
Proof.
  intros Hall. apply filter_ext_in. intros s Hs.
  rewrite Forall_forall in Hall. destruct (Hall s Hs) as [q Hq].
  unfold coverage_is, has_coverage, coverage_key. now rewrite Hq.
Qed.

(** C3.  In the result of [find_best_meeting_time] the list
    [best_alternative_slots] has at most 10 entries, each carries a
    coverage (the number of members available on its date over the number
    of participants), and from one entry to any later one the coverage
    does not increase; it is the first 10 entries of a stable sort of the
    alternatives in the order of discovery: a rearrangement of them,
    descending in coverage, in which the candidates of any one coverage
    keep the order they were discovered in, which is the order of the
    dates and, within a date, of discovery.  [perfect_slots] is the list
    built by the loop over the sorted dates, untouched, so its dates are
    in sorted order. *)
Theorem best_alternatives_sorted_stable_top10 :
  forall (idx : index) (d : duration),
    (length (best_alternative_slots (find_best_meeting_time idx d)) <= 10)%nat
    /\ StronglySorted coverage_descends
         (best_alternative_slots (find_best_meeting_time idx d))
    /\ (exists discovered,
          discovered
          = flat_map (fun date => snd (candidates_of_date idx d date))
                     (sorted_str (all_dates idx))
          /\ Forall (fun s => coverage s
                              = Some (true_div (available_count idx (date s))
                                               (length idx)))
                    discovered
          /\ best_alternative_slots (find_best_meeting_time idx d)
             = firstn 10 (sort_by_coverage discovered)
          /\ Permutation (sort_by_coverage discovered) discovered
          /\ StronglySorted coverage_descends (sort_by_coverage discovered)
          /\ (forall c, filter (coverage_is c) (sort_by_coverage discovered)
                        = filter (coverage_is c) discovered)
          /\ StronglySorted (fun a b => str_ltb b a = false) (map date discovered))
    /\ perfect_slots (find_best_meeting_time idx d)
       = flat_map (fun date => fst (candidates_of_date idx d date))
                  (sorted_str (all_dates idx))
    /\ StronglySorted (fun a b => str_ltb b a = false)
         (map date (perfect_slots (find_best_meeting_time idx d))).
Proof.
  intros idx d. rewrite find_best_meeting_time_eq.
  cbn [best_alternative_slots perfect_slots].
  set (discovered := flat_map (fun date => snd (candidates_of_date idx d date))
                              (sorted_str (all_dates idx))).
  assert (Hcov : Forall (fun s => coverage s
                                  = Some (true_div (available_count idx (date s))
                                                   (length idx)))
                        discovered).
  { apply Forall_forall. intros s Hs. apply in_flat_map in Hs.
    destruct Hs as (dt & _ & Hs).
    destruct (discovered_coverage idx d dt s Hs) as [-> Hc]. exact Hc. }
  assert (Hsome : Forall (fun s => exists q, coverage s = Some q) discovered).
  { eapply Forall_impl; [|exact Hcov]. intros s Hs. eexists. exact Hs. }
  assert (Hperm : Permutation (sort_by_coverage discovered) discovered)
    by apply sort_by_perm.
  assert (Hsome' : Forall (fun s => exists q, coverage s = Some q)
                          (sort_by_coverage discovered)).
  { apply Forall_forall. intros s Hs. rewrite Forall_forall in Hsome.
    apply Hsome. now apply (Permutation_in _ Hperm). }
  assert (Hsorted : StronglySorted coverage_descends (sort_by_coverage discovered)).
  { apply descending_on_coverage; [exact Hsome'|apply sort_by_coverage_sorted]. }
  split; [rewrite length_firstn; lia|].
  split; [now apply StronglySorted_firstn|].
  split; [|split].
  - exists discovered. split; [reflexivity|]. split; [exact Hcov|].
    split; [reflexivity|]. split; [exact Hperm|]. split; [exact Hsorted|].
    split.
    + intros c.
      rewrite (coverage_is_has_coverage c _ Hsome'),
              (coverage_is_has_coverage c _ Hsome).
      apply sort_by_stable. intros a b Ha Hb. now apply (has_coverage_ties c).
    + apply dates_in_order; [|apply sorted_str_sorted].
      intros dt s Hs. apply (candidates_date idx d dt s). now right.
  - reflexivity.
  - apply dates_in_order; [|apply sorted_str_sorted].
    intros dt s Hs. apply (candidates_date idx d dt s). now left.
Qed.

(* ================================================================== *)
(** * A date with one participant available *)

Lemma lone_participant_available (member : pystr) (sch : schedule) (dt : pystr) :
  available_count [(member, sch)] dt = 1%nat ->
  exists intervals,
    dget sch dt = Some intervals
    /\ available_on [(member, sch)] dt = [(member, intervals)].
Proof.
  unfold available_count, available_on. cbn [fold_left].
  destruct (dget sch dt) as [[|s l]|]; try discriminate.
  intros _. exists (s :: l). split; reflexivity.
Qed.

Lemma in_sorted_dates (idx : index) (member : pystr) (sch : schedule)
  (dt : pystr) (intervals : list interval) :
  In (member, sch) idx -> dget sch dt = Some intervals ->
  In dt (sorted_str (all_dates idx)).
Proof.
  intros Hin Hget.
  apply (Permutation_in _ (Permutation_sym (sort_by_perm str_ltb (all_dates idx)))).
  apply in_all_dates. exists sch. split.
  - unfold dvalues. apply in_map_iff. now exists (member, sch).
  - now apply (dget_in_keys sch dt intervals).
Qed.

(** C4, amended.  A date on which exactly 1 participant is available
    contributes no candidate to [best_alternative_slots], and none to
    [perfect_slots] unless that participant is the only one of the index;
    in that case the perfect slots of the result on that date are exactly
    the intervals of that participant on the date that are at least as
    long as the duration, in their order, with the participant as the
    only available member. *)
Theorem lone_available_date_candidates :
  forall (idx : index) (d : duration) (dt : pystr),
    available_count idx dt = 1%nat ->
    snd (candidates_of_date idx d dt) = []
    /\ (forall s, In s (best_alternative_slots (find_best_meeting_time idx d)) ->
                  date s <> dt)
    /\ (length idx <> 1%nat ->
        fst (candidates_of_date idx d dt) = []
        /\ forall s, In s (perfect_slots (find_best_meeting_time idx d)) ->
                     date s <> dt)
    /\ (length idx = 1%nat ->
        exists member sch intervals,
          idx = [(member, sch)]
          /\ dget sch dt = Some intervals
          /\ fst (candidates_of_date idx d dt)
             = map (fun iv => mk_slot dt (fst iv) (snd iv) [member] [] None)
                   (filter (fun iv => int_ge (snd iv - fst iv) d) intervals)
          /\ forall s,
               In s (perfect_slots (find_best_meeting_time idx d)) /\ date s = dt
               <-> In s (map (fun iv => mk_slot dt (fst iv) (snd iv) [member] [] None)
                             (filter (fun iv => int_ge (snd iv - fst iv) d)
                                     intervals))).
Proof.
  intros idx d dt Hone.
  assert (Hsnd : snd (candidates_of_date idx d dt) = []).
  { rewrite candidates_of_date_eq, Hone. reflexivity. }
  assert (Hfst : length idx <> 1%nat -> fst (candidates_of_date idx d dt) = []).
  { intros Hlen. rewrite candidates_of_date_eq, Hone.
    apply Nat.neq_sym, Nat.eqb_neq in Hlen. rewrite Hlen. reflexivity. }
  split; [exact Hsnd|]. split; [|split].
  - intros s Hs Hdate. apply in_best_alternative_slots in Hs.
    rewrite Hdate, Hsnd in Hs. contradiction.
  - intros Hlen. split; [now apply Hfst|].
    intros s Hs Hdate. apply in_perfect_slots in Hs.
    rewrite Hdate, (Hfst Hlen) in Hs. contradiction.
  - intros Hlen. destruct idx as [|[member sch] [|? ?]]; try discriminate.
    destruct (lone_participant_available member sch dt Hone)
      as (intervals & Hget & Hav).
    assert (Hcand : fst (candidates_of_date [(member, sch)] d dt)
                    = map (fun iv => mk_slot dt (fst iv) (snd iv) [member] [] None)
                          (filter (fun iv => int_ge (snd iv - fst iv) d) intervals)).
    { rewrite candidates_of_date_eq, Hone, Hav. cbn [Nat.eqb length fst dkeys map].
      unfold _find_common_slots, dvalues. cbn [map snd].
      unfold _intersect_all_slots. cbn [intersect_loop].
      rewrite duration_loop_filter. reflexivity. }
    exists member, sch, intervals.
    split; [reflexivity|]. split; [exact Hget|]. split; [exact Hcand|].
    intros s. rewrite <- Hcand. split.
    + intros [Hs Hdate]. apply in_perfect_slots in Hs. now rewrite Hdate in Hs.
    + intros Hs. split.
      * rewrite find_best_meeting_time_eq. cbn [perfect_slots].
        apply in_flat_map. exists dt. split; [|exact Hs].
        apply (in_sorted_dates _ member sch dt intervals); [now left|exact Hget].
      * apply (candidates_date [(member, sch)] d dt s). now left.
Qed.

(** On the Monday of [example_two_days] only Alice is free: the date gives
    no slot, while the Tuesday gives one of each kind.  Alice alone gets
    her Monday morning as a perfect slot. *)
Lemma lone_available_date_candidates_witness :
  (available_count example_two_days (py "Mon") = 1%nat
   /\ perfect_slots (find_best_meeting_time example_two_days (DFinite 1))
      = [mk_slot (py "Tue") 10 12 [py "Alice"; py "Bob"] [] None]
   /\ (forall s, In s (best_alternative_slots
                         (find_best_meeting_time example_two_days (DFinite 1))) ->
                 date s <> py "Mon")
   /\ (forall s, In s (perfect_slots
                         (find_best_meeting_time example_two_days (DFinite 1))) ->
                 date s <> py "Mon"))
  /\ (available_count example_single (py "Mon") = 1%nat
      /\ exists member sch intervals,
           example_single = [(member, sch)]
           /\ dget sch (py "Mon") = Some intervals
           /\ fst (candidates_of_date example_single (DFinite 1) (py "Mon"))
              = map (fun iv => mk_slot (py "Mon") (fst iv) (snd iv) [member] [] None)
                    (filter (fun iv => int_ge (snd iv - fst iv) (DFinite 1))
                            intervals)
           /\ forall s,
                In s (perfect_slots (find_best_meeting_time example_single (DFinite 1)))
                /\ date s = py "Mon"
                <-> In s (map (fun iv => mk_slot (py "Mon") (fst iv) (snd iv)
                                           [member] [] None)
                              (filter (fun iv => int_ge (snd iv - fst iv) (DFinite 1))
                                      intervals))).
Proof.
  split.
  - pose proof (lone_available_date_candidates
                  example_two_days (DFinite 1) (py "Mon") eq_refl)
      as (_ & Halt & Hperfect & _).
    split; [reflexivity|]. split; [reflexivity|]. split; [exact Halt|].
    apply Hperfect. vm_compute. discriminate.
  - split; [reflexivity|].
    exact (proj2 (proj2 (proj2 (lone_available_date_candidates
                                  example_single (DFinite 1) (py "Mon") eq_refl)))
                 eq_refl).
Defined.

(* ================================================================== *)
(** * The hours that the parser returns *)

Lemma parse_part_occurrence {U : UnicodeDB} (part : pystr) (i : interval) :
  In i (parse_part [] part) ->
  parse_part [] part = [i]
  /\ exists pre ds w1 sp w2 dash w3 de w4 ep rest,
       strip part = pre ++ time_text ds w1 sp w2 dash w3 de w4 ep ++ rest
       /\ time_text_ok ds w1 w2 dash w3 de w4
       /\ i = normalised (py_int ds) sp (py_int de) ep
       /\ forall j, (j < length pre)%nat ->
                    run time_range (skipn j (strip part)) [] = [].
Proof.
  intros Hi. unfold parse_part in *.
  destruct (strip part) as [|c t] eqn:Es; [contradiction|].
  destruct (re_search time_range (c :: t)) as [m|] eqn:E; [|contradiction].
  destruct Hi as [<-|[]]. split; [reflexivity|].
  apply re_search_occurrence in E.
  destruct E as (pre & ds & w1 & sp & w2 & dash & w3 & de & w4 & ep & rest
                 & Hs & -> & H1 & H2 & H3 & H4 & H5 & H6 & H7 & H8 & H9 & Hno).
  exists pre, ds, w1, sp, w2, dash, w3, de, w4, ep, rest.
  split; [exact Hs|]. split; [unfold time_text_ok; tauto|].
  split; [apply convert_time_groups|exact Hno].
Qed.

(** C6, the claim as it stands fails twice: "9-12PM" parses to (21,12),
    whose end is not greater than its start, and "13PM-14PM" parses to
    (25,26), whose hours are not hours of the day. *)
Lemma parsed_interval_not_always_ordered :
  ~ (forall (U : UnicodeDB) time_str i,
       In i (parse_time_slot time_str) -> fst i < snd i)
  /\ ~ (forall (U : UnicodeDB) time_str i,
          In i (parse_time_slot time_str) ->
          0 <= fst i < 24 /\ 0 <= snd i < 24).
Proof.
  split; intros H.
  - specialize (H ascii_db (py "9-12PM") (21, 12) (or_introl eq_refl)).
    simpl in H. lia.
  - specialize (H ascii_db (py "13PM-14PM") (25, 26) (or_introl eq_refl)).
    simpl in H. lia.
Qed.

(** C6, amended.  Every pair returned by [parse_time_slot] is the
    normalisation of the two numbers written in the leftmost time range
    of one comma/semicolon part of the cell: two integers that are not
    negative, the start below 24 when the written start is at most 12 and
    the end below 24 when the written end is at most 12.  Neither the
    order nor the range is checked: "9-12PM" yields (21,12) and "13PM-14PM"
    yields (25,26).  The intervals that [_intersect_all_slots] returns for
    two or more participants do have their end after their start. *)
Theorem parsed_intervals_are_nonnegative : forall (U : UnicodeDB),
  (forall time_str i,
     In i (parse_time_slot time_str) ->
     exists part pre ds w1 sp w2 dash w3 de w4 ep rest,
       In part (re_split comma_or_semicolon (normalise time_str))
       /\ strip part = pre ++ time_text ds w1 sp w2 dash w3 de w4 ep ++ rest
       /\ time_text_ok ds w1 w2 dash w3 de w4
       /\ (forall j, (j < length pre)%nat ->
                     run time_range (skipn j (strip part)) [] = [])
       /\ i = normalised (py_int ds) sp (py_int de) ep
       /\ 0 <= py_int ds /\ 0 <= py_int de
       /\ 0 <= fst i /\ 0 <= snd i
       /\ (py_int ds <= 12 -> fst i < 24)
       /\ (py_int de <= 12 -> snd i < 24))
  /\ parse_time_slot (py "9-12PM") = [(21, 12)]
  /\ parse_time_slot (py "13PM-14PM") = [(25, 26)]
  /\ parse_time_slot (py "12-1PM") = [(12, 13)]
  /\ (forall first second rest min_duration i,
        In i (_intersect_all_slots (first :: second :: rest) min_duration) ->
        fst i < snd i).
Proof.
  intros U. split; [|split; [|split; [|split]]].
  - intros time_str i Hi. rewrite parse_time_slot_unfold in Hi.
    destruct (has_keyword (normalise time_str)); [contradiction|].
    apply in_flat_map in Hi. destruct Hi as (part & Hpart & Hi).
    apply parse_part_occurrence in Hi.
    destruct Hi as (_ & pre & ds & w1 & sp & w2 & dash & w3 & de & w4 & ep & rest
                    & Hs & Hok & -> & Hno).
    exists part, pre, ds, w1, sp, w2, dash, w3, de, w4, ep, rest.
    pose proof (normalised_bounds (py_int ds) sp (py_int de) ep
                  (py_int_nonneg ds) (py_int_nonneg de)) as (H1 & H2 & H3 & H4).
    pose proof (py_int_nonneg ds). pose proof (py_int_nonneg de).
    repeat split; auto; apply Hok.
  - rewrite parse_time_slot_plain by (apply plainb_plain; reflexivity). reflexivity.
  - rewrite parse_time_slot_plain by (apply plainb_plain; reflexivity). reflexivity.
  - rewrite parse_time_slot_plain by (apply plainb_plain; reflexivity). reflexivity.
  - intros first second rest d i Hi. rewrite intersect_all_slots_eq in Hi.
    unfold intersect_spec in Hi. apply filter_In in Hi. destruct Hi as [Hi _].
    simpl in Hi. revert Hi. apply fold_step_positive.
    intros o Ho. now apply in_fold_step in Ho.
Qed.

(* ================================================================== *)
(** * One interval for each part of a cell *)

(** C10.  A cell without absence keyword is cut at every comma and
    semicolon, and its intervals are those of its parts, in order.
    Inside one part the time-range pattern is searched for, not matched
    against the whole part: a part yields at most one interval; it yields
    one as soon as a time range stands anywhere in it, whatever text
    surrounds it; the interval is that of the leftmost match, so text
    without digits before a time range and any text after it (further
    time ranges too) change nothing. *)
Theorem parse_part_takes_leftmost_match : forall (U : UnicodeDB),
  (forall part, (length (parse_part [] part) <= 1)%nat)
  /\ (forall time_str,
        parse_time_slot time_str
        = if has_keyword (normalise time_str) then []
          else flat_map (parse_part [])
                        (re_split comma_or_semicolon (normalise time_str)))
  /\ (forall part,
        forallb (fun c => negb (comma_or_semicolon c)) part = true ->
        re_split comma_or_semicolon part = [part])
  /\ (forall part c rest,
        forallb (fun c => negb (comma_or_semicolon c)) part = true ->
        comma_or_semicolon c = true ->
        re_split comma_or_semicolon (part ++ c :: rest)
        = part :: re_split comma_or_semicolon rest)
  /\ (forall time_str part c rest,
        has_keyword (normalise time_str) = false ->
        normalise time_str = part ++ c :: rest ->
        forallb (fun c => negb (comma_or_semicolon c)) part = true ->
        comma_or_semicolon c = true ->
        parse_time_slot time_str
        = parse_part [] part
          ++ flat_map (parse_part []) (re_split comma_or_semicolon rest))
  /\ (forall time_str,
        (length (parse_time_slot time_str)
         <= length (re_split comma_or_semicolon (normalise time_str)))%nat)
  /\ (forall part i,
        parse_part [] part = [i] ->
        exists pre ds w1 sp w2 dash w3 de w4 ep rest,
          strip part = pre ++ time_text ds w1 sp w2 dash w3 de w4 ep ++ rest
          /\ time_text_ok ds w1 w2 dash w3 de w4
          /\ i = normalised (py_int ds) sp (py_int de) ep
          /\ forall j, (j < length pre)%nat ->
                       run time_range (skipn j (strip part)) [] = [])
  /\ (forall pre suf ds w1 sp w2 dash w3 de w4 ep,
        time_text_ok ds w1 w2 dash w3 de w4 ->
        exists i,
          parse_part [] (pre ++ time_text ds w1 sp w2 dash w3 de w4 ep ++ suf) = [i])
  /\ (forall pre suf ds w1 sp w2 dash w3 de w4 ep,
        time_text_ok ds w1 w2 dash w3 de w4 ->
        forallb (fun c => negb (is_digit c)) pre = true ->
        parse_part [] (pre ++ time_text ds w1 sp w2 dash w3 de w4 ep ++ suf)
        = [normalised (py_int ds) sp (py_int de) ep])
  /\ parse_time_slot (py "meet 9am-11am or 1pm-3pm") = [(9, 11)]
  /\ parse_time_slot (py "1-9AM-12PM") = [(1, 9)]
  /\ parse_time_slot (py "busy 9am-11am or 1pm-3pm, lunch; 2-4PM then 5-6PM")
     = [(9, 11); (14, 16)].
Proof.
  intros U.
  split; [apply parse_part_length|].
  split; [apply parse_time_slot_unfold|].
  split; [apply re_split_one|].
  split; [intros; now apply re_split_sep_free|].
  split.
  { intros time_str part c rest Hkey Hcut Hpart Hc.
    rewrite parse_time_slot_unfold, Hkey, Hcut.
    now rewrite (re_split_sep_free _ part c rest Hpart Hc). }
  split; [apply parse_time_slot_length|].
  split.
  { intros part i Hi.
    apply (parse_part_occurrence part i). rewrite Hi. now left. }
  split; [intros; now apply parse_part_finds|].
  split.
  { intros pre suf ds w1 sp w2 dash w3 de w4 ep
           (Hds & Hdne & Hde & Hdene & Hw1 & Hw2 & Hw3 & Hw4 & Hdash) Hpre.
    now apply parse_part_time_text. }
  split; [|split];
    rewrite parse_time_slot_plain by (apply plainb_plain; reflexivity);
    reflexivity.
Qed.
